(** * Turtle Adventure: enemy behaviour and game session

    A shallow embedding of [turtle_adventure.py].

    Numbers.  Python [int]s that stay [int]s (the patrol coordinates of
    [FencingEnemy], sizes, delays) are [Z].  Python [float]s are idealised
    as real numbers [R]: rounding is abstracted away, while the one
    exceptional behaviour the source can exhibit on floats, the
    [ZeroDivisionError] of [/], is kept ([fdiv]).

    Effects.  The methods read and write the game object ([self.game]) and
    may raise; they are written in a state-and-error monad [M] over the
    record [Game].

    Host facilities.  Canvas items only matter through their coordinates,
    the [turtle] module through the position, heading and visibility of a
    [RawTurtle] and through the divisions of [setworldcoordinates];
    [random] and [time.time] are inputs of the functions that call
    them. *)

From Stdlib Require Import Reals Lra Lia ZArith List String Bool Arith.
Import ListNotations.

Open Scope R_scope.

(** ** Python values and errors *)

Inductive PyError : Type :=
| ZeroDivisionError
| IndexError.

Inductive Result (A : Type) : Type :=
| Ok (a : A)
| Raise (e : PyError).
Arguments Ok {A} a.
Arguments Raise {A} e.

Definition Pos : Type := (R * R)%type.

(** [a < b] on floats, as a boolean. *)
Definition ltR (a b : R) : bool := if Rlt_dec a b then true else false.
(** [a <= b]. *)
Definition leR (a b : R) : bool := if Rle_dec a b then true else false.
(** [a == b]. *)
Definition eqR (a b : R) : bool := if Req_dec_T a b then true else false.

(** Float division: [ZeroDivisionError] on a zero divisor. *)
Definition fdiv (a b : R) : Result R :=
  if eqR b 0 then Raise ZeroDivisionError else Ok (a / b).

(** [math.hypot]. *)
Definition hypot (dx dy : R) : R := sqrt (dx * dx + dy * dy).

(** Module constants. *)
Definition SCREEN_WIDTH : Z := 800.
Definition SCREEN_HEIGHT : Z := 500.

(** ** The turtle module

    A [RawTurtle] is known by its position, heading and visibility.  How a
    heading is computed from two points ([towards]) and how a position
    advances along a heading ([forward]) belong to the host library. *)

Record RawTurtle : Type := mkTurtle {
  t_pos : Pos;
  t_heading : R;
  t_visible : bool
}.

Class TurtleLib : Type := {
  towards : Pos -> Pos -> R;
  forward : Pos -> R -> R -> Pos
}.

(** [turtle.distance(x, y)]. *)
Definition t_distance (t : RawTurtle) (p : Pos) : R :=
  hypot (fst p - fst (t_pos t)) (snd p - snd (t_pos t)).

Definition t_forward `{TurtleLib} (t : RawTurtle) (d : R) : RawTurtle :=
  mkTurtle (forward (t_pos t) (t_heading t) d) (t_heading t) (t_visible t).

Definition t_setheading (t : RawTurtle) (a : R) : RawTurtle :=
  mkTurtle (t_pos t) a (t_visible t).

Definition t_hideturtle (t : RawTurtle) : RawTurtle :=
  mkTurtle (t_pos t) (t_heading t) false.

Definition t_goto (t : RawTurtle) (p : Pos) : RawTurtle :=
  mkTurtle p (t_heading t) (t_visible t).

(** A fresh [RawTurtle(canvas)]: at the origin, heading 0, shown. *)
Definition new_turtle : RawTurtle := mkTurtle (0, 0) 0 true.

(** ** Game elements *)

Record Waypoint : Type := mkWaypoint {
  wp_x : R;
  wp_y : R;
  wp_active : bool
}.

Record Home : Type := mkHome {
  home_x : R;
  home_y : R;
  home_size : Z
}.

Record Player : Type := mkPlayer {
  pl_turtle : RawTurtle;
  pl_speed : R
}.

(** The two operators a [RandomWalkEnemy] draws from. *)
Inductive Operator : Type := OpPlus | OpMinus.

Record RandomWalkEnemy : Type := mkRandomWalk {
  rw_x : R;
  rw_y : R;
  rw_size : Z;
  rw_color : string;
  rw_op : list Operator
}.

Record ChasingEnemy : Type := mkChasing {
  ch_x : R;
  ch_y : R;
  ch_size : Z;
  ch_color : string;
  ch_speed : Z
}.

Record FencingEnemy : Type := mkFencing {
  fe_x : Z;
  fe_y : Z;
  fe_size : Z;
  fe_color : string;
  fe_speed : Z;
  spawnOpt : option Z
}.

(** [body_segments] holds canvas rectangles; each is represented by the
    first two of its coordinates, which is all the source reads of it. *)
Record CentipedeEnemy : Type := mkCentipede {
  ce_x : R;
  ce_y : R;
  ce_size : Z;
  ce_color : string;
  ce_speed : Z;
  body_segments : list Pos;
  segment_spacing : Z;
  ce_length : nat
}.

(** [se_ball] refers to a turtle of the screen (an index in the game's
    [turtles]). *)
Record ShootingEnemy : Type := mkShooting {
  se_x : R;
  se_y : R;
  se_size : Z;
  se_color : string;
  ball_speed : Z;
  se_ball : option nat;
  last_shot_time : R
}.

Inductive Enemy : Type :=
| RandomWalk (e : RandomWalkEnemy)
| Chasing (e : ChasingEnemy)
| Fencing (e : FencingEnemy)
| Centipede (e : CentipedeEnemy)
| Shooting (e : ShootingEnemy).

(** What the game's element list holds.  The waypoint, the home and the
    player are the objects also held by the game's attributes of the same
    name, so the list only refers to them. *)
Inductive Element : Type :=
| ElWaypoint
| ElHome
| ElPlayer
| ElEnemy (e : Enemy).

(** The callbacks [EnemyGenerator] hands to [after]. *)
Inductive Callback : Type :=
| Cb_create_fencing
| Cb_create_centipede
| Cb_create_randomWalkenemy
| Cb_create_ShootingEnemy
| Cb_create_chasing.

(** ** The game object

    [elements] is the registration-ordered element list; [enemies] holds
    references (indices in [elements]) to the same objects; [turtles] are
    the projectile turtles living on the screen; [texts] the text items
    drawn on the canvas; [scheduled] the pending [after] requests. *)
Record Game : Type := mkGame {
  level : Z;
  screen_width : Z;
  screen_height : Z;
  waypoint : Waypoint;
  player : Player;
  home : Home;
  elements : list Element;
  enemies : list nat;
  turtles : list RawTurtle;
  texts : list string;
  scheduled : list (Z * Callback);
  running : bool
}.

Definition player_x (g : Game) : R := fst (t_pos (pl_turtle (player g))).
Definition player_y (g : Game) : R := snd (t_pos (pl_turtle (player g))).

Definition set_running (b : bool) (g : Game) : Game :=
  mkGame (level g) (screen_width g) (screen_height g) (waypoint g) (player g)
         (home g) (elements g) (enemies g) (turtles g) (texts g)
         (scheduled g) b.

Definition set_texts (t : list string) (g : Game) : Game :=
  mkGame (level g) (screen_width g) (screen_height g) (waypoint g) (player g)
         (home g) (elements g) (enemies g) (turtles g) t
         (scheduled g) (running g).

Definition set_elements (l : list Element) (g : Game) : Game :=
  mkGame (level g) (screen_width g) (screen_height g) (waypoint g) (player g)
         (home g) l (enemies g) (turtles g) (texts g)
         (scheduled g) (running g).

Definition set_enemies (l : list nat) (g : Game) : Game :=
  mkGame (level g) (screen_width g) (screen_height g) (waypoint g) (player g)
         (home g) (elements g) l (turtles g) (texts g)
         (scheduled g) (running g).

Definition set_turtles (l : list RawTurtle) (g : Game) : Game :=
  mkGame (level g) (screen_width g) (screen_height g) (waypoint g) (player g)
         (home g) (elements g) (enemies g) l (texts g)
         (scheduled g) (running g).

Definition set_scheduled (l : list (Z * Callback)) (g : Game) : Game :=
  mkGame (level g) (screen_width g) (screen_height g) (waypoint g) (player g)
         (home g) (elements g) (enemies g) (turtles g) (texts g)
         l (running g).

Definition set_waypoint (w : Waypoint) (g : Game) : Game :=
  mkGame (level g) (screen_width g) (screen_height g) w (player g)
         (home g) (elements g) (enemies g) (turtles g) (texts g)
         (scheduled g) (running g).

Definition set_player (p : Player) (g : Game) : Game :=
  mkGame (level g) (screen_width g) (screen_height g) (waypoint g) p
         (home g) (elements g) (enemies g) (turtles g) (texts g)
         (scheduled g) (running g).

(** ** The monad of methods: game state and exceptions *)

Definition M (A : Type) : Type := Game -> Result (A * Game).

Definition ret {A} (a : A) : M A := fun g => Ok (a, g).

Definition bind {A B} (m : M A) (k : A -> M B) : M B :=
  fun g => match m g with
           | Ok (a, g') => k a g'
           | Raise e => Raise e
           end.

Definition lift {A} (r : Result A) : M A :=
  fun g => match r with
           | Ok a => Ok (a, g)
           | Raise e => Raise e
           end.

Definition get_game : M Game := fun g => Ok (g, g).
Definition modify (f : Game -> Game) : M unit := fun g => Ok (tt, f g).

Declare Scope py_scope.
Delimit Scope py_scope with py.
Notation "x <- m ;; k" := (bind m (fun x => k))
  (at level 61, m at next level, right associativity) : py_scope.
Notation "m ;;; k" := (bind m (fun _ => k))
  (at level 61, right associativity) : py_scope.
Open Scope py_scope.

(** [when c m]: a Python [if c: m] with no [else]. *)
Definition when (c : bool) (m : M unit) : M unit :=
  if c then m else ret tt.

(** The same for code that cannot touch the game. *)
Definition rbind {A B} (r : Result A) (k : A -> Result B) : Result B :=
  match r with
  | Ok a => k a
  | Raise e => Raise e
  end.
Notation "x <-- r ;; k" := (rbind r (fun x => k))
  (at level 61, r at next level, right associativity) : py_scope.

(** ** Python lists *)

(** [l[i]] for [i >= 0]. *)
Definition index {A} (l : list A) (i : nat) : Result A :=
  match nth_error l i with
  | Some a => Ok a
  | None => Raise IndexError
  end.

(** The list after an in-place change of the object at position [i]. *)
Fixpoint set_nth {A} (i : nat) (a : A) (l : list A) : list A :=
  match l, i with
  | [], _ => []
  | _ :: t, O => a :: t
  | h :: t, S j => h :: set_nth j a t
  end.

(** [range(start, stop, step)] for a positive [step]. *)
Definition range3 (start stop step : Z) : list Z :=
  map (fun k => (start + Z.of_nat k * step)%Z)
      (seq 0 (Z.to_nat ((stop - start + step - 1) / step))).

(** ** TurtleAdventureGame: the methods of the session *)

(** Modelled from the spec: [Game.stop] of the game library, which is not
    part of the sources.  A transition to a terminal state halts further
    ticking: the session is no longer running. *)
Definition stop : M unit := modify (set_running false).

(** [canvas.create_text(..., text=s, ...)]. *)
Definition create_text (s : string) : M unit :=
  modify (fun g => set_texts (texts g ++ [s]) g).

Definition game_over_win : M unit :=
  stop ;;; create_text "You Win".

Definition game_over_lose : M unit :=
  stop ;;; create_text "You Lose".

(** ** Enemy: the common collision test *)

(** [Enemy.hits_player] for an enemy at [(x, y)] of size [size]. *)
Definition hits_player (x y : R) (size : Z) : M bool :=
  g <- get_game ;;
  ret ((ltR (x - IZR size / 2) (player_x g)
        && ltR (player_x g) (x + IZR size / 2))
       && (ltR (y - IZR size / 2) (player_y g)
           && ltR (player_y g) (y + IZR size / 2))).

(** The test written out in the other enemies' [update]:
    [(x < player.x < x + size) and (y < player.y < y + size)]. *)
Definition corner_box_hit (x y size : R) : M bool :=
  g <- get_game ;;
  ret ((ltR x (player_x g) && ltR (player_x g) (x + size))
       && (ltR y (player_y g) && ltR (player_y g) (y + size))).

(** ** RandomWalkEnemy *)

Definition rw_set_pos (x y : R) (e : RandomWalkEnemy) : RandomWalkEnemy :=
  mkRandomWalk x y (rw_size e) (rw_color e) (rw_op e).

Definition rw_set_op (op : list Operator) (e : RandomWalkEnemy)
  : RandomWalkEnemy :=
  mkRandomWalk (rw_x e) (rw_y e) (rw_size e) (rw_color e) op.

Definition apply_operator (o : Operator) (v : R) : R :=
  match o with
  | OpPlus => v + 1
  | OpMinus => v - 1
  end.

(** [RandomWalkEnemy.update]; the two arguments are the results of the two
    [random.choice(operators)]. *)
Definition RandomWalkEnemy_update (random_x_operator random_y_operator : Operator)
    (e : RandomWalkEnemy) : M RandomWalkEnemy :=
  let e := if Nat.eqb (List.length (rw_op e)) 0
           then rw_set_op (rw_op e ++ [random_x_operator] ++ [random_y_operator]) e
           else e in
  op0 <- lift (index (rw_op e) 0) ;;
  let e := rw_set_pos (apply_operator op0 (rw_x e)) (rw_y e) e in
  op1 <- lift (index (rw_op e) 1) ;;
  let e := rw_set_pos (rw_x e) (apply_operator op1 (rw_y e)) e in
  hit <- hits_player (rw_x e) (rw_y e) (rw_size e) ;;
  when hit game_over_lose ;;;
  ret e.

(** ** ChasingEnemy *)

Definition ch_set_pos (x y : R) (e : ChasingEnemy) : ChasingEnemy :=
  mkChasing x y (ch_size e) (ch_color e) (ch_speed e).

(** The out-of-bound check of one coordinate against a module constant. *)
Definition check_bound (v : R) (limit size : Z) : R :=
  if ltR v 0 then 0
  else if ltR (IZR (limit - size)) v then IZR (limit - size)
  else v.

Definition ChasingEnemy_update (e : ChasingEnemy) : M ChasingEnemy :=
  g <- get_game ;;
  let x_cor := player_x g in
  let y_cor := player_y g in
  let dx := x_cor - ch_x e in
  let dy := y_cor - ch_y e in
  let dist := hypot dx dy in
  dx <- lift (fdiv dx dist) ;;
  dy <- lift (fdiv dy dist) ;;
  let e := ch_set_pos (ch_x e + dx * IZR (ch_speed e))
                      (ch_y e + dy * IZR (ch_speed e)) e in
  let e := ch_set_pos (check_bound (ch_x e) SCREEN_WIDTH (ch_size e))
                      (ch_y e) e in
  let e := ch_set_pos (ch_x e)
                      (check_bound (ch_y e) SCREEN_HEIGHT (ch_size e)) e in
  hit <- corner_box_hit (ch_x e) (ch_y e) (IZR (ch_size e)) ;;
  when hit game_over_lose ;;;
  ret e.

(** ** FencingEnemy *)

Definition fe_set_pos (x y : Z) (e : FencingEnemy) : FencingEnemy :=
  mkFencing x y (fe_size e) (fe_color e) (fe_speed e) (spawnOpt e).

Definition fe_set_spawnOpt (o : option Z) (e : FencingEnemy) : FencingEnemy :=
  mkFencing (fe_x e) (fe_y e) (fe_size e) (fe_color e) (fe_speed e) o.

(** [FencingEnemy.create]. *)
Definition FencingEnemy_create (e : FencingEnemy) : FencingEnemy :=
  match spawnOpt e with
  | Some 1%Z => fe_set_pos 660 210 e
  | Some 0%Z => fe_set_pos 720 270 e
  | Some 2%Z => fe_set_pos 720 210 e
  | Some 3%Z => fe_set_pos 660 270 e
  | _ => e
  end.

(** The four two-line blocks that [update] repeats in four orders. *)

(** [if self.y == 210: if self.x < 720: self.x += self.speed] *)
Definition along_top (e : FencingEnemy) : FencingEnemy :=
  if (fe_y e =? 210)%Z
  then if (fe_x e <? 720)%Z then fe_set_pos (fe_x e + fe_speed e) (fe_y e) e
       else e
  else e.

(** [if self.x == 720: if self.y < 270: self.y += self.speed] *)
Definition along_right (e : FencingEnemy) : FencingEnemy :=
  if (fe_x e =? 720)%Z
  then if (fe_y e <? 270)%Z then fe_set_pos (fe_x e) (fe_y e + fe_speed e) e
       else e
  else e.

(** [if self.y == 270: if self.x > 660: self.x -= self.speed] *)
Definition along_bottom (e : FencingEnemy) : FencingEnemy :=
  if (fe_y e =? 270)%Z
  then if (fe_x e >? 660)%Z then fe_set_pos (fe_x e - fe_speed e) (fe_y e) e
       else e
  else e.

(** [if self.x == 660: if self.y > 210: self.y -= self.speed] *)
Definition along_left (e : FencingEnemy) : FencingEnemy :=
  if (fe_x e =? 660)%Z
  then if (fe_y e >? 210)%Z then fe_set_pos (fe_x e) (fe_y e - fe_speed e) e
       else e
  else e.

(** The movement part of [FencingEnemy.update]. *)
Definition FencingEnemy_move (e : FencingEnemy) : FencingEnemy :=
  match spawnOpt e with
  | Some 1%Z => along_left (along_bottom (along_right (along_top e)))
  | Some 0%Z => along_right (along_top (along_left (along_bottom e)))
  | Some 2%Z => along_top (along_left (along_bottom (along_right e)))
  | Some 3%Z => along_bottom (along_right (along_top (along_left e)))
  | _ => e
  end.

Definition FencingEnemy_update (e : FencingEnemy) : M FencingEnemy :=
  let e := FencingEnemy_move e in
  hit <- corner_box_hit (IZR (fe_x e)) (IZR (fe_y e)) (IZR (fe_size e)) ;;
  when hit game_over_lose ;;;
  ret e.

(** ** CentipedeEnemy *)

Definition ce_set_pos (x y : R) (e : CentipedeEnemy) : CentipedeEnemy :=
  mkCentipede x y (ce_size e) (ce_color e) (ce_speed e) (body_segments e)
              (segment_spacing e) (ce_length e).

Definition ce_set_body (b : list Pos) (e : CentipedeEnemy) : CentipedeEnemy :=
  mkCentipede (ce_x e) (ce_y e) (ce_size e) (ce_color e) (ce_speed e) b
              (segment_spacing e) (ce_length e).

(** [CentipedeEnemy.create]: the head, then [length - 1] segments to its
    left, [segment_spacing] apart. *)
Definition CentipedeEnemy_create (e : CentipedeEnemy) : CentipedeEnemy :=
  ce_set_body
    (body_segments e ++ [(ce_x e, ce_y e)]
     ++ map (fun i => (ce_x e - INR i * IZR (segment_spacing e), ce_y e))
            (seq 1 (ce_length e - 1)))
    e.

(** The body of the loop "Move body" for one index [i]. *)
Definition move_segment (spacing : Z) (segs : list Pos) (i : nat)
  : Result (list Pos) :=
  prev_segment <-- index segs (i - 1) ;;
  segment <-- index segs i ;;
  let dx := fst prev_segment - fst segment in
  let dy := snd prev_segment - snd segment in
  let dist := hypot dx dy in
  if ltR (IZR spacing) dist then
    dx <-- fdiv dx dist ;;
    dy <-- fdiv dy dist ;;
    let segment_x := fst segment + dx * (dist - IZR spacing) in
    let segment_y := snd segment + dy * (dist - IZR spacing) in
    Ok (set_nth i (segment_x, segment_y) segs)
  else Ok segs.

(** [for i in range(1, len(self.body_segments)): ...] *)
Fixpoint move_body (spacing : Z) (range : list nat) (segs : list Pos)
  : Result (list Pos) :=
  match range with
  | [] => Ok segs
  | i :: range' =>
      segs' <-- move_segment spacing segs i ;;
      move_body spacing range' segs'
  end.

(** [canvas.coords(self.body_segments[0], x, y, ...)]. *)
Definition place_head (p : Pos) (segs : list Pos) : Result (list Pos) :=
  _ <-- index segs 0 ;;
  Ok (set_nth 0 p segs).

Definition CentipedeEnemy_update (e : CentipedeEnemy) : M CentipedeEnemy :=
  g <- get_game ;;
  let x_cor := player_x g in
  let y_cor := player_y g in
  let dx := x_cor - ce_x e in
  let dy := y_cor - ce_y e in
  let dist := hypot dx dy in
  dx <- lift (fdiv dx dist) ;;
  dy <- lift (fdiv dy dist) ;;
  let e := ce_set_pos (ce_x e + dx * IZR (ce_speed e))
                      (ce_y e + dy * IZR (ce_speed e)) e in
  segs <- lift (move_body (segment_spacing e)
                          (seq 1 (List.length (body_segments e) - 1))
                          (body_segments e)) ;;
  segs <- lift (place_head (ce_x e, ce_y e) segs) ;;
  let e := ce_set_body segs e in
  hit <- corner_box_hit (ce_x e) (ce_y e) (IZR (ce_size e)) ;;
  when hit game_over_lose ;;;
  ret e.

(** ** ShootingEnemy *)

Definition se_set_ball (b : option nat) (e : ShootingEnemy) : ShootingEnemy :=
  mkShooting (se_x e) (se_y e) (se_size e) (se_color e) (ball_speed e) b
             (last_shot_time e).

Definition se_set_last_shot_time (t : R) (e : ShootingEnemy) : ShootingEnemy :=
  mkShooting (se_x e) (se_y e) (se_size e) (se_color e) (ball_speed e)
             (se_ball e) t.

(** A method call on the turtle that reference [i] designates.  A
    reference held by an enemy always designates a turtle of the screen;
    the list is left as it is for an index that designates none. *)
Definition on_turtle (i : nat) (f : RawTurtle -> RawTurtle) : M unit :=
  modify (fun g =>
    match nth_error (turtles g) i with
    | Some t => set_turtles (set_nth i (f t) (turtles g)) g
    | None => g
    end).

(** [RawTurtle(self.canvas)]: a new turtle on the screen, and the
    reference to it. *)
Definition RawTurtle_new : M nat :=
  g <- get_game ;;
  modify (set_turtles (turtles g ++ [new_turtle])) ;;;
  ret (List.length (turtles g)).

Section WithTurtle.
Context `{TurtleLib}.

(** [ShootingEnemy.__shoot_ball]. *)
Definition shoot_ball (e : ShootingEnemy) : M ShootingEnemy :=
  g <- get_game ;;
  let x_cor := player_x g in
  let y_cor := player_y g in
  match se_ball e with
  | Some old => on_turtle old t_hideturtle
  | None => ret tt
  end ;;;
  b <- RawTurtle_new ;;
  let e := se_set_ball (Some b) e in
  on_turtle b (fun t => t_goto t (se_x e, se_y e)) ;;;
  on_turtle b (fun t => t_setheading t (towards (t_pos t) (x_cor, y_cor))) ;;;
  ret e.

(** The second block of [update], "Move the existing ball towards its
    destination". *)
Definition move_ball (e : ShootingEnemy) : M unit :=
  match se_ball e with
  | Some b =>
      g <- get_game ;;
      match nth_error (turtles g) b with
      | Some t =>
          when (t_visible t)
            (on_turtle b (fun t => t_forward t (IZR (ball_speed e))) ;;;
             g <- get_game ;;
             match nth_error (turtles g) b with
             | Some t =>
                 when (ltR (t_distance t (player_x g, player_y g))
                           (IZR (se_size e)))
                   (game_over_lose ;;;
                    on_turtle b t_hideturtle)
             | None => ret tt
             end)
      | None => ret tt
      end
  | None => ret tt
  end.

(** [ShootingEnemy.update]; [current_time] is the value of [time.time()]. *)
Definition ShootingEnemy_update (current_time : R) (e : ShootingEnemy)
  : M ShootingEnemy :=
  e <- (if leR 1 (current_time - last_shot_time e)
        then shoot_ball (se_set_last_shot_time current_time e)
        else ret e) ;;
  move_ball e ;;;
  ret e.

(** ** Waypoint, Home, Player *)

Definition Waypoint_activate (x y : R) : M unit :=
  modify (set_waypoint (mkWaypoint x y true)).

Definition Waypoint_deactivate : M unit :=
  modify (fun g => set_waypoint (mkWaypoint (wp_x (waypoint g))
                                            (wp_y (waypoint g)) false) g).

(** [Home.contains]. *)
Definition Home_contains (h : Home) (x y : R) : bool :=
  let x1 := home_x h - IZR (home_size h) / 2 in
  let x2 := home_x h + IZR (home_size h) / 2 in
  let y1 := home_y h - IZR (home_size h) / 2 in
  let y2 := home_y h + IZR (home_size h) / 2 in
  (leR x1 x && leR x x2) && (leR y1 y && leR y y2).

Definition on_player_turtle (f : RawTurtle -> RawTurtle) : M unit :=
  modify (fun g => set_player (mkPlayer (f (pl_turtle (player g)))
                                        (pl_speed (player g))) g).

(** [Player.update]. *)
Definition Player_update : M unit :=
  g <- get_game ;;
  when (Home_contains (home g) (player_x g) (player_y g)) game_over_win ;;;
  g <- get_game ;;
  let wp := waypoint g in
  when (wp_active wp)
    (on_player_turtle
       (fun t => t_setheading t (towards (t_pos t) (wp_x wp, wp_y wp))) ;;;
     on_player_turtle (fun t => t_forward t (pl_speed (player g))) ;;;
     g <- get_game ;;
     when (ltR (t_distance (pl_turtle (player g)) (wp_x wp, wp_y wp))
               (pl_speed (player g)))
       Waypoint_deactivate).

End WithTurtle.

(** ** Construction and registration *)

(** The constructors.  A new game element is at [(0, 0)] until its
    coordinates are assigned. *)
Definition RandomWalkEnemy_new (size : Z) (color : string) : RandomWalkEnemy :=
  mkRandomWalk 0 0 size color [].

(** [speed] is the result of [random.randint(2, 3)]. *)
Definition ChasingEnemy_new (size : Z) (color : string) (speed : Z)
  : ChasingEnemy :=
  mkChasing 0 0 size color speed.

Definition FencingEnemy_new (size : Z) (color : string) : FencingEnemy :=
  mkFencing 0 0 size color 5 None.

Definition CentipedeEnemy_new (size : Z) (color : string) : CentipedeEnemy :=
  mkCentipede 0 0 size color 4 [] (1 * size) 10.

(** [now] is the result of [time.time()]. *)
Definition ShootingEnemy_new (size : Z) (color : string) (ball_speed : Z)
    (now : R) : ShootingEnemy :=
  mkShooting 0 0 size color ball_speed None now.

(** The [create] methods; those not listed only make canvas items. *)
Definition Enemy_create (e : Enemy) : Enemy :=
  match e with
  | Fencing f => Fencing (FencingEnemy_create f)
  | Centipede c => Centipede (CentipedeEnemy_create c)
  | _ => e
  end.

(** Modelled from the spec: [Game.add_element] of the game library, which
    is not part of the sources.  Registering an element with the session
    runs its [create] and appends it to the element list, which the tick
    walks in registration order. *)
Definition add_element (el : Element) : M unit :=
  match el with
  | ElPlayer => modify (fun g => set_player (mkPlayer new_turtle
                                                      (pl_speed (player g))) g)
  | _ => ret tt
  end ;;;
  let el := match el with
            | ElEnemy e => ElEnemy (Enemy_create e)
            | _ => el
            end in
  modify (fun g => set_elements (elements g ++ [el]) g).

(** [TurtleAdventureGame.add_enemy]: the reference appended to [enemies]
    is the one [add_element] is about to append to the element list. *)
Definition add_enemy (e : Enemy) : M unit :=
  modify (fun g => set_enemies (enemies g ++ [List.length (elements g)]) g) ;;;
  add_element (ElEnemy e).

(** A [for] loop over a list. *)
Fixpoint for_each {A} (l : list A) (body : A -> M unit) : M unit :=
  match l with
  | [] => ret tt
  | a :: l' => body a ;;; for_each l' body
  end.

(** ** EnemyGenerator *)

(** [game.after(delay, callback)]: the request is recorded. *)
Definition after (delay : Z) (cb : Callback) : M unit :=
  modify (fun g => set_scheduled (scheduled g ++ [(delay, cb)]) g).

(** [EnemyGenerator.__init__]. *)
Definition EnemyGenerator_init : M unit :=
  after 100 Cb_create_fencing ;;;
  after 100 Cb_create_centipede ;;;
  after 100 Cb_create_randomWalkenemy ;;;
  for_each (range3 0 5 1) (fun _ => after 100 Cb_create_ShootingEnemy) ;;;
  for_each (range3 1000 100000 1000)
           (fun i => after i Cb_create_randomWalkenemy) ;;;
  for_each (range3 1000 10000 1000) (fun i => after i Cb_create_chasing).

(** The factories.  [rx] and [ry] are the results of
    [random.randint(0, 600)] and [random.randint(0, 500)]. *)

Definition create_randomWalkenemy (rx ry : Z) : M unit :=
  let new_enemy := RandomWalkEnemy_new 20 "blue" in
  let new_enemy := rw_set_pos (IZR rx) (rw_y new_enemy) new_enemy in
  let new_enemy := rw_set_pos (rw_x new_enemy) (IZR ry) new_enemy in
  add_element (ElEnemy (RandomWalk new_enemy)).

Definition create_chasing (speed rx ry : Z) : M unit :=
  let new_enemy := ChasingEnemy_new 20 "green" speed in
  let new_enemy := ch_set_pos (IZR rx) (ch_y new_enemy) new_enemy in
  let new_enemy := ch_set_pos (ch_x new_enemy) (IZR ry) new_enemy in
  add_enemy (Chasing new_enemy).

Definition create_fencing : M unit :=
  for_each (range3 0 4 1)
    (fun i =>
       let new_enemy := FencingEnemy_new 10 "red" in
       let new_enemy := fe_set_spawnOpt (Some i) new_enemy in
       add_enemy (Fencing new_enemy)).

Definition create_centipede (rx ry : Z) : M unit :=
  let new_enemy := CentipedeEnemy_new 10 "yellow" in
  let new_enemy := ce_set_pos (IZR rx) (ce_y new_enemy) new_enemy in
  let new_enemy := ce_set_pos (ce_x new_enemy) (IZR ry) new_enemy in
  add_enemy (Centipede new_enemy).

Definition se_set_pos (x y : R) (e : ShootingEnemy) : ShootingEnemy :=
  mkShooting x y (se_size e) (se_color e) (ball_speed e) (se_ball e)
             (last_shot_time e).

Definition create_ShootingEnemy (now : R) (rx ry : Z) : M unit :=
  let new_enemy := ShootingEnemy_new 10 "brown" 10 now in
  let new_enemy := se_set_pos (IZR rx) (se_y new_enemy) new_enemy in
  let new_enemy := se_set_pos (se_x new_enemy) (IZR ry) new_enemy in
  add_enemy (Shooting new_enemy).

(** What a callback reads from [random] and [time] when it runs. *)
Record Draws : Type := mkDraws {
  d_x : Z;
  d_y : Z;
  d_speed : Z;
  d_time : R
}.

(** The scheduler runs a callback. *)
Definition fire (cb : Callback) (d : Draws) : M unit :=
  match cb with
  | Cb_create_fencing => create_fencing
  | Cb_create_centipede => create_centipede (d_x d) (d_y d)
  | Cb_create_randomWalkenemy => create_randomWalkenemy (d_x d) (d_y d)
  | Cb_create_ShootingEnemy => create_ShootingEnemy (d_time d) (d_x d) (d_y d)
  | Cb_create_chasing => create_chasing (d_speed d) (d_x d) (d_y d)
  end.

(** The draws [random.randint] can return in the factories. *)
Definition draws_in_range (d : Draws) : Prop :=
  (0 <= d_x d <= 600)%Z /\ (0 <= d_y d <= 500)%Z /\ (2 <= d_speed d <= 3)%Z.

(** ** The session *)

(** [TurtleAdventureGame.__init__] before [init_game]: a session with no
    element yet.  Modelled from the spec: the session is created in the
    state Running. *)
Definition new_game (screen_width screen_height level : Z) : Game :=
  mkGame level screen_width screen_height (mkWaypoint 0 0 false)
         (mkPlayer new_turtle 5) (mkHome 0 0 0) [] [] [] [] [] true.

Definition set_home (h : Home) (g : Game) : Game :=
  mkGame (level g) (screen_width g) (screen_height g) (waypoint g) (player g)
         h (elements g) (enemies g) (turtles g) (texts g)
         (scheduled g) (running g).

(** [TurtleScreen.setworldcoordinates] of the [turtle] module: it sets
    the two scales of the screen to the canvas size divided by
    [xspan = urx - llx] and by [yspan = ury - lly].  The scales only
    matter to drawing; the two divisions are kept. *)
Definition setworldcoordinates (llx lly urx ury : Z) : M unit :=
  let xspan := (urx - llx)%Z in
  let yspan := (ury - lly)%Z in
  if ((xspan =? 0) || (yspan =? 0))%Z
  then lift (Raise ZeroDivisionError)
  else ret tt.

(** [TurtleAdventureGame.init_game].  The canvas is given the size of the
    session, and the screen the world coordinates
    [0 .. screen_width - 1] by [0 .. screen_height - 1], the origin in the
    top-left corner. *)
Definition init_game : M unit :=
  g <- get_game ;;
  setworldcoordinates 0 (screen_height g - 1) (screen_width g - 1) 0 ;;;
  modify (set_waypoint (mkWaypoint 0 0 false)) ;;;
  add_element ElWaypoint ;;;
  modify (set_home (mkHome (IZR (screen_width g - 100))
                           (IZR (screen_height g / 2)) 20)) ;;;
  add_element ElHome ;;;
  modify (set_player (mkPlayer new_turtle 5)) ;;;
  add_element ElPlayer ;;;
  EnemyGenerator_init ;;;
  on_player_turtle (fun t => t_goto t (50, snd (t_pos t))) ;;;
  on_player_turtle
    (fun t => t_goto t (fst (t_pos t), IZR (screen_height g / 2))).

(** What an element's [update] reads from [random] and [time]. *)
Record Input : Type := mkInput {
  in_time : R;
  in_opx : Operator;
  in_opy : Operator
}.

Section Tick.
Context `{TurtleLib}.

Definition Enemy_update (inp : Input) (e : Enemy) : M Enemy :=
  match e with
  | RandomWalk e =>
      e' <- RandomWalkEnemy_update (in_opx inp) (in_opy inp) e ;;
      ret (RandomWalk e')
  | Chasing e => e' <- ChasingEnemy_update e ;; ret (Chasing e')
  | Fencing e => e' <- FencingEnemy_update e ;; ret (Fencing e')
  | Centipede e => e' <- CentipedeEnemy_update e ;; ret (Centipede e')
  | Shooting e => e' <- ShootingEnemy_update (in_time inp) e ;;
                  ret (Shooting e')
  end.

(** [update] of the element registered at position [i]; the element list
    holds the object, so its new state is seen through the list. *)
Definition update_at (inp : Input) (i : nat) : M unit :=
  g <- get_game ;;
  match nth_error (elements g) i with
  | Some ElPlayer => Player_update
  | Some (ElEnemy e) =>
      e' <- Enemy_update inp e ;;
      modify (fun g => set_elements (set_nth i (ElEnemy e') (elements g)) g)
  | _ => ret tt
  end.

(** Modelled from the spec: the tick of the game library's loop, which is
    not part of the sources.  If the session is not terminal, [update]
    (then [render], which only draws) runs on every element in
    registration order. *)
Definition tick (inps : nat -> Input) : M unit :=
  g <- get_game ;;
  if running g
  then for_each (seq 0 (List.length (elements g)))
                (fun i => update_at (inps i) i)
  else ret tt.

End Tick.

(** * Vocabulary of the properties *)

(** ** FencingEnemy: the patrol *)

(** [n] consecutive updates of one fencing enemy. *)
Fixpoint FencingEnemy_updates (n : nat) (e : FencingEnemy) : M FencingEnemy :=
  match n with
  | O => ret e
  | S n' => e' <- FencingEnemy_update e ;; FencingEnemy_updates n' e'
  end.

Fixpoint moves (n : nat) (e : FencingEnemy) : FencingEnemy :=
  match n with
  | O => e
  | S n' => moves n' (FencingEnemy_move e)
  end.

(** The enemy the generator makes for [spawnOpt = opt], once created. *)
Definition patrol_start (opt : Z) : FencingEnemy :=
  FencingEnemy_create (fe_set_spawnOpt (Some opt) (FencingEnemy_new 10 "red")).

Definition fe_pos (e : FencingEnemy) : Z * Z := (fe_x e, fe_y e).

(** The fencing bound (660, 210) -> (720, 210) -> (720, 270) -> (660, 270):
    the distance travelled along it from (660, 210), for a point on it. *)
Definition arc (p : Z * Z) : option Z :=
  let (x, y) := p in
  if ((y =? 210) && (660 <=? x) && (x <? 720))%Z then Some (x - 660)%Z
  else if ((x =? 720) && (210 <=? y) && (y <? 270))%Z then Some (60 + (y - 210))%Z
  else if ((y =? 270) && (660 <? x) && (x <=? 720))%Z then Some (120 + (720 - x))%Z
  else if ((x =? 660) && (210 <? y) && (y <=? 270))%Z then Some (180 + (270 - y))%Z
  else None.




Definition all_below (n : nat) (f : nat -> bool) : bool :=
  forallb f (seq 0 n).


(** ** Concrete sessions *)

(** A session of the given screen size whose player stands at [p]. *)
Definition game_with_player (w h : Z) (p : Pos) : Game :=
  set_player (mkPlayer (t_goto new_turtle p) 5) (new_game w h 1).

Definition ch_pos (e : ChasingEnemy) : Pos := (ch_x e, ch_y e).
Definition ce_pos (e : CentipedeEnemy) : Pos := (ce_x e, ce_y e).
Definition player_pos (g : Game) : Pos := (player_x g, player_y g).

(** ** EnemyGenerator: the plan and its effect *)

(** The spawn plan, as (delay in ms, factory) in scheduling order. *)
Definition spawn_plan : list (Z * Callback) :=
  [(100, Cb_create_fencing); (100, Cb_create_centipede);
   (100, Cb_create_randomWalkenemy)]%Z
  ++ repeat (100%Z, Cb_create_ShootingEnemy) 5
  ++ map (fun k => ((1000 * Z.of_nat k)%Z, Cb_create_randomWalkenemy))
         (seq 1 99)
  ++ map (fun k => ((1000 * Z.of_nat k)%Z, Cb_create_chasing)) (seq 1 9).

(** The scheduler runs callbacks one after the other. *)
Definition fire_all (l : list (Callback * Draws)) : M unit :=
  for_each l (fun cd => fire (fst cd) (snd cd)).

Definition Enemy_pos (e : Enemy) : Pos :=
  match e with
  | RandomWalk e => (rw_x e, rw_y e)
  | Chasing e => (ch_x e, ch_y e)
  | Fencing e => (IZR (fe_x e), IZR (fe_y e))
  | Centipede e => (ce_x e, ce_y e)
  | Shooting e => (se_x e, se_y e)
  end.

(** The enemy class each factory instantiates. *)
Definition made_by (cb : Callback) (e : Enemy) : bool :=
  match cb, e with
  | Cb_create_fencing, Fencing _ => true
  | Cb_create_centipede, Centipede _ => true
  | Cb_create_randomWalkenemy, RandomWalk _ => true
  | Cb_create_ShootingEnemy, Shooting _ => true
  | Cb_create_chasing, Chasing _ => true
  | _, _ => false
  end.

(** The area the factories draw positions from: the bounds are the
    literals of their [random.randint(0, 600)] and
    [random.randint(0, 500)]. *)
Definition in_spawn_area (p : Pos) : Prop :=
  0 <= fst p <= 600 /\ 0 <= snd p <= 500.

(** The visible area of a session: the coordinates of the canvas
    [init_game] sizes with [screen_width] and [screen_height], which are
    the world coordinates [0 .. screen_width - 1] by
    [0 .. screen_height - 1] it gives the screen. *)
Definition in_visible_area (g : Game) (p : Pos) : Prop :=
  0 <= fst p <= IZR (screen_width g - 1)
  /\ 0 <= snd p <= IZR (screen_height g - 1).

Definition is_randomwalk (el : Element) : bool :=
  match el with
  | ElEnemy (RandomWalk _) => true
  | _ => false
  end.

(** Does reference [i] of the enemy list designate a RandomWalkEnemy? *)
Definition refers_to_randomwalk (g : Game) (i : nat) : bool :=
  match nth_error (elements g) i with
  | Some el => is_randomwalk el
  | None => false
  end.

Definition enemies_hold_randomwalk (g : Game) : bool :=
  existsb (refers_to_randomwalk g) (enemies g).

(** How many enemies one call of a factory makes. *)
Definition batch (cb : Callback) : nat :=
  match cb with
  | Cb_create_fencing => 4
  | _ => 1
  end.

(** Every reference of the enemy list designates an element that is not
    a RandomWalkEnemy. *)
Definition enemies_sound (g : Game) : Prop :=
  Forall (fun i => (i < List.length (elements g))%nat
                   /\ refers_to_randomwalk g i = false) (enemies g).


(** ** ShootingEnemy: shots and projectiles *)

(** An idealised turtle, for concrete runs: headings are angles, and a
    move of [d] along heading [h] adds [d] times its unit vector. *)
Definition ideal_turtle : TurtleLib :=
  {| towards := fun p q =>
       let dx := fst q - fst p in
       let dy := snd q - snd p in
       if ltR 0 dx then atan (dy / dx)
       else if ltR dx 0 then atan (dy / dx) + PI
       else if ltR 0 dy then PI / 2
       else if ltR dy 0 then - PI / 2
       else 0;
     forward := fun p h d => (fst p + d * cos h, snd p + d * sin h) |}.

(** Is the turtle that reference [i] designates shown? *)
Definition visible_at (g : Game) (i : nat) : bool :=
  match nth_error (turtles g) i with
  | Some t => t_visible t
  | None => false
  end.

(** A shot is seen as one more turtle on the screen. *)
Definition fired (g g' : Game) : bool :=
  (List.length (turtles g) <? List.length (turtles g'))%nat.

(** The effect of [game_over_lose] on the session. *)
Definition lose (g : Game) : Game :=
  set_texts (texts g ++ ["You Lose"%string]) (set_running false g).

(** A call has asked the session to lose. *)
Definition lose_requested (g g' : Game) : Prop :=
  texts g' = texts g ++ ["You Lose"%string] /\ running g' = false.

(** The heading of the turtle that reference [i] designates. *)
Definition heading_at (g : Game) (i : nat) : option R :=
  option_map t_heading (nth_error (turtles g) i).

(** A shot: what the clock read, the turtle made, where the player was. *)
Record Shot : Type := mkShot {
  shot_time : R;
  shot_ball : nat;
  shot_target : Pos
}.

Section ShootingRun.
Context `{TurtleLib}.

(** A run of updates of one shooting enemy among others.  Each input is
    what the clock reads at an update, where the player stands then, and
    the turtles the rest of the game has put on the screen since the
    update before; the result carries the shots of the updates that
    fired. *)
Fixpoint ShootingEnemy_run (inputs : list (R * Pos * list RawTurtle))
    (e : ShootingEnemy) : M (ShootingEnemy * list Shot) :=
  match inputs with
  | [] => ret (e, [])
  | (now, p, others) :: rest =>
      on_player_turtle (fun t => t_goto t p) ;;;
      modify (fun g => set_turtles (turtles g ++ others) g) ;;;
      g <- get_game ;;
      e' <- ShootingEnemy_update now e ;;
      g' <- get_game ;;
      r <- ShootingEnemy_run rest e' ;;
      ret (fst r,
           if fired g g'
           then mkShot now (List.length (turtles g)) p :: snd r
           else snd r)
  end.

End ShootingRun.

(** The projectile an update will advance: the one just fired if a shot
    is due, the one held otherwise. *)
Definition ball_in_flight `{TurtleLib} (now : R) (e : ShootingEnemy)
    (g : Game) : option RawTurtle :=
  if leR 1 (now - last_shot_time e)
  then Some (mkTurtle (se_x e, se_y e)
                      (towards (se_x e, se_y e) (player_x g, player_y g))
                      true)
  else match se_ball e with
       | Some b => nth_error (turtles g) b
       | None => None
       end.

(** The projectiles [owned] of an enemy: the reference it holds is one
    of them, they are turtles of the screen, and only the one it holds
    may be shown. *)
Definition one_live_ball (owned : list nat) (e : ShootingEnemy) (g : Game)
  : Prop :=
  (forall b, se_ball e = Some b -> In b owned)
  /\ (forall i, In i owned -> (i < List.length (turtles g))%nat)
  /\ (forall i, In i owned -> visible_at g i = true -> se_ball e = Some i).

(** Clock readings at least one second apart, pairwise. *)
Definition one_second_apart (log : list R) : Prop :=
  ForallOrdPairs (fun a b => 1 <= b - a) log.

(** The shots whose clock reading falls in the window [t, t + 1). *)
Definition shots_in_window (t : R) (shots : list Shot) : list Shot :=
  filter (fun s => leR t (shot_time s) && ltR (shot_time s) (t + 1)) shots.

(** A shooting enemy as the generator makes it, at [(x, y)]. *)
Definition shooter_at (now x y : R) : ShootingEnemy :=
  se_set_pos x y (ShootingEnemy_new 10 "brown" 10 now).

(** ** CentipedeEnemy: the chain *)

(** The distance between two segments. *)
Definition seg_dist (p q : Pos) : R := hypot (fst p - fst q) (snd p - snd q).

(** Where a segment at [seg] ends up when its predecessor is at [prev]:
    if it is further than [spacing] from it, on the line to it at
    distance [spacing]; otherwise where it is. *)
Definition pull (spacing : R) (prev seg : Pos) : Pos :=
  let d := seg_dist prev seg in
  if ltR spacing d
  then (fst seg + (fst prev - fst seg) / d * (d - spacing),
        snd seg + (snd prev - snd seg) / d * (d - spacing))
  else seg.

(** The segments behind one at [prev], each pulled towards the new place
    of the one before it. *)
Fixpoint follow (spacing : R) (prev : Pos) (segs : list Pos) : list Pos :=
  match segs with
  | [] => []
  | s :: rest => let s' := pull spacing prev s in
                 s' :: follow spacing s' rest
  end.

(** The centipede the generator makes, at [(x, y)]. *)
Definition centipede_at (x y : R) : CentipedeEnemy :=
  CentipedeEnemy_create (ce_set_pos x y (CentipedeEnemy_new 10 "yellow")).

(** Consecutive points of a list are within [d] of each other. *)
Fixpoint chain_within (d : R) (l : list Pos) : Prop :=
  match l with
  | p :: (q :: _) as rest => seg_dist p q <= d /\ chain_within d rest
  | _ => True
  end.

(** ** Collision *)

(** The player is strictly inside the square whose corner of least
    coordinates is [(x, y)] and whose side is [size]. *)
Definition in_corner_box (x y size : R) (p : Pos) : Prop :=
  (x < fst p < x + size) /\ (y < snd p < y + size).

(** The player is strictly inside the square of centre [(x, y)] and side
    [size]. *)
Definition in_centered_box (x y size : R) (p : Pos) : Prop :=
  (x - size / 2 < fst p < x + size / 2)
  /\ (y - size / 2 < snd p < y + size / 2).

(** The outcome of an update for the session: it has asked to lose, or
    left the session as it was. *)
Definition lose_or_same (g g' : Game) : Prop := g' = lose g \/ g' = g.

(** The random walker the generator makes, at [(x, y)]. *)
Definition walker_at (x y : R) (size : Z) : RandomWalkEnemy :=
  rw_set_pos x y (RandomWalkEnemy_new size "blue").

(** ** Terminal state *)

(** What can run on the event loop and change entities: the [update] of
    the element registered at position [i], or a scheduled callback. *)
Inductive Action : Type :=
| ActUpdate (i : nat) (inp : Input)
| ActFire (cb : Callback) (d : Draws).

Definition act `{TurtleLib} (a : Action) : M unit :=
  match a with
  | ActUpdate i inp => update_at inp i
  | ActFire cb d => fire cb d
  end.

(** A result with the session's running flag forgotten: what is left is
    the value or the exception, and the state of the entities, lists and
    canvas. *)
Definition but_flag {A} (r : Result (A * Game)) : Result (A * Game) :=
  match r with
  | Ok (a, g) => Ok (a, set_running true g)
  | Raise e => Raise e
  end.

(** A method that does not look at the running flag: started in the
    stopped session or in the running one, it returns or raises the same
    and leaves the same state, flag apart. *)
Definition blind {A} (m : M A) : Prop :=
  forall b g, but_flag (m (set_running b g)) = but_flag (m g).

(** A method that never sets a stopped session running again. *)
Definition keeps_stopped {A} (m : M A) : Prop :=
  forall g a g', running g = false -> m g = Ok (a, g') -> running g' = false.

(** The effect of [game_over_win] on the session. *)
Definition win (g : Game) : Game :=
  set_texts (texts g ++ ["You Win"%string]) (set_running false g).

(** A session that has been lost, with one random walker registered. *)
Definition lost_game : Game :=
  lose (set_elements [ElEnemy (RandomWalk (walker_at 300 200 20))]
                     (game_with_player 800 500 (50, 250))).

(** A running session in which two random walkers are about to step onto
    the player, who stands at (100, 100). *)
Definition two_walkers_game : Game :=
  set_elements
    [ElEnemy (RandomWalk (mkRandomWalk 99 99 20 "blue" [OpPlus; OpPlus]));
     ElEnemy (RandomWalk (mkRandomWalk 101 101 20 "blue" [OpMinus; OpMinus]))]
    (game_with_player 800 500 (100, 100)).

(** [n] calls of [game_over_lose] in a row. *)
Fixpoint lose_requests (n : nat) : M unit :=
  match n with
  | O => ret tt
  | S n' => game_over_lose ;;; lose_requests n'
  end.

(** A method that leaves the element list and the enemy list alone. *)
Definition keeps_lists {A} (m : M A) : Prop :=
  forall g a g', m g = Ok (a, g') ->
                 elements g' = elements g /\ enemies g' = enemies g.

(** The actions of the event loop, one after the other. *)
Definition acts `{TurtleLib} (l : list Action) : M unit := for_each l act.

(** * Further vocabulary *)

(** ** Runs of updates *)

(** A run of updates of one random walker; each input is the pair of
    operators [random.choice] returns at that update. *)
Fixpoint RandomWalkEnemy_updates (draws : list (Operator * Operator))
    (e : RandomWalkEnemy) : M RandomWalkEnemy :=
  match draws with
  | [] => ret e
  | (ox, oy) :: rest =>
      e' <- RandomWalkEnemy_update ox oy e ;;
      RandomWalkEnemy_updates rest e'
  end.

(** The signed unit an operator stands for. *)
Definition step_of (o : Operator) : R :=
  match o with
  | OpPlus => 1
  | OpMinus => -1
  end.

(** The player is within the bounds a chasing enemy of size [size] is
    kept in. *)
Definition in_chasing_bounds (size : Z) (p : Pos) : Prop :=
  0 <= fst p <= IZR (SCREEN_WIDTH - size)
  /\ 0 <= snd p <= IZR (SCREEN_HEIGHT - size).

(** The closed square of the home. *)
Definition in_home (h : Home) (p : Pos) : Prop :=
  (home_x h - IZR (home_size h) / 2 <= fst p <= home_x h + IZR (home_size h) / 2)
  /\ (home_y h - IZR (home_size h) / 2 <= snd p
      <= home_y h + IZR (home_size h) / 2).

(** A session whose player stands in the middle of the home. *)
Definition at_home_game : Game :=
  set_home (mkHome 700 250 20) (game_with_player 800 500 (700, 250)).

(** ** FencingEnemy: the set of four *)

(** Where the enemy of [spawnOpt = opt] is on the fencing bound after [n]
    updates, as the distance travelled along it from (660, 210). *)
Definition arc_of (opt : Z) (n : nat) : option Z :=
  arc (fe_pos (moves n (patrol_start opt))).

(** The four enemies are a quarter of the loop apart, in the order
    1, 2, 0, 3 of their spawnOpt. *)
Definition quarter_apart (n : nat) : bool :=
  match arc_of 1 n, arc_of 2 n, arc_of 0 n, arc_of 3 n with
  | Some s1, Some s2, Some s0, Some s3 =>
      ((s2 =? (s1 + 60) mod 240) && (s0 =? (s1 + 120) mod 240)
       && (s3 =? (s1 + 180) mod 240))%Z
  | _, _, _, _ => false
  end.

(** A position on none of the four lines the patrol tests for. *)
Definition off_track (e : FencingEnemy) : Prop :=
  (fe_x e <> 660 /\ fe_x e <> 720 /\ fe_y e <> 210 /\ fe_y e <> 270)%Z.

(** ** What the actions keep *)

(** A method whose every return relates the state it was called in to
    the state it leaves by [R]. *)
Definition preserves (R : Game -> Game -> Prop) {A} (m : M A) : Prop :=
  forall g a g', m g = Ok (a, g') -> R g g'.

(** The parts of the session no update and no callback writes: level,
    screen size, home, schedule and the place of the waypoint; the
    waypoint is not activated either. *)
Definition same_frame (g g' : Game) : Prop :=
  level g' = level g
  /\ screen_width g' = screen_width g
  /\ screen_height g' = screen_height g
  /\ home g' = home g
  /\ scheduled g' = scheduled g
  /\ wp_x (waypoint g') = wp_x (waypoint g)
  /\ wp_y (waypoint g') = wp_y (waypoint g)
  /\ (wp_active (waypoint g') = true -> wp_active (waypoint g) = true).

(** The player and the waypoint are as they were. *)
Definition same_player (g g' : Game) : Prop :=
  player g' = player g /\ waypoint g' = waypoint g.

(** The two texts of a terminal state. *)
Definition banner (s : string) : Prop :=
  s = "You Win"%string \/ s = "You Lose"%string.

(** Texts and running flag go together: either both are as they were, or
    terminal texts have been added and the session is stopped. *)
Definition stopped_with_banner (g g' : Game) : Prop :=
  (texts g' = texts g /\ running g' = running g)
  \/ (exists l, l <> [] /\ texts g' = texts g ++ l /\ Forall banner l
                /\ running g' = false).

(** Two elements of the same class. *)
Definition same_class (a b : Element) : bool :=
  match a, b with
  | ElWaypoint, ElWaypoint => true
  | ElHome, ElHome => true
  | ElPlayer, ElPlayer => true
  | ElEnemy (RandomWalk _), ElEnemy (RandomWalk _) => true
  | ElEnemy (Chasing _), ElEnemy (Chasing _) => true
  | ElEnemy (Fencing _), ElEnemy (Fencing _) => true
  | ElEnemy (Centipede _), ElEnemy (Centipede _) => true
  | ElEnemy (Shooting _), ElEnemy (Shooting _) => true
  | _, _ => false
  end.

(** Nothing has been taken out of the two lists: the enemy list has only
    been appended to, and every element is still registered at its
    position, as an object of the class it had. *)
Definition nothing_removed (g g' : Game) : Prop :=
  (exists l, enemies g' = enemies g ++ l)
  /\ (List.length (elements g) <= List.length (elements g'))%nat
  /\ (forall i el, nth_error (elements g) i = Some el ->
        exists el', nth_error (elements g') i = Some el'
                    /\ same_class el el' = true).

(** ** EnemyGenerator: the population *)




(** * Properties *)

(** ** Working with the monad *)

Ltac run_m :=
  unfold bind, ret, lift, get_game, modify, when; cbn [fst snd].

Lemma bind_ok {A B} (m : M A) (k : A -> M B) g a g' :
  m g = Ok (a, g') -> bind m k g = k a g'.
Proof. intros E. unfold bind. now rewrite E. Qed.

Lemma bind_raise {A B} (m : M A) (k : A -> M B) g e :
  m g = Raise e -> bind m k g = Raise e.
Proof. intros E. unfold bind. now rewrite E. Qed.

Lemma ltR_true a b : ltR a b = true <-> a < b.
Proof. unfold ltR. destruct (Rlt_dec a b); split; intros; try easy. Qed.

Lemma ltR_false a b : ltR a b = false <-> b <= a.
Proof.
  unfold ltR. destruct (Rlt_dec a b); split; intros; try easy; try lra.
Qed.

Lemma leR_true a b : leR a b = true <-> a <= b.
Proof. unfold leR. destruct (Rle_dec a b); split; intros; try easy. Qed.

Lemma leR_false a b : leR a b = false <-> b < a.
Proof.
  unfold leR. destruct (Rle_dec a b); split; intros; try easy; try lra.
Qed.

Lemma eqR_true a b : eqR a b = true <-> a = b.
Proof. unfold eqR. destruct (Req_dec_T a b); split; intros; try easy. Qed.

Lemma eqR_false a b : eqR a b = false <-> a <> b.
Proof. unfold eqR. destruct (Req_dec_T a b); split; intros; try easy. Qed.

(** ** The session's terminal transition *)

Lemma game_over_lose_run g :
  game_over_lose g
  = Ok (tt, set_texts (texts g ++ ["You Lose"%string]) (set_running false g)).
Proof. reflexivity. Qed.

Lemma game_over_win_run g :
  game_over_win g
  = Ok (tt, set_texts (texts g ++ ["You Win"%string]) (set_running false g)).
Proof. reflexivity. Qed.

(** A conditional request to lose never raises and leaves the player, the
    element list, the enemy list and the turtles alone. *)
Lemma when_lose_run (c : bool) g :
  exists g', when c game_over_lose g = Ok (tt, g')
    /\ player g' = player g /\ elements g' = elements g
    /\ enemies g' = enemies g /\ turtles g' = turtles g
    /\ g' = (if c
             then set_texts (texts g ++ ["You Lose"%string])
                            (set_running false g)
             else g).
Proof.
  destruct c; eexists; (split; [reflexivity|]); cbn; auto 6.
Qed.

(** ** FencingEnemy: the patrol *)

Lemma FencingEnemy_update_move e g :
  exists g', FencingEnemy_update e g = Ok (FencingEnemy_move e, g')
             /\ player g' = player g.
Proof.
  unfold FencingEnemy_update, corner_box_hit. run_m.
  match goal with |- context [if ?c then _ else _] => destruct c end;
    cbn; eexists; split; reflexivity.
Qed.

Lemma FencingEnemy_updates_moves n : forall e g,
  exists g', FencingEnemy_updates n e g = Ok (moves n e, g').
Proof.
  induction n as [|n IH]; intros e g; cbn.
  - eexists; reflexivity.
  - destruct (FencingEnemy_update_move e g) as (g1 & E & _).
    rewrite (bind_ok _ _ _ _ _ E). apply IH.
Qed.

Lemma moves_add a b e : moves (a + b) e = moves b (moves a e).
Proof. revert e; induction a; intros; cbn; auto. Qed.

Lemma all_below_spec n f :
  all_below n f = true -> forall k, (k < n)%nat -> f k = true.
Proof.
  unfold all_below. rewrite forallb_forall. intros Hall k Hk.
  apply Hall, in_seq. lia.
Qed.

Lemma patrol_period opt n :
  (0 <= opt <= 3)%Z ->
  moves n (patrol_start opt) = moves (n mod 45) (patrol_start opt).
Proof.
  intros Hopt.
  assert (P : moves 45 (patrol_start opt) = patrol_start opt).
  { assert (C : (opt = 0 \/ opt = 1 \/ opt = 2 \/ opt = 3)%Z) by lia.
    destruct C as [-> | [-> | [-> | ->]]]; vm_compute; reflexivity. }
  rewrite (Nat.div_mod_eq n 45) at 1.
  generalize (n / 45)%nat as q. intros q.
  induction q as [|q IH].
  - now rewrite Nat.mul_0_r.
  - replace (45 * S q + n mod 45)%nat with (45 + (45 * q + n mod 45))%nat by lia.
    rewrite moves_add, P. exact IH.
Qed.




(** ** Pursuit: the direction vector *)

Lemma hypot_0_0 : hypot 0 0 = 0.
Proof.
  unfold hypot. replace (0 * 0 + 0 * 0) with 0 by lra. apply sqrt_0.
Qed.

Lemma hypot_nonneg dx dy : 0 <= hypot dx dy.
Proof. apply sqrt_pos. Qed.

Lemma hypot_eq_0 dx dy : hypot dx dy = 0 -> dx = 0 /\ dy = 0.
Proof.
  unfold hypot. intros E.
  apply sqrt_eq_0 in E; [|nra].
  split; nra.
Qed.

Lemma hypot_sqr dx dy : hypot dx dy * hypot dx dy = dx * dx + dy * dy.
Proof. unfold hypot. apply sqrt_sqrt. nra. Qed.

Lemma hypot_x dx : hypot dx 0 = Rabs dx.
Proof.
  unfold hypot. replace (dx * dx + 0 * 0) with (Rsqr dx) by (unfold Rsqr; lra).
  apply sqrt_Rsqr_abs.
Qed.

Lemma fdiv_0 a : fdiv a 0 = Raise ZeroDivisionError.
Proof. unfold fdiv. now rewrite (proj2 (eqR_true 0 0) eq_refl). Qed.

Lemma fdiv_ok a b : b <> 0 -> fdiv a b = Ok (a / b).
Proof. intros Hb. unfold fdiv. now rewrite (proj2 (eqR_false b 0) Hb). Qed.

Lemma ChasingEnemy_update_coincident e g :
  ch_pos e = player_pos g ->
  ChasingEnemy_update e g = Raise ZeroDivisionError.
Proof.
  unfold ch_pos, player_pos. intros E. injection E as Ex Ey.
  unfold ChasingEnemy_update. run_m.
  rewrite Ex, Ey, !Rminus_diag, hypot_0_0, fdiv_0. reflexivity.
Qed.

Lemma CentipedeEnemy_update_coincident e g :
  ce_pos e = player_pos g ->
  CentipedeEnemy_update e g = Raise ZeroDivisionError.
Proof.
  unfold ce_pos, player_pos. intros E. injection E as Ex Ey.
  unfold CentipedeEnemy_update. run_m.
  rewrite Ex, Ey, !Rminus_diag, hypot_0_0, fdiv_0. reflexivity.
Qed.

(** C3: the code does not do what the claim says.  When the enemy stands
    exactly where the player is, the direction vector has length 0 and
    [update], of ChasingEnemy and of CentipedeEnemy alike, divides by it:
    the call ends in a ZeroDivisionError instead of skipping the move. *)
Theorem pursuit_on_player_raises :
  (forall e g, ch_pos e = player_pos g ->
               ChasingEnemy_update e g = Raise ZeroDivisionError)
  /\ (forall e g, ce_pos e = player_pos g ->
                  CentipedeEnemy_update e g = Raise ZeroDivisionError).
Proof.
  split.
  - exact ChasingEnemy_update_coincident.
  - exact CentipedeEnemy_update_coincident.
Qed.

Lemma pursuit_on_player_raises_witness :
  ChasingEnemy_update (mkChasing 100 100 20 "green" 2)
                      (game_with_player 800 500 (100, 100))
  = Raise ZeroDivisionError
  /\ CentipedeEnemy_update
       (CentipedeEnemy_create (mkCentipede 100 100 10 "yellow" 4 [] 10 10))
       (game_with_player 800 500 (100, 100))
     = Raise ZeroDivisionError.
Proof.
  split.
  - apply (proj1 pursuit_on_player_raises). reflexivity.
  - apply (proj2 pursuit_on_player_raises). reflexivity.
Defined.

(** ** ChasingEnemy: the out-of-bound check *)

Lemma check_bound_range v limit size :
  (size <= limit)%Z ->
  0 <= check_bound v limit size <= IZR (limit - size).
Proof.
  intros Hs. assert (0 <= IZR (limit - size)) by (apply IZR_le; lia).
  unfold check_bound.
  destruct (ltR v 0) eqn:E1; [lra|].
  destruct (ltR (IZR (limit - size)) v) eqn:E2; [lra|].
  apply ltR_false in E1, E2. lra.
Qed.

Lemma ChasingEnemy_update_ok e g :
  ch_pos e <> player_pos g ->
  let dx := player_x g - ch_x e in
  let dy := player_y g - ch_y e in
  let dist := hypot dx dy in
  let x := ch_x e + dx / dist * IZR (ch_speed e) in
  let y := ch_y e + dy / dist * IZR (ch_speed e) in
  let e' := ch_set_pos (check_bound x SCREEN_WIDTH (ch_size e))
                       (check_bound y SCREEN_HEIGHT (ch_size e)) e in
  exists g', ChasingEnemy_update e g = Ok (e', g')
             /\ player g' = player g /\ elements g' = elements g
             /\ enemies g' = enemies g.
Proof.
  intros Hne. cbv zeta.
  assert (Hd : hypot (player_x g - ch_x e) (player_y g - ch_y e) <> 0).
  { intros E. apply hypot_eq_0 in E. destruct E as [E1 E2].
    apply Hne. unfold ch_pos, player_pos. f_equal; lra. }
  unfold ChasingEnemy_update, corner_box_hit. run_m.
  rewrite !(fdiv_ok _ _ Hd). cbn.
  match goal with |- context [if ?c then _ else _] => destruct c end;
    cbn; eexists; (split; [reflexivity|]); cbn; auto.
Qed.

(** C5, as stated, fails: the bound is the module constant, not the
    session's screen size.  In a session of 400 x 300 whose player stands
    at its start (50, 150), a chasing enemy spawned at (600, 150) is at
    x = 598 after its update, beyond 400 - 20. *)
Lemma chasing_session_bound_counterexample :
  let g := game_with_player 400 300 (50, 150) in
  let e := mkChasing 600 150 20 "green" 2 in
  exists e' g',
    ChasingEnemy_update e g = Ok (e', g')
    /\ ch_x e' = 598
    /\ ~ (ch_x e' <= IZR (screen_width g - ch_size e')).
Proof.
  cbv zeta.
  destruct (ChasingEnemy_update_ok (mkChasing 600 150 20 "green" 2)
                                   (game_with_player 400 300 (50, 150)))
    as (g' & E & _).
  { unfold ch_pos, player_pos. cbn. intros C. injection C as C. lra. }
  eexists; exists g'. split; [exact E|].
  assert (X : ch_x (ch_set_pos
                (check_bound (600 + (50 - 600) / hypot (50 - 600) (150 - 150) * 2)
                             SCREEN_WIDTH 20)
                (check_bound (150 + (150 - 150) / hypot (50 - 600) (150 - 150) * 2)
                             SCREEN_HEIGHT 20)
                (mkChasing 600 150 20 "green" 2)) = 598).
  { cbn [ch_x ch_set_pos].
    replace (150 - 150) with 0 by lra. rewrite hypot_x.
    replace (50 - 600) with (-550) by lra.
    replace (Rabs (-550)) with 550 by (rewrite Rabs_left; lra).
    replace (600 + -550 / 550 * 2) with 598 by lra.
    unfold check_bound, SCREEN_WIDTH.
    rewrite (proj2 (ltR_false 598 0)) by lra.
    rewrite (proj2 (ltR_false (IZR (800 - 20)) 598)); [reflexivity|].
    replace (800 - 20)%Z with 780%Z by reflexivity. lra. }
  split; [exact X|].
  cbn [player_x player_y game_with_player set_player new_game player pl_turtle
       t_goto t_pos fst snd ch_x ch_y ch_speed ch_size ch_set_pos
       screen_width] in *.
  rewrite X. replace (400 - 20)%Z with 380%Z by reflexivity. lra.
Qed.

(** C5, amended: a chasing enemy that is not exactly at the player's
    position, of a size that fits the screen constants, is after
    [update] within [0, SCREEN_WIDTH - size] x [0, SCREEN_HEIGHT - size],
    that is [0, 800 - size] x [0, 500 - size], whatever the screen size of
    the session. *)
Theorem chasing_stays_in_module_bounds (e : ChasingEnemy) (g : Game) :
  ch_pos e <> player_pos g ->
  (ch_size e <= SCREEN_HEIGHT)%Z ->
  exists e' g',
    ChasingEnemy_update e g = Ok (e', g')
    /\ ch_size e' = ch_size e
    /\ 0 <= ch_x e' <= IZR (SCREEN_WIDTH - ch_size e')
    /\ 0 <= ch_y e' <= IZR (SCREEN_HEIGHT - ch_size e').
Proof.
  intros Hne Hsize.
  destruct (ChasingEnemy_update_ok e g Hne) as (g' & E & _).
  eexists; exists g'. split; [exact E|].
  cbn [ch_size ch_x ch_y ch_set_pos].
  split; [reflexivity|].
  split; apply check_bound_range; unfold SCREEN_WIDTH, SCREEN_HEIGHT in *; lia.
Qed.

Lemma chasing_stays_in_module_bounds_witness :
  exists e' g',
    ChasingEnemy_update (mkChasing 600 150 20 "green" 2)
                        (game_with_player 400 300 (50, 150)) = Ok (e', g')
    /\ ch_size e' = 20%Z
    /\ 0 <= ch_x e' <= IZR (SCREEN_WIDTH - ch_size e')
    /\ 0 <= ch_y e' <= IZR (SCREEN_HEIGHT - ch_size e').
Proof.
  apply (chasing_stays_in_module_bounds (mkChasing 600 150 20 "green" 2)
           (game_with_player 400 300 (50, 150))).
  - unfold ch_pos, player_pos. cbn. intros C. injection C as C. lra.
  - vm_compute. discriminate.
Defined.

(** ** Registration *)

Lemma add_element_enemy_run e g :
  add_element (ElEnemy e) g
  = Ok (tt, set_elements (elements g ++ [ElEnemy (Enemy_create e)]) g).
Proof. reflexivity. Qed.

Lemma add_enemy_run e g :
  add_enemy e g
  = Ok (tt, set_elements (elements g ++ [ElEnemy (Enemy_create e)])
              (set_enemies (enemies g ++ [List.length (elements g)]) g)).
Proof. reflexivity. Qed.

Lemma after_run d cb g :
  after d cb g = Ok (tt, set_scheduled (scheduled g ++ [(d, cb)]) g).
Proof. reflexivity. Qed.

Lemma for_each_after {A} (l : list A) (f : A -> Z) cb : forall g,
  for_each l (fun i => after (f i) cb) g
  = Ok (tt, set_scheduled (scheduled g ++ map (fun i => (f i, cb)) l) g).
Proof.
  induction l as [|a l IH]; intros g; cbn [for_each map].
  - unfold ret. rewrite app_nil_r. destruct g; reflexivity.
  - erewrite bind_ok by apply after_run.
    rewrite IH. cbn. now rewrite <- app_assoc.
Qed.

Lemma EnemyGenerator_init_run g :
  EnemyGenerator_init g
  = Ok (tt, set_scheduled (scheduled g ++ spawn_plan) g).
Proof.
  unfold EnemyGenerator_init.
  do 3 (erewrite bind_ok by apply after_run).
  erewrite bind_ok by apply (for_each_after _ (fun _ => 100%Z)).
  erewrite bind_ok by apply (for_each_after _ (fun i => i)).
  rewrite (for_each_after _ (fun i => i)).
  cbn [scheduled set_scheduled]. rewrite <- !app_assoc.
  unfold set_scheduled; cbn [level screen_width screen_height waypoint player
    home elements enemies turtles texts running].
  reflexivity.
Qed.

Lemma Enemy_create_made_by cb e :
  made_by cb (Enemy_create e) = made_by cb e.
Proof. destruct cb, e; reflexivity. Qed.

(** What running a factory does to the session: it never raises, appends
    [batch cb] enemies of its class to the element list, touches nothing
    but the two lists; every factory but the random-walk one appends the
    references to the new elements to the enemy list. *)
Lemma fire_run cb d g :
  exists new g',
    fire cb d g = Ok (tt, g')
    /\ elements g' = elements g ++ map ElEnemy new
    /\ List.length new = batch cb
    /\ Forall (fun e => made_by cb e = true) new
    /\ enemies g'
       = (match cb with
          | Cb_create_randomWalkenemy => enemies g
          | _ => enemies g ++ seq (List.length (elements g)) (batch cb)
          end)
    /\ g' = set_elements (elements g') (set_enemies (enemies g') g).
Proof.
  destruct cb; cbn [fire batch].
  - (* fencing *)
    exists (map (fun o => Fencing (patrol_start o)) [0; 1; 2; 3]%Z).
    eexists. split; [reflexivity|].
    cbn [elements enemies set_elements set_enemies map].
    rewrite !length_app. cbn [List.length seq].
    rewrite <- !app_assoc, <- !Nat.add_assoc. cbn [app Nat.add].
    rewrite Nat.add_1_r.
    repeat split; try reflexivity.
    + repeat constructor.
    + f_equal. repeat (f_equal; try lia).
  - unfold create_centipede. rewrite add_enemy_run.
    eexists [_]; eexists. split; [reflexivity|].
    cbn [elements enemies set_elements set_enemies map List.length seq].
    repeat split; try reflexivity. repeat constructor.
  - unfold create_randomWalkenemy. rewrite add_element_enemy_run.
    eexists [_]; eexists. split; [reflexivity|].
    cbn [elements enemies set_elements set_enemies map List.length seq].
    repeat split; try reflexivity. repeat constructor.
  - unfold create_ShootingEnemy. rewrite add_enemy_run.
    eexists [_]; eexists. split; [reflexivity|].
    cbn [elements enemies set_elements set_enemies map List.length seq].
    repeat split; try reflexivity. repeat constructor.
  - unfold create_chasing. rewrite add_enemy_run.
    eexists [_]; eexists. split; [reflexivity|].
    cbn [elements enemies set_elements set_enemies map List.length seq].
    repeat split; try reflexivity. repeat constructor.
Qed.

Lemma enemies_sound_no_randomwalk g :
  enemies_sound g -> enemies_hold_randomwalk g = false.
Proof.
  unfold enemies_sound, enemies_hold_randomwalk.
  induction 1 as [|i l [_ Hi] _ IH]; cbn; [reflexivity|].
  now rewrite Hi, IH.
Qed.

Lemma refers_to_randomwalk_app g i l g' :
  elements g' = elements g ++ l ->
  (i < List.length (elements g))%nat ->
  refers_to_randomwalk g' i = refers_to_randomwalk g i.
Proof.
  intros E Hi. unfold refers_to_randomwalk. now rewrite E, nth_error_app1.
Qed.

Lemma fire_enemies_sound cb d g g' :
  fire cb d g = Ok (tt, g') -> enemies_sound g -> enemies_sound g'.
Proof.
  intros E Hg.
  destruct (fire_run cb d g) as (new & g1 & E1 & Hel & Hlen & Hkind & Hen & _).
  rewrite E1 in E. injection E as <-.
  assert (Old : Forall (fun i => (i < List.length (elements g1))%nat
                        /\ refers_to_randomwalk g1 i = false) (enemies g)).
  { unfold enemies_sound in Hg. rewrite Forall_forall in *. intros i Hi.
    destruct (Hg i Hi) as [Hlt Hrw]. split.
    - rewrite Hel, length_app. lia.
    - now rewrite (refers_to_randomwalk_app g i _ g1 Hel Hlt). }
  unfold enemies_sound. rewrite Hen.
  destruct cb; try exact Old; apply Forall_app; (split; [exact Old|]);
    rewrite Forall_forall; intros i Hi; apply in_seq in Hi;
    (split; [rewrite Hel, length_app, length_map; lia|]);
    unfold refers_to_randomwalk; rewrite Hel, nth_error_app2 by lia;
    (destruct (nth_error (map ElEnemy new) (i - List.length (elements g)))
       as [el|] eqn:N; [|reflexivity]);
    apply nth_error_In, in_map_iff in N; destruct N as (e & <- & He);
    rewrite Forall_forall in Hkind; specialize (Hkind e He);
    destruct e; cbn in *; congruence.
Qed.

Lemma fire_all_enemies_sound l : forall g,
  enemies_sound g ->
  exists g', fire_all l g = Ok (tt, g') /\ enemies_sound g'.
Proof.
  unfold fire_all.
  induction l as [|[cb d] l IH]; intros g Hg; cbn [for_each fst snd].
  - exists g. split; [reflexivity|exact Hg].
  - destruct (fire_run cb d g) as (new & g1 & E1 & _).
    rewrite (bind_ok _ _ _ _ _ E1).
    apply IH. exact (fire_enemies_sound cb d g g1 E1 Hg).
Qed.

Lemma setworldcoordinates_run llx lly urx ury g :
  (urx - llx <> 0)%Z -> (ury - lly <> 0)%Z ->
  setworldcoordinates llx lly urx ury g = Ok (tt, g).
Proof.
  intros Hx Hy. unfold setworldcoordinates.
  apply Z.eqb_neq in Hx, Hy. rewrite Hx, Hy. reflexivity.
Qed.

Lemma setworldcoordinates_raise llx lly urx ury g :
  (urx - llx = 0 \/ ury - lly = 0)%Z ->
  setworldcoordinates llx lly urx ury g = Raise ZeroDivisionError.
Proof.
  intros H. unfold setworldcoordinates.
  replace ((urx - llx =? 0) || (ury - lly =? 0))%Z with true; [reflexivity|].
  symmetry. apply orb_true_iff. destruct H as [H|H]; [left|right];
    now apply Z.eqb_eq.
Qed.

Lemma init_game_run g :
  screen_width g <> 1%Z -> screen_height g <> 1%Z ->
  exists g0,
    init_game g = Ok (tt, g0)
    /\ elements g0 = elements g ++ [ElWaypoint; ElHome; ElPlayer]
    /\ enemies g0 = enemies g
    /\ scheduled g0 = scheduled g ++ spawn_plan
    /\ player_pos g0 = (50, IZR (screen_height g / 2))
    /\ running g0 = running g
    /\ screen_width g0 = screen_width g
    /\ screen_height g0 = screen_height g.
Proof.
  intros Hw Hh.
  unfold init_game, add_element, on_player_turtle. run_m.
  rewrite setworldcoordinates_run by lia.
  rewrite EnemyGenerator_init_run.
  eexists. split; [reflexivity|].
  cbn [elements enemies scheduled running set_scheduled set_player
       set_elements set_home set_waypoint screen_width screen_height].
  rewrite <- !app_assoc. repeat split; reflexivity.
Qed.

Lemma init_game_raise g :
  (screen_width g = 1 \/ screen_height g = 1)%Z ->
  init_game g = Raise ZeroDivisionError.
Proof.
  intros H. unfold init_game. run_m.
  rewrite setworldcoordinates_raise by lia. reflexivity.
Qed.

Lemma fire_screen cb d g g' :
  fire cb d g = Ok (tt, g') ->
  screen_width g' = screen_width g /\ screen_height g' = screen_height g.
Proof.
  intros E.
  destruct (fire_run cb d g) as (new & g1 & E1 & _ & _ & _ & _ & Hg).
  rewrite E1 in E. injection E as <-. rewrite Hg. split; reflexivity.
Qed.

(** ** EnemyGenerator: the spawn plan *)

Lemma fire_single cb d g :
  cb <> Cb_create_fencing ->
  exists e g',
    fire cb d g = Ok (tt, g')
    /\ elements g' = elements g ++ [ElEnemy e]
    /\ made_by cb e = true
    /\ Enemy_pos e = (IZR (d_x d), IZR (d_y d)).
Proof.
  intros Hcb. destruct cb; [now elim Hcb| | | |]; cbn [fire].
  - unfold create_centipede. rewrite add_enemy_run.
    eexists; eexists. split; [reflexivity|]. repeat split; reflexivity.
  - unfold create_randomWalkenemy. rewrite add_element_enemy_run.
    eexists; eexists. split; [reflexivity|]. repeat split; reflexivity.
  - unfold create_ShootingEnemy. rewrite add_enemy_run.
    eexists; eexists. split; [reflexivity|]. repeat split; reflexivity.
  - unfold create_chasing. rewrite add_enemy_run.
    eexists; eexists. split; [reflexivity|]. repeat split; reflexivity.
Qed.

Lemma spawn_plan_delays :
  Forall (fun tc => (100 <= fst tc <= 99000)%Z
                    /\ (snd tc = Cb_create_chasing -> (fst tc <= 9000)%Z))
         spawn_plan.
Proof.
  apply Forall_forall. intros [t cb] Hin. unfold spawn_plan in Hin.
  cbn [fst snd].
  repeat (apply in_app_or in Hin; destruct Hin as [Hin|Hin]).
  - cbn in Hin.
    destruct Hin as [E|[E|[E|[]]]]; injection E as <- <-;
      (split; [lia|discriminate]).
  - apply repeat_spec in Hin. injection Hin as -> ->.
    split; [lia|discriminate].
  - apply in_map_iff in Hin. destruct Hin as (k & E & Hk).
    pose proof (f_equal fst E) as Et. pose proof (f_equal snd E) as Ec.
    cbn [fst snd] in Et, Ec. subst t cb. apply in_seq in Hk.
    split; [lia|discriminate].
  - apply in_map_iff in Hin. destruct Hin as (k & E & Hk).
    pose proof (f_equal fst E) as Et. pose proof (f_equal snd E) as Ec.
    cbn [fst snd] in Et, Ec. subst t cb. apply in_seq in Hk.
    split; lia.
Qed.

(** C8: [EnemyGenerator.__init__] schedules exactly [spawn_plan]: at
    100 ms the fencing set, one centipede, one random walker and five
    shooters; a random walker at 1000, 2000, ..., 99000 ms and a chaser
    at 1000, ..., 9000 ms: the last walker is due at 99000 ms and the
    last chaser at 9000 ms, none at 100000 ms or 10000 ms.  The fencing
    factory registers four enemies with spawnOpt 0, 1, 2, 3 at the
    corners (720,270), (660,210), (720,210), (660,270); every other
    factory registers one enemy of its class at the position drawn,
    anywhere in [0, 600] x [0, 500] whatever the size of the session:
    the position lies in the visible area of the session exactly when
    it is below its width and its height, which holds for every draw in
    the sessions wider than 600 and higher than 500. *)
Theorem generator_spawn_plan :
  (forall g, EnemyGenerator_init g
             = Ok (tt, set_scheduled (scheduled g ++ spawn_plan) g))
  /\ (Forall (fun tc => (100 <= fst tc <= 99000)%Z
                        /\ (snd tc = Cb_create_chasing -> (fst tc <= 9000)%Z))
             spawn_plan
      /\ In (99000%Z, Cb_create_randomWalkenemy) spawn_plan
      /\ In (9000%Z, Cb_create_chasing) spawn_plan)
  /\ (forall g, exists g',
        create_fencing g = Ok (tt, g')
        /\ elements g'
           = elements g
             ++ map (fun o => ElEnemy (Fencing (patrol_start o))) [0; 1; 2; 3]%Z)
  /\ map (fun o => (spawnOpt (patrol_start o), fe_pos (patrol_start o)))
         [0; 1; 2; 3]%Z
     = [(Some 0, (720, 270)); (Some 1, (660, 210));
        (Some 2, (720, 210)); (Some 3, (660, 270))]%Z
  /\ (forall cb d g, cb <> Cb_create_fencing -> draws_in_range d ->
        exists e g',
          fire cb d g = Ok (tt, g')
          /\ elements g' = elements g ++ [ElEnemy e]
          /\ made_by cb e = true
          /\ Enemy_pos e = (IZR (d_x d), IZR (d_y d))
          /\ in_spawn_area (Enemy_pos e)
          /\ (in_visible_area g' (Enemy_pos e)
              <-> (d_x d < screen_width g /\ d_y d < screen_height g)%Z)
          /\ ((600 < screen_width g)%Z -> (500 < screen_height g)%Z ->
              in_visible_area g' (Enemy_pos e))).
Proof.
  split; [exact EnemyGenerator_init_run|].
  split; [split; [exact spawn_plan_delays|]|].
  { unfold spawn_plan. split; apply in_or_app; right; apply in_or_app; right;
      apply in_or_app; [left|right]; apply in_map_iff.
    - exists 99%nat. split; [reflexivity|]. apply in_seq. lia.
    - exists 9%nat. split; [reflexivity|]. apply in_seq. lia. }
  split; [|split; [reflexivity|]].
  - intros g. eexists. split; [reflexivity|].
    cbn [elements set_elements set_enemies map].
    rewrite <- !app_assoc. reflexivity.
  - intros cb d g Hcb (Hx & Hy & _).
    destruct (fire_single cb d g Hcb) as (e & g' & E & Hel & Hk & Hp).
    destruct (fire_screen cb d g g' E) as [Sw Sh].
    assert (V : in_visible_area g' (Enemy_pos e)
                <-> (d_x d < screen_width g /\ d_y d < screen_height g)%Z).
    { unfold in_visible_area. rewrite Hp, Sw, Sh. cbn [fst snd]. split.
      - intros [[_ A] [_ B]]. apply le_IZR in A, B. lia.
      - intros [A B]. repeat split;
          first [apply (IZR_le 0) | apply IZR_le]; lia. }
    exists e, g'. split; [exact E|]. split; [exact Hel|].
    split; [exact Hk|]. split; [exact Hp|]. split; [|split; [exact V|]].
    + unfold in_spawn_area. rewrite Hp. cbn [fst snd].
      repeat split; first [apply (IZR_le 0) | apply IZR_le]; lia.
    + intros A B. apply V. lia.
Qed.

Lemma generator_spawn_plan_witness :
  exists e g',
    fire Cb_create_centipede (mkDraws 600 500 2 0) (new_game 800 600 1)
    = Ok (tt, g')
    /\ elements g' = elements (new_game 800 600 1) ++ [ElEnemy e]
    /\ made_by Cb_create_centipede e = true
    /\ Enemy_pos e = (600, 500)
    /\ in_spawn_area (Enemy_pos e)
    /\ in_visible_area g' (Enemy_pos e).
Proof.
  destruct (proj2 (proj2 (proj2 (proj2 generator_spawn_plan)))
              Cb_create_centipede (mkDraws 600 500 2 0) (new_game 800 600 1))
    as (e & g' & E & Hel & Hk & Hp & Hs & _ & V).
  - discriminate.
  - unfold draws_in_range. cbn. lia.
  - exists e, g'. split; [exact E|]. split; [exact Hel|].
    split; [exact Hk|]. split; [exact Hp|]. split; [exact Hs|].
    apply V; cbn; lia.
Defined.

(** C8, the visible area: the factories draw from [0, 600] x [0, 500]
    whatever the size of the session.  In a session of 400 x 300, as
    [init_game] sets it up, [create_chasing] with the draws x = 600 and
    y = 500 registers its enemy at (600, 500), outside the visible
    area. *)
Lemma spawn_outside_session_counterexample :
  exists g0 e g',
    init_game (new_game 400 300 1) = Ok (tt, g0)
    /\ draws_in_range (mkDraws 600 500 2 0)
    /\ fire Cb_create_chasing (mkDraws 600 500 2 0) g0 = Ok (tt, g')
    /\ elements g' = elements g0 ++ [ElEnemy e]
    /\ Enemy_pos e = (600, 500)
    /\ screen_width g' = 400%Z /\ screen_height g' = 300%Z
    /\ ~ in_visible_area g' (Enemy_pos e).
Proof.
  destruct (init_game_run (new_game 400 300 1))
    as (g0 & E0 & _ & _ & _ & _ & _ & Sw0 & Sh0); [discriminate..|].
  cbn [new_game screen_width screen_height] in Sw0, Sh0.
  destruct (fire_single Cb_create_chasing (mkDraws 600 500 2 0) g0)
    as (e & g' & E & Hel & _ & Hp); [discriminate|].
  destruct (fire_screen _ _ _ _ E) as [Sw Sh].
  cbn [d_x d_y] in Hp.
  exists g0, e, g'. split; [exact E0|].
  split; [unfold draws_in_range; cbn; lia|].
  split; [exact E|]. split; [exact Hel|]. split; [exact Hp|].
  split; [congruence|]. split; [congruence|].
  unfold in_visible_area. rewrite Hp, Sw, Sw0. cbn [fst snd].
  intros [[_ A] _]. apply le_IZR in A. lia.
Qed.

(** ** Lists changed in place *)

Lemma set_nth_length {A} (a : A) l : forall i,
  List.length (set_nth i a l) = List.length l.
Proof. induction l; intros [|i]; cbn; auto. Qed.

Lemma nth_error_set_nth_same {A} (a : A) l : forall i,
  (i < List.length l)%nat -> nth_error (set_nth i a l) i = Some a.
Proof.
  induction l; intros [|i] Hi; cbn in *; try lia; auto. apply IHl. lia.
Qed.

Lemma nth_error_set_nth_other {A} (a : A) l : forall i j,
  i <> j -> nth_error (set_nth i a l) j = nth_error l j.
Proof.
  induction l; intros [|i] [|j] Hij; cbn; auto; try congruence.
Qed.

Lemma set_nth_app_last {A} (a b : A) l :
  set_nth (List.length l) a (l ++ [b]) = l ++ [a].
Proof. induction l; cbn; congruence. Qed.

Lemma nth_error_app_last {A} (a : A) l :
  nth_error (l ++ [a]) (List.length l) = Some a.
Proof. induction l; cbn; auto. Qed.

(** ** ShootingEnemy *)

Lemma lose_requested_irrefl g : ~ lose_requested g g.
Proof.
  intros [E _]. apply (f_equal (@List.length _)) in E.
  rewrite length_app in E. cbn in E. lia.
Qed.

Lemma lose_requested_lose g : lose_requested g (lose g).
Proof. split; reflexivity. Qed.

Lemma visible_at_lt g i : visible_at g i = true ->
  (i < List.length (turtles g))%nat.
Proof.
  unfold visible_at. destruct (nth_error (turtles g) i) eqn:E; [|discriminate].
  intros _. apply nth_error_Some. congruence.
Qed.

Lemma option_eq_dec_nat (a b : option nat) : {a = b} + {a <> b}.
Proof. decide equality. apply Nat.eq_dec. Qed.

Lemma player_x_set_turtles l g : player_x (set_turtles l g) = player_x g.
Proof. reflexivity. Qed.

Lemma player_y_set_turtles l g : player_y (set_turtles l g) = player_y g.
Proof. reflexivity. Qed.

Ltac idle_ball :=
  split; [reflexivity|]; split; [reflexivity|];
  split; [auto|]; split; [auto|]; split; [auto|];
  split;
  [split;
   [intros L; now apply lose_requested_irrefl in L
   |intros (b' & t' & E1 & E2 & E3 & _); congruence]|];
  split; [intros L; now apply lose_requested_irrefl in L|];
  left; match goal with |- ?g = _ => now destruct g end.

Section Shooting.
Context `{TurtleLib}.

(** What [__shoot_ball] does: the ball held so far is hidden, a new one
    is made at the enemy's position, heading towards the player. *)
Lemma shoot_ball_run e g :
  (forall b, se_ball e = Some b -> (b < List.length (turtles g))%nat) ->
  exists g',
    shoot_ball e g = Ok (se_set_ball (Some (List.length (turtles g))) e, g')
    /\ List.length (turtles g') = S (List.length (turtles g))
    /\ nth_error (turtles g') (List.length (turtles g))
       = Some (mkTurtle (se_x e, se_y e)
                        (towards (se_x e, se_y e) (player_pos g)) true)
    /\ (forall old, se_ball e = Some old -> visible_at g' old = false)
    /\ (forall i, (i < List.length (turtles g))%nat -> se_ball e <> Some i ->
                  nth_error (turtles g') i = nth_error (turtles g) i)
    /\ (forall i, (i < List.length (turtles g))%nat ->
                  heading_at g' i = heading_at g i)
    /\ g' = set_turtles (turtles g') g.
Proof.
  intros Hok. unfold shoot_ball, RawTurtle_new, on_turtle. run_m.
  destruct (se_ball e) as [old|] eqn:Eb.
  - pose proof (Hok old eq_refl) as Hlt.
    destruct (nth_error (turtles g) old) as [t|] eqn:Et;
      [|apply nth_error_None in Et; lia].
    cbn [turtles set_turtles se_ball se_set_ball se_x se_y].
    rewrite !set_nth_length.
    set (L := set_nth old (t_hideturtle t) (turtles g)).
    assert (HL : List.length (turtles g) = List.length L)
      by (unfold L; now rewrite set_nth_length).
    rewrite HL, !nth_error_app_last, !set_nth_app_last.
    cbn [turtles set_turtles t_pos t_goto]. rewrite !nth_error_app_last.
    rewrite set_nth_app_last.
    eexists. split; [reflexivity|]. cbn [turtles set_turtles].
    rewrite length_app. cbn [List.length].
    split; [lia|]. split; [apply nth_error_app_last|].
    split.
    { intros o [= <-]. unfold visible_at. cbn [turtles set_turtles].
      rewrite nth_error_app1 by lia.
      unfold L. now rewrite nth_error_set_nth_same by lia. }
    split.
    { intros i Hi Hne. rewrite nth_error_app1 by lia.
      apply nth_error_set_nth_other. congruence. }
    split; [|reflexivity].
    intros i Hi. unfold heading_at. cbn [turtles set_turtles].
    rewrite nth_error_app1 by lia. unfold L.
    destruct (Nat.eq_dec old i) as [<-|Hne].
    + rewrite nth_error_set_nth_same by lia. now rewrite Et.
    + now rewrite nth_error_set_nth_other by exact Hne.
  - cbn [turtles set_turtles se_ball se_set_ball se_x se_y].
    rewrite nth_error_app_last, set_nth_app_last. cbn [turtles set_turtles].
    rewrite nth_error_app_last, set_nth_app_last.
    eexists. split; [reflexivity|]. cbn [turtles set_turtles].
    rewrite length_app. cbn [List.length].
    split; [lia|]. split; [apply nth_error_app_last|].
    split; [discriminate|].
    split; [intros i Hi _; now rewrite nth_error_app1 by lia|].
    split; [|reflexivity].
    intros i Hi. unfold heading_at. cbn [turtles set_turtles].
    now rewrite nth_error_app1 by lia.
Qed.

(** What the block "Move the existing ball" does: nothing unless the enemy
    holds a shown ball; that ball advances; if it is then nearer to the
    player than the enemy's size, the session is asked to lose and the
    ball is hidden. *)
Lemma move_ball_run e g :
  exists g',
    move_ball e g = Ok (tt, g')
    /\ List.length (turtles g') = List.length (turtles g)
    /\ (forall i, se_ball e <> Some i ->
                  nth_error (turtles g') i = nth_error (turtles g) i)
    /\ (forall i, visible_at g' i = true -> visible_at g i = true)
    /\ (forall i, heading_at g' i = heading_at g i)
    /\ (lose_requested g g' <->
        exists b t, se_ball e = Some b
                    /\ nth_error (turtles g) b = Some t
                    /\ t_visible t = true
                    /\ t_distance (t_forward t (IZR (ball_speed e)))
                                  (player_pos g) < IZR (se_size e))
    /\ (lose_requested g g' ->
        forall b, se_ball e = Some b -> visible_at g' b = false)
    /\ (g' = set_turtles (turtles g') g
        \/ g' = set_turtles (turtles g') (lose g)).
Proof.
  unfold move_ball.
  destruct (se_ball e) as [b|] eqn:Eb.
  2:{ exists g. idle_ball. }
  run_m.
  destruct (nth_error (turtles g) b) as [t|] eqn:Et.
  2:{ exists g. idle_ball. }
  assert (Hb : (b < List.length (turtles g))%nat)
    by (apply nth_error_Some; congruence).
  destruct (t_visible t) eqn:Ev.
  2:{ exists g. idle_ball. }
  unfold on_turtle, game_over_lose, stop, create_text. run_m.
  rewrite Et. cbn [turtles set_turtles].
  rewrite nth_error_set_nth_same by exact Hb.
  rewrite player_x_set_turtles, player_y_set_turtles.
  destruct (ltR (t_distance (t_forward t (IZR (ball_speed e)))
                            (player_x g, player_y g)) (IZR (se_size e)))
    eqn:Ed.
  - cbn [turtles set_turtles set_texts set_running texts].
    rewrite nth_error_set_nth_same by exact Hb.
    eexists. split; [reflexivity|]. cbn [turtles set_turtles set_texts set_running].
    rewrite !set_nth_length. split; [reflexivity|].
    split.
    { intros i Hi. rewrite !nth_error_set_nth_other by congruence.
      reflexivity. }
    split.
    { intros i. unfold visible_at. cbn [turtles set_turtles set_texts set_running].
      destruct (Nat.eq_dec b i) as [<-|Hne].
      - rewrite nth_error_set_nth_same by (rewrite set_nth_length; exact Hb).
        discriminate.
      - now rewrite !nth_error_set_nth_other by exact Hne. }
    split.
    { intros i. unfold heading_at. cbn [turtles set_turtles set_texts set_running].
      destruct (Nat.eq_dec b i) as [<-|Hne].
      - rewrite nth_error_set_nth_same by (rewrite set_nth_length; exact Hb).
        now rewrite Et.
      - now rewrite !nth_error_set_nth_other by exact Hne. }
    split.
    { split.
      - intros _. exists b, t. repeat split; auto.
        now apply ltR_true in Ed.
      - intros _. split; reflexivity. }
    split.
    { intros _ b' [= <-]. unfold visible_at. cbn [turtles set_turtles set_texts set_running].
      now rewrite nth_error_set_nth_same by (rewrite set_nth_length; exact Hb). }
    right. reflexivity.
  - eexists. split; [reflexivity|]. cbn [turtles set_turtles set_texts set_running].
    rewrite !set_nth_length. split; [reflexivity|].
    split.
    { intros i Hi. now rewrite nth_error_set_nth_other by congruence. }
    split.
    { intros i. unfold visible_at. cbn [turtles set_turtles set_texts set_running].
      destruct (Nat.eq_dec b i) as [<-|Hne].
      - rewrite nth_error_set_nth_same by exact Hb. rewrite Et.
        cbn. now rewrite Ev.
      - now rewrite !nth_error_set_nth_other by exact Hne. }
    split.
    { intros i. unfold heading_at. cbn [turtles set_turtles set_texts set_running].
      destruct (Nat.eq_dec b i) as [<-|Hne].
      - rewrite nth_error_set_nth_same by exact Hb. now rewrite Et.
      - now rewrite !nth_error_set_nth_other by exact Hne. }
    split.
    { split.
      - intros [L _]. cbn [texts] in L.
        apply (f_equal (@List.length _)) in L.
        rewrite length_app in L. cbn in L. lia.
      - intros (b' & t' & [= <-] & E & _ & D).
        rewrite Et in E. injection E as <-.
        apply ltR_false in Ed. unfold player_pos in D. lra. }
    split.
    { intros [L _]. cbn [texts] in L.
      apply (f_equal (@List.length _)) in L.
      rewrite length_app in L. cbn in L. lia. }
    left. reflexivity.
Qed.

(** One update of a shooting enemy whose projectiles so far are [owned]. *)
Lemma ShootingEnemy_update_step now e g owned :
  one_live_ball owned e g ->
  exists e' g',
    ShootingEnemy_update now e g = Ok (e', g')
    /\ fired g g' = leR 1 (now - last_shot_time e)
    /\ List.length (turtles g')
       = (if fired g g' then S (List.length (turtles g))
          else List.length (turtles g))
    /\ last_shot_time e' = (if fired g g' then now else last_shot_time e)
    /\ (se_x e', se_y e') = (se_x e, se_y e)
    /\ one_live_ball (if fired g g'
                      then owned ++ [List.length (turtles g)] else owned)
                     e' g'
    /\ (fired g g' = true ->
        se_ball e' = Some (List.length (turtles g))
        /\ heading_at g' (List.length (turtles g))
           = Some (towards (se_x e, se_y e) (player_pos g))
        /\ (forall old, se_ball e = Some old -> visible_at g' old = false))
    /\ (fired g g' = false -> se_ball e' = se_ball e)
    /\ (forall i, (i < List.length (turtles g))%nat ->
                  heading_at g' i = heading_at g i)
    /\ (forall i, (i < List.length (turtles g))%nat -> se_ball e <> Some i ->
                  nth_error (turtles g') i = nth_error (turtles g) i)
    /\ (lose_requested g g' ->
        forall b, se_ball e' = Some b -> visible_at g' b = false)
    /\ player g' = player g.
Proof.
  intros (Ha & Hb & Hc). unfold ShootingEnemy_update.
  destruct (leR 1 (now - last_shot_time e)) eqn:Edue.
  - (* a shot is due *)
    set (e1 := se_set_last_shot_time now e).
    destruct (shoot_ball_run e1 g) as (g1 & E1 & L1 & N1 & Hid & Loc1 & Hd1 & F1).
    { intros b Eb. apply Hb, Ha. exact Eb. }
    rewrite (bind_ok _ _ _ _ _ E1).
    set (e2 := se_set_ball (Some (List.length (turtles g))) e1) in *.
    destruct (move_ball_run e2 g1)
      as (g2 & E2 & L2 & Loc2 & V2 & Hd2 & Lose2 & Hide2 & F2).
    rewrite (bind_ok _ _ _ _ _ E2). unfold ret.
    assert (Efired : fired g g2 = true).
    { unfold fired. rewrite L2, L1. apply Nat.ltb_lt. lia. }
    exists e2, g2. rewrite Efired.
    split; [reflexivity|]. split; [reflexivity|].
    split; [now rewrite L2, L1|]. split; [reflexivity|].
    split; [reflexivity|].
    split.
    { split; [|split].
      - intros b [= <-]. apply in_or_app. right. now left.
      - intros i Hi. rewrite L2, L1. apply in_app_or in Hi.
        destruct Hi as [Hi|[<-|[]]]; [apply Hb in Hi|]; lia.
      - intros i Hi Vi. apply V2 in Vi. apply in_app_or in Hi.
        destruct Hi as [Hi|[<-|[]]]; [|reflexivity].
        exfalso. pose proof (Hb i Hi) as Hlt.
        destruct (option_eq_dec_nat (se_ball e) (Some i)) as [Eq|Ne].
        + rewrite (Hid i Eq) in Vi. discriminate.
        + assert (Vg : visible_at g i = true).
          { unfold visible_at in *. now rewrite <- (Loc1 i Hlt Ne). }
          apply Ne, Hc; assumption. }
    split.
    { intros _. split; [reflexivity|]. split.
      - rewrite Hd2. unfold heading_at. now rewrite N1.
      - intros old Eold. destruct (visible_at g2 old) eqn:Vo; [|reflexivity].
        apply V2 in Vo. rewrite (Hid old Eold) in Vo. discriminate. }
    split; [discriminate|].
    split; [intros i Hi; rewrite Hd2; now apply Hd1|].
    split.
    { intros i Hi Ne. rewrite Loc2; [now apply Loc1|].
      cbn. intros [= <-]. lia. }
    split.
    { intros Lg b Eb. apply Hide2; [|exact Eb].
      destruct Lg as [Lt Lr]. split; [|exact Lr].
      rewrite Lt. rewrite F1. reflexivity. }
    destruct F2 as [-> | ->]; rewrite F1; reflexivity.
  - (* no shot is due *)
    unfold bind at 1. unfold ret at 1.
    destruct (move_ball_run e g)
      as (g2 & E2 & L2 & Loc2 & V2 & Hd2 & Lose2 & Hide2 & F2).
    rewrite (bind_ok _ _ _ _ _ E2). unfold ret.
    assert (Efired : fired g g2 = false).
    { unfold fired. rewrite L2. apply Nat.ltb_irrefl. }
    exists e, g2. rewrite Efired.
    split; [reflexivity|]. split; [reflexivity|].
    split; [exact L2|]. split; [reflexivity|].
    split; [reflexivity|].
    split.
    { split; [exact Ha|split].
      - intros i Hi. rewrite L2. now apply Hb.
      - intros i Hi Vi. apply Hc; [exact Hi|now apply V2]. }
    split; [discriminate|]. split; [reflexivity|].
    split; [intros i _; apply Hd2|].
    split; [intros i _ Ne; now apply Loc2|].
    split; [exact Hide2|].
    destruct F2 as [-> | ->]; reflexivity.
Qed.

Lemma ShootingEnemy_run_inv inputs : forall e g owned,
  one_live_ball owned e g ->
  exists e' shots g',
    ShootingEnemy_run inputs e g = Ok ((e', shots), g')
    /\ one_second_apart (map shot_time shots)
    /\ Forall (fun s => 1 <= shot_time s - last_shot_time e) shots
    /\ one_live_ball (owned ++ map shot_ball shots) e' g'
    /\ Forall (fun s => heading_at g' (shot_ball s)
                        = Some (towards (se_x e, se_y e) (shot_target s)))
              shots
    /\ (forall i, (i < List.length (turtles g))%nat ->
                  heading_at g' i = heading_at g i)
    /\ (List.length (turtles g) <= List.length (turtles g'))%nat.
Proof.
  induction inputs as [|[[now p] others] rest IH]; intros e g owned Inv.
  - exists e, [], g. cbn. rewrite app_nil_r.
    repeat split; auto; try constructor; apply Inv.
  - cbn [ShootingEnemy_run]. unfold on_player_turtle.
    unfold bind at 1. unfold modify at 1.
    unfold bind at 1. unfold modify at 1.
    unfold bind at 1. unfold get_game at 1.
    set (gb := set_turtles _ _).
    assert (Tb : turtles gb = turtles g ++ others) by reflexivity.
    assert (Pb : player_pos gb = p) by (unfold gb; now destruct p).
    assert (Invb : one_live_ball owned e gb).
    { destruct Inv as (Ha & Hb & Hc). split; [exact Ha|split].
      - intros i Hi. rewrite Tb, length_app. apply Hb in Hi. lia.
      - intros i Hi Vi. apply Hc; [exact Hi|].
        unfold visible_at in *. rewrite Tb in Vi.
        now rewrite nth_error_app1 in Vi by (now apply Hb). }
    destruct (ShootingEnemy_update_step now e gb owned Invb)
      as (e1 & g1 & E1 & Ef & Len1 & Last1 & Pos1 & Inv1 & Shot1 & _ & Hd1 & _).
    rewrite (bind_ok _ _ _ _ _ E1).
    unfold bind at 1. unfold get_game at 1.
    destruct (IH e1 g1 _ Inv1)
      as (e' & shots & g' & E' & Apart & After & Inv' & Aim & Hd' & Len').
    rewrite (bind_ok _ _ _ _ _ E'). unfold ret. cbn [fst snd].
    injection Pos1 as Px Py.
    assert (Lg : (List.length (turtles g) <= List.length (turtles gb))%nat)
      by (rewrite Tb, length_app; lia).
    assert (Keep : forall i, (i < List.length (turtles g))%nat ->
                             heading_at g' i = heading_at g i).
    { intros i Hi. rewrite Hd', Hd1 by (destruct (fired gb g1); lia).
      unfold heading_at. now rewrite Tb, nth_error_app1. }
    destruct (fired gb g1) eqn:F.
    + eexists e', _, g'. split; [reflexivity|].
      symmetry in Ef. apply leR_true in Ef.
      split.
      { cbn [map shot_time]. constructor; [|exact Apart].
        rewrite Forall_map. rewrite Last1 in After. exact After. }
      split.
      { constructor; [exact Ef|]. rewrite Last1 in After.
        eapply Forall_impl; [|exact After]. cbn beta. intros s Hs. lra. }
      split.
      { cbn [map shot_ball]. rewrite <- app_assoc in Inv'. exact Inv'. }
      split.
      { constructor.
        - cbn [shot_ball shot_target].
          destruct (Shot1 eq_refl) as (_ & Hh & _).
          rewrite Hd' by lia. rewrite Hh, Pb. reflexivity.
        - rewrite Px, Py in Aim. exact Aim. }
      split; [exact Keep|lia].
    + exists e', shots, g'. split; [reflexivity|].
      rewrite Last1 in After. rewrite Px, Py in Aim.
      repeat split; try assumption; try apply Inv'. lia.
Qed.

End Shooting.

Lemma one_second_apart_window t times :
  one_second_apart times ->
  (List.length (filter (fun s => leR t s && ltR s (t + 1)) times) <= 1)%nat.
Proof.
  unfold one_second_apart. induction 1 as [|a l Ha _ IH]; cbn; [lia|].
  destruct (leR t a && ltR a (t + 1)) eqn:Ea; [|exact IH].
  apply andb_prop in Ea. destruct Ea as [Ea1 Ea2].
  apply leR_true in Ea1. apply ltR_true in Ea2.
  assert (Empty : filter (fun s => leR t s && ltR s (t + 1)) l = []).
  { clear IH. induction l as [|b l IHl]; cbn; [reflexivity|].
    inversion Ha as [|? ? Hb Hl]; subst.
    rewrite (proj2 (ltR_false b (t + 1))) by lra.
    rewrite andb_false_r. now apply IHl. }
  rewrite Empty. cbn. lia.
Qed.

Lemma shots_in_window_length t shots :
  List.length (shots_in_window t shots)
  = List.length (filter (fun s => leR t s && ltR s (t + 1))
                        (map shot_time shots)).
Proof.
  unfold shots_in_window. induction shots as [|s l IH]; cbn; [reflexivity|].
  destruct (leR t (shot_time s) && ltR (shot_time s) (t + 1)); cbn; now rewrite IH.
Qed.

Lemma one_live_ball_new e g : se_ball e = None -> one_live_ball [] e g.
Proof.
  intros E. split; [|split].
  - intros b Eb. congruence.
  - intros i [].
  - intros i [].
Qed.

(** C7: an update fires exactly when the clock reads at least one second
    more than at the last shot, and then makes one projectile, at the
    enemy's position and heading towards where the player is at that
    moment, after hiding the one held before; an update that asks the
    session to lose leaves the projectile hidden.  Over any run of
    updates of a new enemy, with the clock, the player and the other
    turtles of the screen changing at will in between: the shots are
    pairwise at least one second apart, so any window of one second holds
    at most one; each was aimed at the player's position of its moment;
    and of all the projectiles the enemy has made at most one is shown,
    the one it holds. *)
Theorem shooting_one_ball_per_second `{TurtleLib} :
  (forall now e g owned,
      one_live_ball owned e g ->
      exists e' g',
        ShootingEnemy_update now e g = Ok (e', g')
        /\ (fired g g' = true <-> 1 <= now - last_shot_time e)
        /\ (List.length (turtles g') <= S (List.length (turtles g)))%nat
        /\ (fired g g' = true ->
            last_shot_time e' = now
            /\ se_ball e' = Some (List.length (turtles g))
            /\ heading_at g' (List.length (turtles g))
               = Some (towards (se_x e, se_y e) (player_pos g))
            /\ (forall old, se_ball e = Some old -> visible_at g' old = false))
        /\ one_live_ball (if fired g g'
                          then owned ++ [List.length (turtles g)] else owned)
                         e' g'
        /\ (lose_requested g g' ->
            forall b, se_ball e' = Some b -> visible_at g' b = false))
  /\ (forall inputs e g,
        se_ball e = None ->
        exists e' shots g',
          ShootingEnemy_run inputs e g = Ok ((e', shots), g')
          /\ one_second_apart (map shot_time shots)
          /\ (forall t, (List.length (shots_in_window t shots) <= 1)%nat)
          /\ Forall (fun s => 1 <= shot_time s - last_shot_time e) shots
          /\ Forall (fun s => heading_at g' (shot_ball s)
                              = Some (towards (se_x e, se_y e) (shot_target s)))
                    shots
          /\ (forall s, In s shots -> visible_at g' (shot_ball s) = true ->
                        se_ball e' = Some (shot_ball s))).
Proof.
  split.
  - intros now e g owned Inv.
    destruct (ShootingEnemy_update_step now e g owned Inv)
      as (e' & g' & E & Ef & Len & Last & _ & Inv' & Shot & _ & _ & _ & Hide & _).
    exists e', g'. split; [exact E|].
    split; [rewrite Ef; apply leR_true|].
    split; [rewrite Len; destruct (fired g g'); lia|].
    split.
    { intros F. rewrite F in Last. split; [exact Last|]. now apply Shot. }
    split; [exact Inv'|exact Hide].
  - intros inputs e g Enew.
    destruct (ShootingEnemy_run_inv inputs e g [] (one_live_ball_new e g Enew))
      as (e' & shots & g' & E & Apart & After & Inv' & Aim & _).
    exists e', shots, g'. split; [exact E|]. split; [exact Apart|].
    split.
    { intros t. rewrite shots_in_window_length.
      now apply one_second_apart_window. }
    split; [exact After|]. split; [exact Aim|].
    intros s Hs Vs. destruct Inv' as (_ & _ & Hc). apply Hc; [|exact Vs].
    cbn [app]. now apply in_map.
Qed.

Lemma shooting_one_ball_per_second_witness :
  (exists e' g',
      @ShootingEnemy_update ideal_turtle 2 (shooter_at 0 300 200)
        (game_with_player 800 500 (50, 250)) = Ok (e', g')
      /\ se_ball e' = Some 0%nat)
  /\ (exists e' shots g',
        @ShootingEnemy_run ideal_turtle
          [(1 / 2, (50, 250), []); (1, (60, 250), []); (3 / 2, (70, 250), [])]
          (shooter_at 0 300 200) (game_with_player 800 500 (50, 250))
        = Ok ((e', shots), g')
        /\ one_second_apart (map shot_time shots)).
Proof.
  split.
  - destruct (proj1 (@shooting_one_ball_per_second ideal_turtle)
                2 (shooter_at 0 300 200)
                (game_with_player 800 500 (50, 250)) []
                (one_live_ball_new (shooter_at 0 300 200)
                   (game_with_player 800 500 (50, 250)) eq_refl))
      as (e' & g' & E & Ef & _ & Shot & _).
    exists e', g'. split; [exact E|].
    apply Shot, Ef. cbn. lra.
  - destruct (proj2 (@shooting_one_ball_per_second ideal_turtle)
                [(1 / 2, (50, 250), []); (1, (60, 250), []); (3 / 2, (70, 250), [])]
                (shooter_at 0 300 200)
                (game_with_player 800 500 (50, 250)) eq_refl)
      as (e' & shots & g' & E & Apart & _).
    exists e', shots, g'. split; [exact E|exact Apart].
Defined.

(** ** CentipedeEnemy: the body follows *)

Lemma index_app_mid {A} (pre : list A) a post :
  index (pre ++ a :: post) (List.length pre) = Ok a.
Proof.
  unfold index. rewrite nth_error_app2 by lia.
  now rewrite Nat.sub_diag.
Qed.

Lemma set_nth_app_mid {A} (pre : list A) a b post :
  set_nth (List.length pre) b (pre ++ a :: post) = pre ++ b :: post.
Proof. induction pre; cbn; congruence. Qed.

Lemma move_segment_pull spacing pre p s rest :
  (0 <= spacing)%Z ->
  move_segment spacing (pre ++ p :: s :: rest) (S (List.length pre))
  = Ok (pre ++ p :: pull (IZR spacing) p s :: rest).
Proof.
  intros Hs. apply IZR_le in Hs. unfold move_segment.
  cbn [Nat.sub]. rewrite Nat.sub_0_r, index_app_mid. cbn [rbind].
  replace (S (List.length pre)) with (List.length (pre ++ [p]))
    by (rewrite length_app; cbn; lia).
  replace (pre ++ p :: s :: rest) with ((pre ++ [p]) ++ s :: rest)
    by (now rewrite <- app_assoc).
  rewrite index_app_mid. cbn [rbind].
  unfold pull, seg_dist.
  destruct (ltR (IZR spacing) (hypot (fst p - fst s) (snd p - snd s))) eqn:Far.
  - apply ltR_true in Far.
    rewrite !fdiv_ok by lra. cbn [rbind].
    rewrite set_nth_app_mid. now rewrite <- app_assoc.
  - now rewrite <- app_assoc.
Qed.

Lemma move_body_follow spacing rest : forall pre p,
  (0 <= spacing)%Z ->
  move_body spacing (seq (S (List.length pre)) (List.length rest))
            (pre ++ p :: rest)
  = Ok (pre ++ p :: follow (IZR spacing) p rest).
Proof.
  induction rest as [|s rest IH]; intros pre p Hs; cbn [List.length seq move_body follow].
  - reflexivity.
  - rewrite (move_segment_pull spacing pre p s rest Hs). cbn [rbind].
    specialize (IH (pre ++ [p]) (pull (IZR spacing) p s) Hs).
    rewrite length_app in IH. cbn [List.length] in IH.
    rewrite Nat.add_1_r, <- !app_assoc in IH. exact IH.
Qed.

(** A pulled segment is within [spacing] of its predecessor, and exactly
    at [spacing] if it had to move. *)
Lemma pull_dist spacing prev seg :
  0 <= spacing ->
  seg_dist prev (pull spacing prev seg) <= spacing
  /\ (spacing < seg_dist prev seg ->
      seg_dist prev (pull spacing prev seg) = spacing)
  /\ (seg_dist prev seg <= spacing -> pull spacing prev seg = seg).
Proof.
  intros Hs. unfold pull.
  destruct (ltR spacing (seg_dist prev seg)) eqn:Far.
  - apply ltR_true in Far.
    assert (Exact : seg_dist prev
              (fst seg + (fst prev - fst seg) / seg_dist prev seg
                         * (seg_dist prev seg - spacing),
               snd seg + (snd prev - snd seg) / seg_dist prev seg
                         * (seg_dist prev seg - spacing)) = spacing).
    { unfold seg_dist at 1. cbn [fst snd]. unfold hypot.
      set (d := seg_dist prev seg) in *.
      set (dx := fst prev - fst seg). set (dy := snd prev - snd seg).
      assert (Hd : d * d = dx * dx + dy * dy) by apply hypot_sqr.
      replace ((fst prev - (fst seg + dx / d * (d - spacing)))
               * (fst prev - (fst seg + dx / d * (d - spacing)))
               + (snd prev - (snd seg + dy / d * (d - spacing)))
                 * (snd prev - (snd seg + dy / d * (d - spacing))))
        with (spacing * spacing).
      - apply sqrt_square. exact Hs.
      - unfold dx, dy in *.
        transitivity ((spacing / d) * (spacing / d)
                      * ((fst prev - fst seg) * (fst prev - fst seg)
                         + (snd prev - snd seg) * (snd prev - snd seg))).
        + rewrite <- Hd. field. lra.
        + field. lra. }
    split; [lra|]. split; [intros _; exact Exact|]. intros. lra.
  - apply ltR_false in Far.
    split; [exact Far|]. split; [intros; lra|reflexivity].
Qed.

Lemma follow_chain_within spacing segs : forall prev,
  0 <= spacing -> chain_within spacing (prev :: follow spacing prev segs).
Proof.
  induction segs as [|s rest IH]; intros prev Hs; cbn [follow chain_within].
  - exact I.
  - split; [now apply pull_dist|]. now apply IH.
Qed.

Lemma follow_length spacing segs : forall prev,
  List.length (follow spacing prev segs) = List.length segs.
Proof. induction segs; intros; cbn; auto. Qed.

(** ** Collision tests *)

Lemma corner_cond_iff x y s px py :
  (ltR x px && ltR px (x + s)) && (ltR y py && ltR py (y + s)) = true
  <-> in_corner_box x y s (px, py).
Proof.
  unfold in_corner_box. cbn [fst snd].
  rewrite !andb_true_iff, !ltR_true. tauto.
Qed.

Lemma centered_cond_iff x y s px py :
  (ltR (x - s / 2) px && ltR px (x + s / 2))
  && (ltR (y - s / 2) py && ltR py (y + s / 2)) = true
  <-> in_centered_box x y s (px, py).
Proof.
  unfold in_centered_box. cbn [fst snd].
  rewrite !andb_true_iff, !ltR_true. tauto.
Qed.

Lemma lose_if_iff (hit : bool) g :
  lose_requested g (if hit then lose g else g) <-> hit = true.
Proof.
  destruct hit; split; intros Hh; try reflexivity; try discriminate.
  - apply lose_requested_lose.
  - now apply lose_requested_irrefl in Hh.
Qed.

(** The end of every box-testing [update]: test, lose if hit, return. *)
Lemma test_then_lose {A} (hit : bool) (a : A) g :
  (when hit game_over_lose ;;; ret a) g = Ok (a, if hit then lose g else g).
Proof. destruct hit; reflexivity. Qed.

Lemma corner_box_hit_run x y s g :
  corner_box_hit x y s g
  = Ok ((ltR x (player_x g) && ltR (player_x g) (x + s))
        && (ltR y (player_y g) && ltR (player_y g) (y + s)), g).
Proof. reflexivity. Qed.

Lemma hits_player_run x y s g :
  hits_player x y s g
  = Ok ((ltR (x - IZR s / 2) (player_x g) && ltR (player_x g) (x + IZR s / 2))
        && (ltR (y - IZR s / 2) (player_y g)
            && ltR (player_y g) (y + IZR s / 2)), g).
Proof. reflexivity. Qed.

Lemma corner_tail {A} x y s (a : A) g :
  exists g',
    (hit <- corner_box_hit x y s ;; when hit game_over_lose ;;; ret a) g
    = Ok (a, g')
    /\ (lose_requested g g' <-> in_corner_box x y s (player_pos g))
    /\ lose_or_same g g'.
Proof.
  rewrite (bind_ok _ _ _ _ _ (corner_box_hit_run x y s g)), test_then_lose.
  eexists. split; [reflexivity|]. split.
  - rewrite lose_if_iff. apply corner_cond_iff.
  - unfold lose_or_same. destruct (_ && _); auto.
Qed.

Lemma FencingEnemy_update_lose e g :
  exists g',
    FencingEnemy_update e g = Ok (FencingEnemy_move e, g')
    /\ (lose_requested g g' <->
        in_corner_box (IZR (fe_x (FencingEnemy_move e)))
                      (IZR (fe_y (FencingEnemy_move e)))
                      (IZR (fe_size (FencingEnemy_move e))) (player_pos g))
    /\ lose_or_same g g'.
Proof. unfold FencingEnemy_update. apply corner_tail. Qed.

Lemma ChasingEnemy_update_lose e g :
  ch_pos e <> player_pos g ->
  exists e' g',
    ChasingEnemy_update e g = Ok (e', g')
    /\ (lose_requested g g' <->
        in_corner_box (ch_x e') (ch_y e') (IZR (ch_size e')) (player_pos g))
    /\ lose_or_same g g'.
Proof.
  intros Hne.
  assert (Hd : hypot (player_x g - ch_x e) (player_y g - ch_y e) <> 0).
  { intros E. apply hypot_eq_0 in E. destruct E as [E1 E2].
    apply Hne. unfold ch_pos, player_pos. f_equal; lra. }
  unfold ChasingEnemy_update.
  unfold bind at 1. unfold get_game at 1.
  unfold bind at 1. unfold lift at 1. rewrite (fdiv_ok _ _ Hd).
  unfold bind at 1. unfold lift at 1. rewrite (fdiv_ok _ _ Hd).
  cbv zeta.
  match goal with
  | |- context [ret ?a] =>
      destruct (corner_tail (ch_x a) (ch_y a) (IZR (ch_size a)) a g)
        as (g' & E & Hiff & Hor)
  end.
  eexists; exists g'. split; [exact E|]. split; [exact Hiff|exact Hor].
Qed.

Lemma CentipedeEnemy_update_lose e g head rest :
  ce_pos e <> player_pos g ->
  (0 <= segment_spacing e)%Z ->
  body_segments e = head :: rest ->
  let dist := hypot (player_x g - ce_x e) (player_y g - ce_y e) in
  let x := ce_x e + (player_x g - ce_x e) / dist * IZR (ce_speed e) in
  let y := ce_y e + (player_y g - ce_y e) / dist * IZR (ce_speed e) in
  let e' := ce_set_body
              ((x, y) :: follow (IZR (segment_spacing e)) head rest)
              (ce_set_pos x y e) in
  exists g',
    CentipedeEnemy_update e g = Ok (e', g')
    /\ (lose_requested g g' <->
        in_corner_box (ce_x e') (ce_y e') (IZR (ce_size e')) (player_pos g))
    /\ lose_or_same g g'.
Proof.
  intros Hne Hs Hbody. cbv zeta.
  assert (Hd : hypot (player_x g - ce_x e) (player_y g - ce_y e) <> 0).
  { intros E. apply hypot_eq_0 in E. destruct E as [E1 E2].
    apply Hne. unfold ce_pos, player_pos. f_equal; lra. }
  unfold CentipedeEnemy_update.
  unfold bind at 1. unfold get_game at 1.
  unfold bind at 1. unfold lift at 1. rewrite (fdiv_ok _ _ Hd).
  unfold bind at 1. unfold lift at 1. rewrite (fdiv_ok _ _ Hd).
  cbv zeta. cbn [segment_spacing body_segments ce_set_pos].
  rewrite Hbody. cbn [List.length Nat.sub]. rewrite Nat.sub_0_r.
  pose proof (move_body_follow (segment_spacing e) rest [] head Hs) as Hmove.
  cbn [List.length app] in Hmove. rewrite Hmove.
  unfold bind at 1. unfold lift at 1.
  unfold bind at 1. unfold lift at 1. cbn [place_head index nth_error rbind set_nth].
  match goal with
  | |- context [ret ?a] =>
      destruct (corner_tail (ce_x a) (ce_y a) (IZR (ce_size a)) a g)
        as (g' & E & Hiff & Hor)
  end.
  exists g'. split; [exact E|]. split; [exact Hiff|exact Hor].
Qed.

Lemma pull_between spacing prev seg :
  0 <= spacing ->
  exists k, 0 <= k <= 1
            /\ pull spacing prev seg
               = (fst seg + k * (fst prev - fst seg),
                  snd seg + k * (snd prev - snd seg)).
Proof.
  intros Hs. unfold pull.
  destruct (ltR spacing (seg_dist prev seg)) eqn:Far.
  - apply ltR_true in Far.
    exists ((seg_dist prev seg - spacing) / seg_dist prev seg). split.
    + split.
      * apply Rmult_le_pos; [lra|]. apply Rlt_le, Rinv_0_lt_compat. lra.
      * apply Rmult_le_reg_r with (r := seg_dist prev seg); [lra|].
        unfold Rdiv. rewrite Rmult_assoc, Rinv_l by lra. lra.
    + f_equal; field; lra.
  - exists 0. split; [lra|]. destruct seg as [sx sy]. cbn [fst snd].
    f_equal; lra.
Qed.

(** C4, as stated, fails between the head and the segment behind it: the
    head is placed after the body has followed its old place.  The
    centipede the generator makes at (100, 100), with the player at
    (200, 100), has after one update its head at (104, 100) and the next
    segment still at (90, 100): 14 apart, for a spacing of 10. *)
Lemma centipede_head_gap_counterexample :
  exists e' g',
    CentipedeEnemy_update (centipede_at 100 100)
                          (game_with_player 800 500 (200, 100))
    = Ok (e', g')
    /\ nth_error (body_segments e') 0 = Some (104, 100)
    /\ nth_error (body_segments e') 1 = Some (90, 100)
    /\ seg_dist (90, 100) (104, 100) = 14
    /\ ~ (seg_dist (90, 100) (104, 100) <= IZR (segment_spacing e')).
Proof.
  destruct (CentipedeEnemy_update_lose (centipede_at 100 100)
              (game_with_player 800 500 (200, 100)) (100, 100)
              (map (fun i => (100 - INR i * IZR (1 * 10), 100)) (seq 1 9)))
    as (g' & E & _).
  { unfold ce_pos, player_pos. cbn. intros C. injection C as C. lra. }
  { cbn. lia. }
  { reflexivity. }
  eexists; exists g'. split; [exact E|].
  assert (D : seg_dist (90, 100) (104, 100) = 14).
  { unfold seg_dist. cbn [fst snd].
    replace (100 - 100) with 0 by lra. rewrite hypot_x.
    replace (90 - 104) with (-14) by lra. rewrite Rabs_left; lra. }
  cbn [body_segments ce_set_body nth_error segment_spacing ce_set_pos].
  change (ce_x (centipede_at 100 100)) with 100.
  change (ce_y (centipede_at 100 100)) with 100.
  change (ce_speed (centipede_at 100 100)) with 4%Z.
  change (segment_spacing (centipede_at 100 100)) with 10%Z.
  change (1 * 10)%Z with 10%Z.
  split; [|split; [|split]].
  - f_equal.
    cbn [player_x player_y game_with_player set_player player pl_turtle
         t_goto t_pos fst snd].
    replace (100 - 100) with 0 by lra. rewrite hypot_x.
    replace (Rabs (200 - 100)) with 100 by (rewrite Rabs_pos_eq; lra).
    f_equal; lra.
  - f_equal. cbn [seq map follow].
    replace (100 - INR 1 * 10) with 90 by (cbn [INR]; lra).
    unfold pull, seg_dist. cbn [fst snd].
    replace (100 - 100) with 0 by lra. rewrite hypot_x.
    replace (Rabs (100 - 90)) with 10 by (rewrite Rabs_pos_eq; lra).
    rewrite (proj2 (ltR_false 10 10)); [reflexivity|lra].
  - exact D.
  - rewrite D. lra.
Qed.

(** C4, amended: after the update of a centipede that is not exactly at
    the player's position, the segment behind the head is within
    [segment_spacing] of the place the head had before the update, and
    every further segment within [segment_spacing] of the segment before
    it; each segment has been pulled towards that reference point: moved
    on the straight line to it, to exactly [segment_spacing] from it, if
    it was further away, and left where it was otherwise; the segments
    keep their number and order, and the head is placed last, at the
    enemy's new coordinates. *)
Theorem centipede_chain_follows (e : CentipedeEnemy) (g : Game)
    (head : Pos) (rest : list Pos) :
  ce_pos e <> player_pos g ->
  (0 <= segment_spacing e)%Z ->
  body_segments e = head :: rest ->
  exists e' g' tail,
    CentipedeEnemy_update e g = Ok (e', g')
    /\ segment_spacing e' = segment_spacing e
    /\ body_segments e' = (ce_x e', ce_y e') :: tail
    /\ List.length tail = List.length rest
    /\ tail = follow (IZR (segment_spacing e)) head rest
    /\ chain_within (IZR (segment_spacing e)) (head :: tail)
    /\ (forall prev seg,
          (IZR (segment_spacing e) < seg_dist prev seg ->
           seg_dist prev (pull (IZR (segment_spacing e)) prev seg)
           = IZR (segment_spacing e))
          /\ (seg_dist prev seg <= IZR (segment_spacing e) ->
              pull (IZR (segment_spacing e)) prev seg = seg)
          /\ (exists k, 0 <= k <= 1
                        /\ pull (IZR (segment_spacing e)) prev seg
                           = (fst seg + k * (fst prev - fst seg),
                              snd seg + k * (snd prev - snd seg)))).
Proof.
  intros Hne Hs Hbody.
  destruct (CentipedeEnemy_update_lose e g head rest Hne Hs Hbody)
    as (g' & E & _).
  assert (Hs' : 0 <= IZR (segment_spacing e)) by (now apply IZR_le).
  eexists; exists g'; eexists. split; [exact E|].
  cbn [segment_spacing body_segments ce_set_body ce_set_pos ce_x ce_y].
  split; [reflexivity|]. split; [reflexivity|].
  split; [apply follow_length|]. split; [reflexivity|].
  split; [now apply follow_chain_within|].
  intros prev seg.
  destruct (pull_dist (IZR (segment_spacing e)) prev seg Hs') as (_ & P1 & P2).
  split; [exact P1|]. split; [exact P2|]. now apply pull_between.
Qed.

Lemma centipede_chain_follows_witness :
  exists e' g' tail,
    CentipedeEnemy_update (centipede_at 100 100)
                          (game_with_player 800 500 (200, 100))
    = Ok (e', g')
    /\ body_segments e' = (ce_x e', ce_y e') :: tail
    /\ List.length tail = 9%nat
    /\ chain_within 10 ((100, 100) :: tail).
Proof.
  destruct (centipede_chain_follows (centipede_at 100 100)
              (game_with_player 800 500 (200, 100)) (100, 100)
              (map (fun i => (100 - INR i * IZR (1 * 10), 100)) (seq 1 9)))
    as (e' & g' & tail & E & _ & B & L & _ & C & _).
  - unfold ce_pos, player_pos. cbn. intros C. injection C as C. lra.
  - cbn. lia.
  - reflexivity.
  - exists e', g', tail. split; [exact E|]. split; [exact B|].
    split; [exact L|exact C].
Defined.

Lemma RandomWalkEnemy_update_lose ox oy e g :
  List.length (rw_op e) <> 1%nat ->
  exists e' g',
    RandomWalkEnemy_update ox oy e g = Ok (e', g')
    /\ (lose_requested g g' <->
        in_centered_box (rw_x e') (rw_y e') (IZR (rw_size e')) (player_pos g))
    /\ lose_or_same g g'
    /\ rw_size e' = rw_size e
    /\ rw_x e' = apply_operator (hd ox (rw_op e)) (rw_x e)
    /\ rw_y e' = apply_operator (nth 1 (rw_op e) oy) (rw_y e).
Proof.
  intros Hlen. unfold RandomWalkEnemy_update.
  destruct (rw_op e) as [|a [|b l]] eqn:Eop; cbn [List.length Nat.eqb] in *;
    [| now elim Hlen |].
  - cbn [rw_op rw_set_op app].
    unfold bind at 1. unfold lift at 1. cbn [index nth_error].
    unfold bind at 1. unfold lift at 1.
    cbn [rw_op rw_set_op rw_set_pos index nth_error rw_x rw_y rw_size].
    rewrite (bind_ok _ _ _ _ _ (hits_player_run _ _ _ g)), test_then_lose.
    eexists; eexists. split; [reflexivity|].
    cbn [rw_x rw_y rw_size hd nth].
    split; [|split; [|split; [reflexivity|split; reflexivity]]].
    + rewrite lose_if_iff. apply centered_cond_iff.
    + unfold lose_or_same. destruct (_ && _); auto.
  - rewrite Eop.
    unfold bind at 1. unfold lift at 1. cbn [index nth_error].
    unfold bind at 1. unfold lift at 1.
    cbn [rw_op rw_set_pos index nth_error]. rewrite Eop. cbn [index nth_error].
    rewrite (bind_ok _ _ _ _ _ (hits_player_run _ _ _ g)), test_then_lose.
    eexists; eexists. split; [reflexivity|].
    cbn [rw_x rw_y rw_size rw_set_pos hd nth].
    split; [|split; [|split; [reflexivity|split; reflexivity]]].
    + rewrite lose_if_iff. apply centered_cond_iff.
    + unfold lose_or_same. destruct (_ && _); auto.
Qed.

Section ShootingCollision.
Context `{TurtleLib}.

Lemma ShootingEnemy_update_lose now e g :
  (forall b, se_ball e = Some b -> (b < List.length (turtles g))%nat) ->
  exists e' g',
    ShootingEnemy_update now e g = Ok (e', g')
    /\ (lose_requested g g' <->
        exists t, ball_in_flight now e g = Some t
                  /\ t_visible t = true
                  /\ t_distance (t_forward t (IZR (ball_speed e)))
                                (player_pos g) < IZR (se_size e)).
Proof.
  intros Hok. unfold ShootingEnemy_update, ball_in_flight.
  destruct (leR 1 (now - last_shot_time e)) eqn:Edue.
  - set (e1 := se_set_last_shot_time now e).
    destruct (shoot_ball_run e1 g Hok) as (g1 & E1 & L1 & N1 & _ & _ & _ & F1).
    rewrite (bind_ok _ _ _ _ _ E1).
    set (e2 := se_set_ball (Some (List.length (turtles g))) e1) in *.
    destruct (move_ball_run e2 g1) as (g2 & E2 & _ & _ & _ & _ & Lose2 & _).
    rewrite (bind_ok _ _ _ _ _ E2). unfold ret.
    exists e2, g2. split; [reflexivity|].
    assert (Same : lose_requested g g2 <-> lose_requested g1 g2).
    { unfold lose_requested. rewrite F1. reflexivity. }
    assert (Pp : player_pos g1 = player_pos g) by (rewrite F1; reflexivity).
    rewrite Same, Lose2, Pp. cbn [se_ball e2 se_set_ball] in *.
    split.
    + intros (b & t & [= <-] & Et & Vt & Dt).
      rewrite N1 in Et. injection Et as <-.
      eexists. split; [reflexivity|]. split; [reflexivity|exact Dt].
    + intros (t & [= <-] & Vt & Dt).
      eexists; eexists. split; [reflexivity|]. split; [exact N1|].
      split; [reflexivity|exact Dt].
  - unfold bind at 1. unfold ret at 1.
    destruct (move_ball_run e g) as (g2 & E2 & _ & _ & _ & _ & Lose2 & _).
    rewrite (bind_ok _ _ _ _ _ E2). unfold ret.
    exists e, g2. split; [reflexivity|]. rewrite Lose2.
    split.
    + intros (b & t & Eb & Et & Vt & Dt). rewrite Eb.
      exists t. repeat split; assumption.
    + intros (t & Et & Vt & Dt).
      destruct (se_ball e) as [b|]; [|discriminate].
      exists b, t. repeat split; assumption.
Qed.

End ShootingCollision.

(** C9, as stated, fails.  A shooting enemy of size 10 at (0, 0) with no
    projectile does not ask to lose although the player, at (5, 5), is
    inside its square: it has no box test at all.  And the box of the
    other enemies excludes its lower bounds: the fencing enemy of
    spawnOpt 1, at (665, 210) after its move, does not hit a player at
    (665, 215). *)
Lemma collision_box_counterexample :
  (exists e' g',
      @ShootingEnemy_update ideal_turtle (1 / 2) (shooter_at 0 0 0)
        (game_with_player 800 500 (5, 5)) = Ok (e', g')
      /\ (0 <= 5 < 0 + 10 /\ 0 <= 5 < 0 + 10)
      /\ ~ lose_requested (game_with_player 800 500 (5, 5)) g')
  /\ (exists e' g',
        FencingEnemy_update (patrol_start 1)
          (game_with_player 800 500 (665, 215)) = Ok (e', g')
        /\ fe_pos e' = (665, 210)%Z /\ fe_size e' = 10%Z
        /\ (665 <= 665 < 665 + 10 /\ 210 <= 215 < 210 + 10)
        /\ ~ lose_requested (game_with_player 800 500 (665, 215)) g').
Proof.
  split.
  - destruct (@ShootingEnemy_update_lose ideal_turtle (1 / 2)
                (shooter_at 0 0 0) (game_with_player 800 500 (5, 5)))
      as (e' & g' & E & Hiff).
    { intros b [=]. }
    exists e', g'. split; [exact E|]. split; [lra|].
    rewrite Hiff. intros (t & Et & _).
    unfold ball_in_flight in Et. cbn [last_shot_time shooter_at se_set_pos
      ShootingEnemy_new se_ball] in Et.
    rewrite (proj2 (leR_false 1 (1 / 2 - 0))) in Et by lra. discriminate.
  - destruct (FencingEnemy_update_lose (patrol_start 1)
                (game_with_player 800 500 (665, 215))) as (g' & E & Hiff & _).
    eexists; exists g'. split; [exact E|].
    split; [reflexivity|]. split; [reflexivity|]. split; [lra|].
    rewrite Hiff. unfold in_corner_box, player_pos. cbn. lra.
Qed.

(** C9, amended: an update asks the session to lose exactly when, for a
    chasing, fencing or centipede enemy of size S at (x, y) after its
    move, x < player.x < x + S and y < player.y < y + S; for a random
    walker, x - S/2 < player.x < x + S/2 and y - S/2 < player.y < y + S/2;
    for a shooting enemy, the shown projectile it advances comes nearer
    to the player than S.  A random walker of size above 2 placed where
    the player stands asks to lose at its first update whatever the two
    operators drawn. *)
Theorem collision_rules `{TurtleLib} :
  (forall e g, ch_pos e <> player_pos g ->
     exists e' g',
       ChasingEnemy_update e g = Ok (e', g')
       /\ (lose_requested g g' <->
           in_corner_box (ch_x e') (ch_y e') (IZR (ch_size e')) (player_pos g)))
  /\ (forall e g,
        exists e' g',
          FencingEnemy_update e g = Ok (e', g')
          /\ (lose_requested g g' <->
              in_corner_box (IZR (fe_x e')) (IZR (fe_y e')) (IZR (fe_size e'))
                            (player_pos g)))
  /\ (forall e g head rest,
        ce_pos e <> player_pos g -> (0 <= segment_spacing e)%Z ->
        body_segments e = head :: rest ->
        exists e' g',
          CentipedeEnemy_update e g = Ok (e', g')
          /\ (lose_requested g g' <->
              in_corner_box (ce_x e') (ce_y e') (IZR (ce_size e'))
                            (player_pos g)))
  /\ (forall ox oy e g, List.length (rw_op e) <> 1%nat ->
        exists e' g',
          RandomWalkEnemy_update ox oy e g = Ok (e', g')
          /\ (lose_requested g g' <->
              in_centered_box (rw_x e') (rw_y e') (IZR (rw_size e'))
                              (player_pos g)))
  /\ (forall now e g,
        (forall b, se_ball e = Some b -> (b < List.length (turtles g))%nat) ->
        exists e' g',
          ShootingEnemy_update now e g = Ok (e', g')
          /\ (lose_requested g g' <->
              exists t, ball_in_flight now e g = Some t
                        /\ t_visible t = true
                        /\ t_distance (t_forward t (IZR (ball_speed e)))
                                      (player_pos g) < IZR (se_size e)))
  /\ (forall ox oy size g, (2 < size)%Z -> player_pos g = (100, 100) ->
        exists e' g',
          RandomWalkEnemy_update ox oy (walker_at 100 100 size) g = Ok (e', g')
          /\ lose_requested g g').
Proof.
  split; [|split; [|split; [|split; [|split]]]].
  - intros e g Hne.
    destruct (ChasingEnemy_update_lose e g Hne) as (e' & g' & E & Hiff & _).
    now exists e', g'.
  - intros e g.
    destruct (FencingEnemy_update_lose e g) as (g' & E & Hiff & _).
    now exists (FencingEnemy_move e), g'.
  - intros e g head rest Hne Hs Hb.
    destruct (CentipedeEnemy_update_lose e g head rest Hne Hs Hb)
      as (g' & E & Hiff & _).
    eexists; exists g'. split; [exact E|exact Hiff].
  - intros ox oy e g Hlen.
    destruct (RandomWalkEnemy_update_lose ox oy e g Hlen)
      as (e' & g' & E & Hiff & _).
    now exists e', g'.
  - intros now e g Hok. now apply ShootingEnemy_update_lose.
  - intros ox oy size g Hsize Hp.
    destruct (RandomWalkEnemy_update_lose ox oy (walker_at 100 100 size) g)
      as (e' & g' & E & Hiff & _ & Es & Ex & Ey).
    { cbn. discriminate. }
    exists e', g'. split; [exact E|].
    apply Hiff. rewrite Ex, Ey, Es, Hp. cbn [hd nth rw_op walker_at rw_set_pos
      RandomWalkEnemy_new]. apply IZR_lt in Hsize.
    unfold in_centered_box. cbn [fst snd walker_at rw_x rw_y rw_size rw_set_pos
      RandomWalkEnemy_new].
    destruct ox, oy; cbn [apply_operator]; lra.
Qed.

Lemma collision_rules_witness :
  (exists e' g',
      ChasingEnemy_update (mkChasing 600 150 20 "green" 2)
                          (game_with_player 800 500 (50, 150)) = Ok (e', g'))
  /\ (exists e' g',
        CentipedeEnemy_update (centipede_at 100 100)
                              (game_with_player 800 500 (200, 100))
        = Ok (e', g'))
  /\ (exists e' g',
        RandomWalkEnemy_update OpPlus OpMinus (walker_at 300 200 20)
                               (game_with_player 800 500 (50, 250))
        = Ok (e', g'))
  /\ (exists e' g',
        @ShootingEnemy_update ideal_turtle 2 (shooter_at 0 300 200)
                              (game_with_player 800 500 (50, 250))
        = Ok (e', g'))
  /\ (exists e' g',
        RandomWalkEnemy_update OpMinus OpPlus (walker_at 100 100 20)
                               (game_with_player 800 500 (100, 100))
        = Ok (e', g')
        /\ lose_requested (game_with_player 800 500 (100, 100)) g').
Proof.
  pose proof (@collision_rules ideal_turtle) as (C1 & _ & C3 & C4 & C5 & C6).
  split; [|split; [|split; [|split]]].
  - destruct (C1 (mkChasing 600 150 20 "green" 2)
                 (game_with_player 800 500 (50, 150))) as (e' & g' & E & _).
    { unfold ch_pos, player_pos. cbn. intros C. injection C as C. lra. }
    now exists e', g'.
  - destruct (C3 (centipede_at 100 100) (game_with_player 800 500 (200, 100))
                 (100, 100)
                 (map (fun i => (100 - INR i * IZR (1 * 10), 100)) (seq 1 9)))
      as (e' & g' & E & _).
    { unfold ce_pos, player_pos. cbn. intros C. injection C as C. lra. }
    { cbn. lia. }
    { reflexivity. }
    now exists e', g'.
  - destruct (C4 OpPlus OpMinus (walker_at 300 200 20)
                 (game_with_player 800 500 (50, 250))) as (e' & g' & E & _).
    { cbn. discriminate. }
    now exists e', g'.
  - destruct (C5 2 (shooter_at 0 300 200) (game_with_player 800 500 (50, 250)))
      as (e' & g' & E & _).
    { intros b [=]. }
    now exists e', g'.
  - apply (C6 OpMinus OpPlus 20%Z (game_with_player 800 500 (100, 100))).
    + lia.
    + reflexivity.
Defined.

(** ** Nothing looks at the terminal state *)

Ltac game_fields :=
  cbn [level screen_width screen_height waypoint player home elements enemies
       turtles texts scheduled running set_running set_texts set_elements
       set_enemies set_turtles set_scheduled set_waypoint set_player set_home].

Ltac split_matches :=
  repeat match goal with
         | |- context [match ?x with _ => _ end] =>
             lazymatch x with
             | context [match _ with _ => _ end] => fail
             | _ => destruct x eqn:?
             end; game_fields
         end.

Lemma set_running_eta g : set_running (running g) g = g.
Proof. now destruct g. Qed.

Lemma blind_at {A} (m : M A) g1 g2 :
  blind m -> set_running true g1 = set_running true g2 ->
  but_flag (m g1) = but_flag (m g2).
Proof.
  intros Hm E.
  rewrite <- (set_running_eta g1), <- (set_running_eta g2).
  rewrite (Hm (running g1) g1), (Hm (running g2) g2).
  rewrite <- (Hm true g1), <- (Hm true g2). now rewrite E.
Qed.

Lemma blind_ret {A} (a : A) : blind (ret a).
Proof. intros b g. reflexivity. Qed.

Lemma blind_lift {A} (r : Result A) : blind (lift r).
Proof. intros b g. destruct r; reflexivity. Qed.

Lemma blind_modify (f : Game -> Game) :
  (forall b g, set_running true (f (set_running b g)) = set_running true (f g)) ->
  blind (modify f).
Proof. intros Hf b g. unfold modify, but_flag. now rewrite Hf. Qed.

Lemma blind_bind {A B} (m : M A) (k : A -> M B) :
  blind m -> (forall a, blind (k a)) -> blind (bind m k).
Proof.
  intros Hm Hk b g. unfold bind. specialize (Hm b g).
  destruct (m (set_running b g)) as [[a1 g1]|e1], (m g) as [[a2 g2]|e2];
    cbn [but_flag] in Hm; try discriminate.
  - assert (Ha : a1 = a2) by congruence.
    assert (Hg : set_running true g1 = set_running true g2) by congruence.
    subst a1. apply blind_at; [apply Hk|exact Hg].
  - cbn [but_flag]. congruence.
Qed.

Lemma blind_get {A} (k : Game -> M A) :
  (forall b g0 g, k (set_running b g0) g = k g0 g) ->
  (forall g0, blind (k g0)) ->
  blind (bind get_game k).
Proof.
  intros Hread Hk b g. unfold bind, get_game. rewrite Hread. apply Hk.
Qed.

Lemma blind_when (c : bool) (m : M unit) : blind m -> blind (when c m).
Proof. intros Hm. destruct c; [exact Hm|apply blind_ret]. Qed.

Lemma keeps_ret {A} (a : A) : keeps_stopped (ret a).
Proof. intros g a' g' Hg [= _ <-]. exact Hg. Qed.

Lemma keeps_lift {A} (r : Result A) : keeps_stopped (lift r).
Proof. intros g a' g' Hg. unfold lift. destruct r; intros [= _ <-]. exact Hg. Qed.

Lemma keeps_modify (f : Game -> Game) :
  (forall g, running g = false -> running (f g) = false) ->
  keeps_stopped (modify f).
Proof. intros Hf g a' g' Hg [= _ <-]. now apply Hf. Qed.

Lemma keeps_bind {A B} (m : M A) (k : A -> M B) :
  keeps_stopped m -> (forall a, keeps_stopped (k a)) -> keeps_stopped (bind m k).
Proof.
  intros Hm Hk g b g' Hg. unfold bind.
  destruct (m g) as [[a g1]|e] eqn:E; [|discriminate].
  intros E'. eapply Hk; [|exact E']. eapply Hm; [exact Hg|exact E].
Qed.

Lemma keeps_get {A} (k : Game -> M A) :
  (forall g0, keeps_stopped (k g0)) -> keeps_stopped (bind get_game k).
Proof. intros Hk g b g' Hg. unfold bind, get_game. now apply Hk. Qed.

Lemma keeps_when (c : bool) (m : M unit) :
  keeps_stopped m -> keeps_stopped (when c m).
Proof. intros Hm. destruct c; [exact Hm|apply keeps_ret]. Qed.

Lemma blind_for_each {A} (l : list A) (body : A -> M unit) :
  (forall a, blind (body a)) -> blind (for_each l body).
Proof.
  intros Hb. induction l; cbn [for_each]; [apply blind_ret|].
  apply blind_bind; auto.
Qed.

Lemma keeps_for_each {A} (l : list A) (body : A -> M unit) :
  (forall a, keeps_stopped (body a)) -> keeps_stopped (for_each l body).
Proof.
  intros Hb. induction l; cbn [for_each]; [apply keeps_ret|].
  apply keeps_bind; auto.
Qed.

(** Take a method apart, down to the reads and writes of the game. *)
Ltac methods :=
  unfold ChasingEnemy_update, FencingEnemy_update, CentipedeEnemy_update,
    RandomWalkEnemy_update, corner_box_hit, hits_player,
    game_over_lose, game_over_win, stop, create_text, on_turtle,
    on_player_turtle, RawTurtle_new, Waypoint_deactivate, add_enemy,
    add_element, create_fencing, create_centipede, create_randomWalkenemy,
    create_ShootingEnemy, create_chasing, ShootingEnemy_update, shoot_ball,
    move_ball, Player_update;
  cbv zeta.

Ltac by_cases :=
  intros; game_fields; split_matches; game_fields;
  first [reflexivity | assumption | discriminate].

Ltac blindness :=
  repeat lazymatch goal with
    | |- blind (ret _) => apply blind_ret
    | |- blind (lift _) => apply blind_lift
    | |- blind (modify _) => apply blind_modify; by_cases
    | |- blind (when _ _) => apply blind_when
    | |- blind (bind get_game _) =>
        apply blind_get; [intros; reflexivity | intros]
    | |- blind (bind _ _) => apply blind_bind; [|intros]
    | |- blind (for_each _ _) => apply blind_for_each; intros
    | |- blind (match ?x with _ => _ end) => destruct x
    | |- blind _ => progress methods
    end.

Ltac stoppedness :=
  repeat lazymatch goal with
    | |- keeps_stopped (ret _) => apply keeps_ret
    | |- keeps_stopped (lift _) => apply keeps_lift
    | |- keeps_stopped (modify _) => apply keeps_modify; by_cases
    | |- keeps_stopped (when _ _) => apply keeps_when
    | |- keeps_stopped (bind get_game _) => apply keeps_get; intros
    | |- keeps_stopped (bind _ _) => apply keeps_bind; [|intros]
    | |- keeps_stopped (for_each _ _) => apply keeps_for_each; intros
    | |- keeps_stopped (match ?x with _ => _ end) => destruct x
    | |- keeps_stopped _ => progress methods
    end.

Lemma ChasingEnemy_update_blind e : blind (ChasingEnemy_update e).
Proof. blindness. Qed.

Lemma FencingEnemy_update_blind e : blind (FencingEnemy_update e).
Proof. blindness. Qed.

Lemma CentipedeEnemy_update_blind e : blind (CentipedeEnemy_update e).
Proof. blindness. Qed.

Lemma RandomWalkEnemy_update_blind ox oy e :
  blind (RandomWalkEnemy_update ox oy e).
Proof. blindness. Qed.

Lemma ChasingEnemy_update_keeps e : keeps_stopped (ChasingEnemy_update e).
Proof. stoppedness. Qed.

Lemma FencingEnemy_update_keeps e : keeps_stopped (FencingEnemy_update e).
Proof. stoppedness. Qed.

Lemma CentipedeEnemy_update_keeps e : keeps_stopped (CentipedeEnemy_update e).
Proof. stoppedness. Qed.

Lemma RandomWalkEnemy_update_keeps ox oy e :
  keeps_stopped (RandomWalkEnemy_update ox oy e).
Proof. stoppedness. Qed.

Lemma lists_ret {A} (a : A) : keeps_lists (ret a).
Proof. intros g a' g' [= _ <-]. now split. Qed.

Lemma lists_lift {A} (r : Result A) : keeps_lists (lift r).
Proof. intros g a' g'. unfold lift. destruct r; intros [= _ <-]. now split. Qed.

Lemma lists_modify (f : Game -> Game) :
  (forall g, elements (f g) = elements g) ->
  (forall g, enemies (f g) = enemies g) ->
  keeps_lists (modify f).
Proof. intros H1 H2 g a' g' [= _ <-]. now split. Qed.

Lemma lists_bind {A B} (m : M A) (k : A -> M B) :
  keeps_lists m -> (forall a, keeps_lists (k a)) -> keeps_lists (bind m k).
Proof.
  intros Hm Hk g b g'. unfold bind.
  destruct (m g) as [[a g1]|e] eqn:E; [|discriminate].
  intros E'. destruct (Hm _ _ _ E) as [<- <-]. exact (Hk _ _ _ _ E').
Qed.

Lemma lists_get {A} (k : Game -> M A) :
  (forall g0, keeps_lists (k g0)) -> keeps_lists (bind get_game k).
Proof. intros Hk g b g'. unfold bind, get_game. apply Hk. Qed.

Lemma lists_when (c : bool) (m : M unit) :
  keeps_lists m -> keeps_lists (when c m).
Proof. intros Hm. destruct c; [exact Hm|apply lists_ret]. Qed.

Ltac listkeeping :=
  repeat lazymatch goal with
    | |- keeps_lists (ret _) => apply lists_ret
    | |- keeps_lists (lift _) => apply lists_lift
    | |- keeps_lists (modify _) => apply lists_modify; by_cases
    | |- keeps_lists (when _ _) => apply lists_when
    | |- keeps_lists (bind get_game _) => apply lists_get; intros
    | |- keeps_lists (bind _ _) => apply lists_bind; [|intros]
    | |- keeps_lists (match ?x with _ => _ end) => destruct x
    | |- keeps_lists _ => progress methods
    end.

Lemma ChasingEnemy_update_lists e : keeps_lists (ChasingEnemy_update e).
Proof. listkeeping. Qed.

Lemma FencingEnemy_update_lists e : keeps_lists (FencingEnemy_update e).
Proof. listkeeping. Qed.

Lemma CentipedeEnemy_update_lists e : keeps_lists (CentipedeEnemy_update e).
Proof. listkeeping. Qed.

Lemma RandomWalkEnemy_update_lists ox oy e :
  keeps_lists (RandomWalkEnemy_update ox oy e).
Proof. listkeeping. Qed.

Lemma fire_blind cb d : blind (fire cb d).
Proof.
  destruct cb; cbn [fire]; blindness.
Qed.

Lemma fire_keeps cb d : keeps_stopped (fire cb d).
Proof.
  destruct cb; cbn [fire]; stoppedness.
Qed.

Section Blind.
Context `{TurtleLib}.

Lemma ShootingEnemy_update_blind now e : blind (ShootingEnemy_update now e).
Proof. unfold ShootingEnemy_update, shoot_ball, move_ball. blindness. Qed.

Lemma ShootingEnemy_update_keeps now e :
  keeps_stopped (ShootingEnemy_update now e).
Proof. unfold ShootingEnemy_update, shoot_ball, move_ball. stoppedness. Qed.

Lemma Player_update_blind : blind Player_update.
Proof. unfold Player_update. blindness. Qed.

Lemma Player_update_keeps : keeps_stopped Player_update.
Proof. unfold Player_update. stoppedness. Qed.

Lemma Enemy_update_blind inp e : blind (Enemy_update inp e).
Proof.
  destruct e; cbn [Enemy_update]; apply blind_bind;
    try (intros; apply blind_ret).
  - apply RandomWalkEnemy_update_blind.
  - apply ChasingEnemy_update_blind.
  - apply FencingEnemy_update_blind.
  - apply CentipedeEnemy_update_blind.
  - apply ShootingEnemy_update_blind.
Qed.

Lemma Enemy_update_keeps inp e : keeps_stopped (Enemy_update inp e).
Proof.
  destruct e; cbn [Enemy_update]; apply keeps_bind;
    try (intros; apply keeps_ret).
  - apply RandomWalkEnemy_update_keeps.
  - apply ChasingEnemy_update_keeps.
  - apply FencingEnemy_update_keeps.
  - apply CentipedeEnemy_update_keeps.
  - apply ShootingEnemy_update_keeps.
Qed.

Lemma ShootingEnemy_update_lists now e :
  keeps_lists (ShootingEnemy_update now e).
Proof. unfold ShootingEnemy_update, shoot_ball, move_ball. listkeeping. Qed.

Lemma Player_update_lists : keeps_lists Player_update.
Proof. unfold Player_update. listkeeping. Qed.

(** An [update] returns the enemy it was called on, of the same class,
    and leaves the two lists alone. *)
Lemma Enemy_update_lists inp e g e' g' :
  Enemy_update inp e g = Ok (e', g') ->
  elements g' = elements g /\ enemies g' = enemies g
  /\ is_randomwalk (ElEnemy e') = is_randomwalk (ElEnemy e).
Proof.
  destruct e as [e|e|e|e|e]; cbn [Enemy_update]; unfold bind, ret;
    match goal with
    | |- context [match ?m g with _ => _ end] => destruct (m g) as [[a g1]|] eqn:E
    end; try discriminate; intros [= <- <-].
  - destruct (RandomWalkEnemy_update_lists _ _ _ _ _ _ E). auto.
  - destruct (ChasingEnemy_update_lists _ _ _ _ E). auto.
  - destruct (FencingEnemy_update_lists _ _ _ _ E). auto.
  - destruct (CentipedeEnemy_update_lists _ _ _ _ E). auto.
  - destruct (ShootingEnemy_update_lists _ _ _ _ _ E). auto.
Qed.

Lemma update_at_enemies_sound inp i g g' :
  update_at inp i g = Ok (tt, g') -> enemies_sound g -> enemies_sound g'.
Proof.
  unfold update_at. unfold bind at 1. unfold get_game at 1.
  destruct (nth_error (elements g) i) as [[| | |e]|] eqn:Ei.
  - intros [= <-]. auto.
  - intros [= <-]. auto.
  - intros E Hs. destruct (Player_update_lists _ _ _ E) as [El En].
    unfold enemies_sound, refers_to_randomwalk in *. now rewrite El, En.
  - unfold bind.
    destruct (Enemy_update inp e g) as [[e' g1]|] eqn:E; [|discriminate].
    unfold modify. intros [= <-].
    destruct (Enemy_update_lists _ _ _ _ _ E) as (El & En & Ek).
    unfold enemies_sound, refers_to_randomwalk.
    cbn [elements enemies set_elements]. rewrite El, En, set_nth_length.
    intros Hs. eapply Forall_impl; [|exact Hs]. cbn beta.
    intros j [Hj Hrw]. split; [exact Hj|].
    unfold refers_to_randomwalk in Hrw.
    destruct (Nat.eq_dec i j) as [<-|Hne].
    + rewrite nth_error_set_nth_same by exact Hj.
      rewrite Ek. now rewrite Ei in Hrw.
    + now rewrite nth_error_set_nth_other by exact Hne.
  - intros [= <-]. auto.
Qed.

Lemma acts_enemies_sound l : forall g g',
  acts l g = Ok (tt, g') -> enemies_sound g -> enemies_sound g'.
Proof.
  unfold acts. induction l as [|a l IH]; intros g g'; cbn [for_each].
  - intros [= <-]. auto.
  - unfold bind. destruct (act a g) as [[[] g1]|] eqn:E; [|discriminate].
    intros E' Hs. apply (IH g1 g' E').
    destruct a as [i inp|cb d]; cbn [act] in E.
    + exact (update_at_enemies_sound inp i g g1 E Hs).
    + exact (fire_enemies_sound cb d g g1 E Hs).
Qed.

Lemma update_at_blind inp i : blind (update_at inp i).
Proof.
  unfold update_at. apply blind_get; [intros; reflexivity|intros g0].
  destruct (nth_error (elements g0) i) as [[| | |e]|]; try apply blind_ret.
  - apply Player_update_blind.
  - apply blind_bind; [apply Enemy_update_blind|].
    intros e'. apply blind_modify. by_cases.
Qed.

Lemma update_at_keeps inp i : keeps_stopped (update_at inp i).
Proof.
  unfold update_at. apply keeps_get. intros g0.
  destruct (nth_error (elements g0) i) as [[| | |e]|]; try apply keeps_ret.
  - apply Player_update_keeps.
  - apply keeps_bind; [apply Enemy_update_keeps|].
    intros e'. apply keeps_modify. by_cases.
Qed.

Lemma act_blind a : blind (act a).
Proof. destruct a; [apply update_at_blind|apply fire_blind]. Qed.

Lemma act_keeps a : keeps_stopped (act a).
Proof. destruct a; [apply update_at_keeps|apply fire_keeps]. Qed.

End Blind.

(** ** The terminal state *)

Section Terminal.
Context `{TurtleLib}.

Lemma update_at_walker inp i e g :
  nth_error (elements g) i = Some (ElEnemy (RandomWalk e)) ->
  List.length (rw_op e) <> 1%nat ->
  exists e' g1,
    update_at inp i g
    = Ok (tt, set_elements (set_nth i (ElEnemy (RandomWalk e')) (elements g1)) g1)
    /\ (lose_requested g g1 <->
        in_centered_box (rw_x e') (rw_y e') (IZR (rw_size e')) (player_pos g))
    /\ lose_or_same g g1
    /\ rw_size e' = rw_size e
    /\ rw_x e' = apply_operator (hd (in_opx inp) (rw_op e)) (rw_x e)
    /\ rw_y e' = apply_operator (nth 1 (rw_op e) (in_opy inp)) (rw_y e).
Proof.
  intros Hi Hlen.
  destruct (RandomWalkEnemy_update_lose (in_opx inp) (in_opy inp) e g Hlen)
    as (e' & g1 & E & Hiff & Hor & Hs & Hx & Hy).
  exists e', g1. unfold update_at.
  unfold bind at 1. unfold get_game at 1. rewrite Hi.
  cbn [Enemy_update]. unfold bind at 1. rewrite (bind_ok _ _ _ _ _ E).
  split; [reflexivity|]. split; [exact Hiff|]. split; [exact Hor|].
  split; [exact Hs|]. split; [exact Hx|exact Hy].
Qed.

End Terminal.

(** C1, as stated, fails: nothing checks the terminal state.  In a
    session that has been lost, the callback [create_chasing] still
    registers its enemy, in the element list and in the enemy list, and
    the [update] of the random walker registered there still moves it,
    from (300, 200) to (301, 201). *)
Lemma post_terminal_mutation_counterexample :
  running lost_game = false
  /\ (exists g',
        @act ideal_turtle (ActFire Cb_create_chasing (mkDraws 10 20 2 0))
             lost_game = Ok (tt, g')
        /\ List.length (elements lost_game) = 1%nat
        /\ List.length (elements g') = 2%nat
        /\ enemies lost_game = [] /\ enemies g' = [1%nat])
  /\ (exists e' g',
        @act ideal_turtle (ActUpdate 0 (mkInput 0 OpPlus OpPlus)) lost_game
        = Ok (tt, g')
        /\ nth_error (elements lost_game) 0
           = Some (ElEnemy (RandomWalk (walker_at 300 200 20)))
        /\ nth_error (elements g') 0 = Some (ElEnemy (RandomWalk e'))
        /\ rw_x e' = 301 /\ rw_y e' = 201).
Proof.
  split; [reflexivity|]. split.
  - cbn [act fire]. unfold create_chasing. rewrite add_enemy_run.
    eexists. split; [reflexivity|]. repeat split; reflexivity.
  - destruct (@update_at_walker ideal_turtle (mkInput 0 OpPlus OpPlus) 0
                (walker_at 300 200 20) lost_game)
      as (e' & g1 & E & _ & Hor & _ & Hx & Hy).
    { reflexivity. }
    { cbn. discriminate. }
    exists e'. eexists. split; [exact E|]. split; [reflexivity|].
    cbn [elements set_elements]. split.
    + destruct Hor as [-> | ->]; reflexivity.
    + rewrite Hx, Hy. cbn. split; lra.
Qed.

(** C1, amended: reaching a terminal state only stops the session and
    draws the text: [game_over_lose] and [game_over_win] clear the
    running flag and change no entity, no list and no projectile; no
    [update] and no scheduled callback sets the flag again; and none of
    them looks at it: run in the stopped session it returns or raises the
    same and changes the entities, the lists, the projectiles and the
    canvas the same as in the running one. *)
Theorem terminal_state_is_not_checked `{TurtleLib} :
  (forall g,
      game_over_lose g = Ok (tt, lose g)
      /\ game_over_win g = Ok (tt, win g)
      /\ (forall g', g' = lose g \/ g' = win g ->
            running g' = false
            /\ elements g' = elements g /\ enemies g' = enemies g
            /\ player g' = player g /\ turtles g' = turtles g
            /\ waypoint g' = waypoint g))
  /\ (forall a g g', running g = false -> act a g = Ok (tt, g') ->
                     running g' = false)
  /\ (forall a g, but_flag (act a (set_running false g)) = but_flag (act a g)).
Proof.
  split; [|split].
  - intros g. split; [reflexivity|]. split; [reflexivity|].
    intros g' [-> | ->]; repeat split; reflexivity.
  - intros a g g' Hg E. exact (act_keeps a g tt g' Hg E).
  - intros a g. apply act_blind.
Qed.

Lemma terminal_state_is_not_checked_witness :
  exists g',
    @act ideal_turtle (ActFire Cb_create_chasing (mkDraws 10 20 2 0)) lost_game
    = Ok (tt, g')
    /\ running g' = false.
Proof.
  assert (E : @act ideal_turtle (ActFire Cb_create_chasing (mkDraws 10 20 2 0))
                lost_game
              = Ok (tt, set_elements
                          (elements lost_game
                           ++ [ElEnemy (Enemy_create
                                 (Chasing (mkChasing 10 20 20 "green" 2)))])
                          (set_enemies (enemies lost_game ++ [1%nat]) lost_game)))
    by reflexivity.
  eexists. split; [exact E|].
  exact (proj1 (proj2 (@terminal_state_is_not_checked ideal_turtle))
           _ lost_game _ eq_refl E).
Defined.

(** C2, as stated, fails: no request is ignored.  In one tick of a
    running session in which two random walkers step onto the player,
    both call [game_over_lose], and each call draws its text: two texts
    "You Lose" are on the canvas after the pass. *)
Lemma two_collisions_counterexample :
  running two_walkers_game = true
  /\ texts two_walkers_game = []
  /\ exists g',
       @tick ideal_turtle (fun _ => mkInput 0 OpPlus OpPlus) two_walkers_game
       = Ok (tt, g')
       /\ texts g' = ["You Lose"; "You Lose"]%string
       /\ running g' = false.
Proof.
  split; [reflexivity|]. split; [reflexivity|].
  unfold tick. unfold bind at 1. unfold get_game at 1.
  change (running two_walkers_game) with true. cbv iota.
  change (List.length (elements two_walkers_game)) with 2%nat.
  cbn [seq for_each].
  set (inp := mkInput 0 OpPlus OpPlus).
  destruct (@update_at_walker ideal_turtle inp 0
              (mkRandomWalk 99 99 20 "blue" [OpPlus; OpPlus]) two_walkers_game)
    as (e1 & g1 & E1 & Hiff1 & Hor1 & Hs1 & Hx1 & Hy1).
  { reflexivity. }
  { cbn. discriminate. }
  assert (L1 : g1 = lose two_walkers_game).
  { destruct Hor1 as [-> | ->]; [reflexivity|].
    exfalso. apply (lose_requested_irrefl two_walkers_game), Hiff1.
    rewrite Hx1, Hy1, Hs1. unfold in_centered_box, player_pos. cbn. lra. }
  subst g1. rewrite (bind_ok _ _ _ _ _ E1).
  set (g1 := set_elements _ _).
  destruct (@update_at_walker ideal_turtle inp 1
              (mkRandomWalk 101 101 20 "blue" [OpMinus; OpMinus]) g1)
    as (e2 & g2 & E2 & Hiff2 & Hor2 & Hs2 & Hx2 & Hy2).
  { reflexivity. }
  { cbn. discriminate. }
  assert (L2 : g2 = lose g1).
  { destruct Hor2 as [-> | ->]; [reflexivity|].
    exfalso. apply (lose_requested_irrefl g1), Hiff2.
    rewrite Hx2, Hy2, Hs2. unfold in_centered_box, player_pos. cbn. lra. }
  subst g2. rewrite (bind_ok _ _ _ _ _ E2).
  eexists. split; [reflexivity|]. split; reflexivity.
Qed.

Lemma lose_requests_run n : forall g,
  exists g',
    lose_requests n g = Ok (tt, g')
    /\ texts g' = texts g ++ repeat "You Lose"%string n
    /\ running g' = (if Nat.eqb n 0 then running g else false)
    /\ set_texts (texts g) (set_running true g')
       = set_running true g.
Proof.
  induction n as [|n IH]; intros g; cbn [lose_requests repeat Nat.eqb].
  - exists g. rewrite app_nil_r. split; [reflexivity|].
    repeat split; now destruct g.
  - rewrite (bind_ok _ _ _ _ _ (game_over_lose_run g)).
    destruct (IH (lose g)) as (g' & E & Ht & Hr & Hsame).
    exists g'. split; [exact E|]. split.
    + rewrite Ht. cbn [texts lose set_texts]. now rewrite <- app_assoc.
    + split.
      * rewrite Hr. now destruct n.
      * cbn [texts lose set_texts] in Hsame.
        apply (f_equal (set_texts (texts g))) in Hsame.
        exact Hsame.
Qed.

(** C2, amended: every request to lose is carried out, the first and the
    later ones alike: each call of [game_over_lose], whether the session
    is running or already stopped, stops it and draws one more text "You
    Lose", and changes nothing else; after [n >= 1] requests in a pass
    the session is stopped, once and for all, and [n] texts have been
    drawn. *)
Theorem every_lose_request_is_carried_out :
  (forall g,
      game_over_lose g = Ok (tt, lose g)
      /\ running (lose g) = false
      /\ texts (lose g) = texts g ++ ["You Lose"%string]
      /\ set_texts (texts g) (set_running (running g) (lose g)) = g)
  /\ (forall n g, exists g',
        lose_requests n g = Ok (tt, g')
        /\ texts g' = texts g ++ repeat "You Lose"%string n
        /\ ((0 < n)%nat -> running g' = false)).
Proof.
  split.
  - intros g. repeat split; try reflexivity. now destruct g.
  - intros n g. destruct (lose_requests_run n g) as (g' & E & Ht & Hr & _).
    exists g'. split; [exact E|]. split; [exact Ht|].
    intros Hn. rewrite Hr. destruct n; [lia|reflexivity].
Qed.

Lemma every_lose_request_is_carried_out_witness :
  exists g',
    lose_requests 2 two_walkers_game = Ok (tt, g')
    /\ texts g' = ["You Lose"; "You Lose"]%string
    /\ running g' = false.
Proof.
  destruct (proj2 every_lose_request_is_carried_out 2%nat two_walkers_game)
    as (g' & E & Ht & Hr).
  exists g'. split; [exact E|]. split; [exact Ht|]. apply Hr. lia.
Defined.

(** C10: the random-walk factory registers its enemy with [add_element]
    only, so the enemy list is left as it was; every other factory goes
    through [add_enemy], which appends the references to its new elements
    to the enemy list; hence, whatever callbacks the scheduler has run
    since [init_game], and whatever updates have run in between, no
    reference of the enemy list designates a RandomWalkEnemy.
    ([init_game] returns for every screen size but a width or a height
    of 1.) *)
Theorem randomwalk_never_in_enemies `{TurtleLib} :
  (forall rx ry g, exists g',
      create_randomWalkenemy rx ry g = Ok (tt, g')
      /\ enemies g' = enemies g
      /\ elements g'
         = elements g
           ++ [ElEnemy (RandomWalk (mkRandomWalk (IZR rx) (IZR ry) 20 "blue" []))])
  /\ (forall cb d g, cb <> Cb_create_randomWalkenemy ->
        exists new g',
          fire cb d g = Ok (tt, g')
          /\ elements g' = elements g ++ map ElEnemy new
          /\ List.length new = batch cb
          /\ Forall (fun e => made_by cb e = true) new
          /\ enemies g' = enemies g ++ seq (List.length (elements g)) (batch cb))
  /\ (forall w h lvl fired, w <> 1%Z -> h <> 1%Z -> exists g0 g',
        init_game (new_game w h lvl) = Ok (tt, g0)
        /\ fire_all fired g0 = Ok (tt, g')
        /\ enemies_hold_randomwalk g' = false)
  /\ (forall w h lvl l g0 g',
        init_game (new_game w h lvl) = Ok (tt, g0) ->
        acts l g0 = Ok (tt, g') ->
        enemies_hold_randomwalk g' = false).
Proof.
  split; [|split; [|split]].
  - intros rx ry g. eexists. unfold create_randomWalkenemy.
    rewrite add_element_enemy_run. repeat split; reflexivity.
  - intros cb d g Hcb.
    destruct (fire_run cb d g) as (new & g' & E & Hel & Hlen & Hkind & Hen & _).
    exists new, g'. repeat split; try assumption.
    destruct cb; try exact Hen. now elim Hcb.
  - intros w h lvl fired Hw Hh.
    destruct (init_game_run (new_game w h lvl) Hw Hh)
      as (g0 & E0 & _ & Hen & _).
    assert (S0 : enemies_sound g0).
    { unfold enemies_sound. rewrite Hen. constructor. }
    destruct (fire_all_enemies_sound fired g0 S0) as (g' & E & S').
    exists g0, g'. repeat split; try assumption.
    now apply enemies_sound_no_randomwalk.
  - intros w h lvl l g0 g' E0 E.
    destruct (Z.eq_dec w 1) as [Hw|Hw];
      [rewrite init_game_raise in E0 by (now left); discriminate|].
    destruct (Z.eq_dec h 1) as [Hh|Hh];
      [rewrite init_game_raise in E0 by (now right); discriminate|].
    destruct (init_game_run (new_game w h lvl) Hw Hh)
      as (g0' & E0' & _ & Hen & _).
    rewrite E0 in E0'. injection E0' as <-.
    apply enemies_sound_no_randomwalk.
    apply (acts_enemies_sound l g0 g' E).
    unfold enemies_sound. rewrite Hen. constructor.
Qed.

Lemma randomwalk_never_in_enemies_witness :
  (exists new g',
      fire Cb_create_chasing (mkDraws 300 200 3 0) (new_game 800 500 1)
      = Ok (tt, g')
      /\ elements g' = elements (new_game 800 500 1) ++ map ElEnemy new
      /\ List.length new = 1%nat
      /\ Forall (fun e => made_by Cb_create_chasing e = true) new
      /\ enemies g' = [0%nat])
  /\ (exists g0 g',
        init_game (new_game 800 500 1) = Ok (tt, g0)
        /\ @acts ideal_turtle
             [ActFire Cb_create_randomWalkenemy (mkDraws 300 200 3 0);
              ActFire Cb_create_fencing (mkDraws 0 0 2 0)] g0
           = Ok (tt, g')
        /\ enemies_hold_randomwalk g' = false).
Proof.
  pose proof (@randomwalk_never_in_enemies ideal_turtle) as (_ & W2 & _ & W4).
  split.
  - apply (W2 Cb_create_chasing (mkDraws 300 200 3 0) (new_game 800 500 1)).
    discriminate.
  - destruct (init_game_run (new_game 800 500 1)) as (g0 & E0 & _);
      [discriminate..|].
    assert (E : exists g', @acts ideal_turtle
                  [ActFire Cb_create_randomWalkenemy (mkDraws 300 200 3 0);
                   ActFire Cb_create_fencing (mkDraws 0 0 2 0)] g0
                = Ok (tt, g')) by (eexists; reflexivity).
    destruct E as (g' & E).
    exists g0, g'. split; [exact E0|]. split; [exact E|].
    exact (W4 800%Z 500%Z 1%Z _ g0 g' E0 E).
Defined.


(** * Further properties *)

(** ** Pursuit: the step *)

Lemma hypot_scale k a b : hypot (k * a) (k * b) = Rabs k * hypot a b.
Proof.
  unfold hypot.
  replace (k * a * (k * a) + k * b * (k * b))
    with (Rsqr k * (a * a + b * b)) by (unfold Rsqr; ring).
  rewrite sqrt_mult; [|apply Rle_0_sqr|nra].
  now rewrite sqrt_Rsqr_abs.
Qed.

(** A step of length [s] along the unit vector towards a target at
    distance [d > 0]: it has length [|s|] and leaves the target at
    distance [|d - s|]. *)
Lemma pursuit_step dx dy s :
  hypot dx dy <> 0 ->
  hypot (dx / hypot dx dy * s) (dy / hypot dx dy * s) = Rabs s
  /\ hypot (dx - dx / hypot dx dy * s) (dy - dy / hypot dx dy * s)
     = Rabs (hypot dx dy - s).
Proof.
  intros Hd. set (d := hypot dx dy) in *.
  assert (Hpos : 0 < d) by (pose proof (hypot_nonneg dx dy); fold d in H; lra).
  split.
  - replace (dx / d * s) with (s / d * dx) by (field; lra).
    replace (dy / d * s) with (s / d * dy) by (field; lra).
    rewrite hypot_scale. fold d.
    unfold Rdiv. rewrite Rabs_mult, (Rabs_pos_eq (/ d)).
    + field. lra.
    + apply Rlt_le, Rinv_0_lt_compat, Hpos.
  - replace (dx - dx / d * s) with ((d - s) / d * dx) by (field; lra).
    replace (dy - dy / d * s) with ((d - s) / d * dy) by (field; lra).
    rewrite hypot_scale. fold d.
    unfold Rdiv. rewrite Rabs_mult, (Rabs_pos_eq (/ d)).
    + field. lra.
    + apply Rlt_le, Rinv_0_lt_compat, Hpos.
Qed.

Lemma seg_dist_sym p q : seg_dist p q = seg_dist q p.
Proof.
  unfold seg_dist, hypot. f_equal. ring.
Qed.

Lemma seg_dist_0 p q : seg_dist p q = 0 -> p = q.
Proof.
  unfold seg_dist. intros E. apply hypot_eq_0 in E.
  destruct p, q; cbn [fst snd] in *. f_equal; lra.
Qed.

(** The head of a centipede that is not on the player moves by its speed
    straight towards the player, however near the player is: it is then
    at [|d - speed|] from the player, [d] being the distance before. *)
Theorem centipede_head_step (e : CentipedeEnemy) (g : Game)
    (head : Pos) (rest : list Pos) :
  ce_pos e <> player_pos g ->
  (0 <= segment_spacing e)%Z ->
  body_segments e = head :: rest ->
  exists e' g',
    CentipedeEnemy_update e g = Ok (e', g')
    /\ seg_dist (ce_pos e') (ce_pos e) = Rabs (IZR (ce_speed e))
    /\ seg_dist (player_pos g) (ce_pos e')
       = Rabs (seg_dist (player_pos g) (ce_pos e) - IZR (ce_speed e)).
Proof.
  intros Hne Hs Hb.
  destruct (CentipedeEnemy_update_lose e g head rest Hne Hs Hb) as (g' & E & _).
  eexists; exists g'. split; [exact E|].
  assert (Hd : hypot (player_x g - ce_x e) (player_y g - ce_y e) <> 0).
  { intros C. apply hypot_eq_0 in C. destruct C as [C1 C2].
    apply Hne. unfold ce_pos, player_pos. f_equal; lra. }
  destruct (pursuit_step _ _ (IZR (ce_speed e)) Hd) as [P1 P2].
  unfold seg_dist, ce_pos, player_pos.
  cbn [fst snd ce_x ce_y ce_set_body ce_set_pos]. split.
  - rewrite <- P1. f_equal; ring.
  - rewrite <- P2. f_equal; ring.
Qed.

Lemma centipede_head_step_witness :
  exists e' g',
    CentipedeEnemy_update (centipede_at 100 100)
                          (game_with_player 800 500 (200, 100)) = Ok (e', g')
    /\ seg_dist (ce_pos e') (100, 100) = Rabs 4.
Proof.
  destruct (centipede_head_step (centipede_at 100 100)
              (game_with_player 800 500 (200, 100)) (100, 100)
              (map (fun i => (100 - INR i * IZR (1 * 10), 100)) (seq 1 9)))
    as (e' & g' & E & S1 & _).
  - unfold ce_pos, player_pos. cbn. intros C. injection C as C. lra.
  - cbn. lia.
  - reflexivity.
  - exists e', g'. split; [exact E|exact S1].
Defined.

(** ** Pursuit: reaching the player *)

Lemma check_bound_id v limit size :
  0 <= v <= IZR (limit - size) -> check_bound v limit size = v.
Proof.
  intros [H0 H1]. unfold check_bound.
  rewrite (proj2 (ltR_false v 0)) by lra.
  now rewrite (proj2 (ltR_false (IZR (limit - size)) v)) by lra.
Qed.

Lemma corner_box_excludes_corner x y s : ~ in_corner_box x y s (x, y).
Proof. unfold in_corner_box. cbn [fst snd]. lra. Qed.

Lemma lose_or_same_not_requested g g' :
  lose_or_same g g' -> ~ lose_requested g g' -> g' = g.
Proof.
  intros [-> | ->] Hn; [|reflexivity].
  elim Hn. apply lose_requested_lose.
Qed.

(** A pursuer that is exactly its speed away from the player steps
    exactly onto the player; the box test, strict, does not see the
    player there, so the session is left as it is; and the next update,
    the player not having moved, raises ZeroDivisionError.  For the
    chasing enemy the player is taken within the enemy's bounds. *)
Theorem pursuer_steps_onto_player_then_faults :
  (forall e g,
      seg_dist (player_pos g) (ch_pos e) = IZR (ch_speed e) ->
      (0 < ch_speed e)%Z ->
      in_chasing_bounds (ch_size e) (player_pos g) ->
      exists e',
        ChasingEnemy_update e g = Ok (e', g)
        /\ ch_pos e' = player_pos g
        /\ ChasingEnemy_update e' g = Raise ZeroDivisionError)
  /\ (forall e g head rest,
        seg_dist (player_pos g) (ce_pos e) = IZR (ce_speed e) ->
        (0 < ce_speed e)%Z ->
        (0 <= segment_spacing e)%Z ->
        body_segments e = head :: rest ->
        exists e',
          CentipedeEnemy_update e g = Ok (e', g)
          /\ ce_pos e' = player_pos g
          /\ CentipedeEnemy_update e' g = Raise ZeroDivisionError).
Proof.
  split.
  - intros e g Hd Hs [Bx By].
    apply IZR_lt in Hs.
    assert (Hne : ch_pos e <> player_pos g).
    { intros C. rewrite C in Hd.
      unfold seg_dist in Hd. rewrite !Rminus_diag, hypot_0_0 in Hd. lra. }
    destruct (ChasingEnemy_update_ok e g Hne) as (g1 & E1 & _).
    destruct (ChasingEnemy_update_lose e g Hne) as (e2 & g2 & E2 & Hiff & Hor).
    rewrite E1 in E2. injection E2 as <- <-.
    unfold seg_dist, player_pos, ch_pos in Hd. cbn [fst snd] in Hd.
    assert (Px : ch_x e + (player_x g - ch_x e)
                          / hypot (player_x g - ch_x e) (player_y g - ch_y e)
                          * IZR (ch_speed e) = player_x g)
      by (rewrite Hd; field; lra).
    assert (Py : ch_y e + (player_y g - ch_y e)
                          / hypot (player_x g - ch_x e) (player_y g - ch_y e)
                          * IZR (ch_speed e) = player_y g)
      by (rewrite Hd; field; lra).
    rewrite Px, Py in *.
    unfold player_pos in Bx, By. cbn [fst snd] in Bx, By.
    rewrite !check_bound_id in * by assumption.
    assert (Here : ch_pos (ch_set_pos (player_x g) (player_y g) e)
                   = player_pos g) by reflexivity.
    assert (G : g1 = g).
    { apply lose_or_same_not_requested; [exact Hor|].
      rewrite Hiff. cbn [ch_x ch_y ch_size ch_set_pos].
      apply corner_box_excludes_corner. }
    subst g1. eexists. split; [exact E1|]. split; [exact Here|].
    apply ChasingEnemy_update_coincident. exact Here.
  - intros e g head rest Hd Hs Hsp Hb.
    apply IZR_lt in Hs.
    assert (Hne : ce_pos e <> player_pos g).
    { intros C. rewrite C in Hd.
      unfold seg_dist in Hd. rewrite !Rminus_diag, hypot_0_0 in Hd. lra. }
    destruct (CentipedeEnemy_update_lose e g head rest Hne Hsp Hb)
      as (g1 & E1 & Hiff & Hor).
    unfold seg_dist, player_pos, ce_pos in Hd. cbn [fst snd] in Hd.
    assert (Px : ce_x e + (player_x g - ce_x e)
                          / hypot (player_x g - ce_x e) (player_y g - ce_y e)
                          * IZR (ce_speed e) = player_x g)
      by (rewrite Hd; field; lra).
    assert (Py : ce_y e + (player_y g - ce_y e)
                          / hypot (player_x g - ce_x e) (player_y g - ce_y e)
                          * IZR (ce_speed e) = player_y g)
      by (rewrite Hd; field; lra).
    rewrite Px, Py in *.
    assert (G : g1 = g).
    { apply lose_or_same_not_requested; [exact Hor|].
      rewrite Hiff. cbn [ce_x ce_y ce_size ce_set_pos ce_set_body].
      apply corner_box_excludes_corner. }
    subst g1. eexists. split; [exact E1|]. split; [reflexivity|].
    apply CentipedeEnemy_update_coincident. reflexivity.
Qed.

Lemma pursuer_steps_onto_player_then_faults_witness :
  (exists e',
      ChasingEnemy_update (mkChasing 52 250 20 "green" 2)
                          (game_with_player 800 500 (50, 250))
      = Ok (e', game_with_player 800 500 (50, 250))
      /\ ch_pos e' = (50, 250))
  /\ (exists e',
        CentipedeEnemy_update (centipede_at 54 250)
                              (game_with_player 800 500 (50, 250))
        = Ok (e', game_with_player 800 500 (50, 250))
        /\ ce_pos e' = (50, 250)).
Proof.
  split.
  - destruct (proj1 pursuer_steps_onto_player_then_faults
                (mkChasing 52 250 20 "green" 2)
                (game_with_player 800 500 (50, 250))) as (e' & E & P & _).
    + unfold seg_dist, player_pos, ch_pos. cbn.
      replace (50 - 52) with (-2) by lra. replace (250 - 250) with 0 by lra.
      rewrite hypot_x, Rabs_left; lra.
    + reflexivity.
    + unfold in_chasing_bounds, player_pos, SCREEN_WIDTH, SCREEN_HEIGHT. cbn.
      replace (800 - 20)%Z with 780%Z by reflexivity.
      replace (500 - 20)%Z with 480%Z by reflexivity. lra.
    + exists e'. split; [exact E|exact P].
  - destruct (proj2 pursuer_steps_onto_player_then_faults
                (centipede_at 54 250)
                (game_with_player 800 500 (50, 250)) (54, 250)
                (map (fun i => (54 - INR i * IZR (1 * 10), 250)) (seq 1 9)))
      as (e' & E & P & _).
    + unfold seg_dist, player_pos, ce_pos. cbn.
      replace (50 - 54) with (-4) by lra. replace (250 - 250) with 0 by lra.
      rewrite hypot_x, Rabs_left; lra.
    + reflexivity.
    + cbn. lia.
    + reflexivity.
    + exists e'. split; [exact E|exact P].
Defined.

(** ** RandomWalkEnemy: the walk *)

Lemma apply_operator_step o v : apply_operator o v = v + step_of o.
Proof. destruct o; cbn; lra. Qed.

Lemma RandomWalkEnemy_update_run ox oy e g :
  List.length (rw_op e) <> 1%nat ->
  exists g',
    RandomWalkEnemy_update ox oy e g
    = Ok (mkRandomWalk (apply_operator (hd ox (rw_op e)) (rw_x e))
                       (apply_operator (nth 1 (rw_op e) oy) (rw_y e))
                       (rw_size e) (rw_color e)
                       (if Nat.eqb (List.length (rw_op e)) 0
                        then [ox; oy] else rw_op e),
          g')
    /\ lose_or_same g g'.
Proof.
  intros Hlen. unfold RandomWalkEnemy_update.
  destruct (rw_op e) as [|a [|b l]] eqn:Eop; cbn [List.length Nat.eqb] in *;
    [| now elim Hlen |].
  - cbn [rw_op rw_set_op app].
    unfold bind at 1. unfold lift at 1. cbn [index nth_error].
    unfold bind at 1. unfold lift at 1.
    cbn [rw_op rw_set_op rw_set_pos index nth_error rw_x rw_y rw_size rw_color].
    rewrite (bind_ok _ _ _ _ _ (hits_player_run _ _ _ g)), test_then_lose.
    eexists. split; [reflexivity|].
    unfold lose_or_same. destruct (_ && _); auto.
  - rewrite Eop.
    unfold bind at 1. unfold lift at 1. cbn [index nth_error].
    unfold bind at 1. unfold lift at 1.
    cbn [rw_op rw_set_pos index nth_error]. rewrite Eop. cbn [index nth_error].
    rewrite (bind_ok _ _ _ _ _ (hits_player_run _ _ _ g)), test_then_lose.
    unfold rw_set_pos. cbn [rw_x rw_y rw_size rw_color rw_op hd nth].
    rewrite Eop.
    eexists. split; [reflexivity|].
    unfold lose_or_same. destruct (_ && _); auto.
Qed.

Lemma RandomWalkEnemy_updates_settled draws : forall a b e g,
  rw_op e = [a; b] ->
  exists e' g',
    RandomWalkEnemy_updates draws e g = Ok (e', g')
    /\ rw_op e' = [a; b]
    /\ rw_x e' = rw_x e + step_of a * INR (List.length draws)
    /\ rw_y e' = rw_y e + step_of b * INR (List.length draws)
    /\ player g' = player g.
Proof.
  induction draws as [|[ox oy] rest IH]; intros a b e g Hop.
  - exists e, g. cbn [RandomWalkEnemy_updates List.length INR].
    repeat split; try assumption; lra.
  - cbn [RandomWalkEnemy_updates].
    destruct (RandomWalkEnemy_update_run ox oy e g) as (g1 & E1 & Hor).
    { rewrite Hop. cbn. discriminate. }
    rewrite (bind_ok _ _ _ _ _ E1).
    rewrite Hop in *. cbn [List.length Nat.eqb hd nth] in *.
    match goal with
    | |- context [RandomWalkEnemy_updates rest ?e1 g1] =>
        destruct (IH a b e1 g1 eq_refl) as (e' & g' & E & Hop' & Hx & Hy & Hp)
    end.
    exists e', g'. split; [exact E|]. split; [exact Hop'|].
    cbn [rw_x rw_y] in Hx, Hy.
    change (List.length ((ox, oy) :: rest)) with (S (List.length rest)).
    rewrite S_INR, Hx, Hy, !apply_operator_step.
    split; [lra|]. split; [lra|].
    rewrite Hp. destruct Hor as [-> | ->]; reflexivity.
Qed.

(** A random walker keeps the two operators drawn at its first update:
    whatever is drawn afterwards, after [n] updates it is [n] units from
    its spawn point on each axis, on the side the first draw chose; no
    bound stops it.  Its updates never raise and never move the player. *)
Theorem random_walk_keeps_first_direction
    (draws : list (Operator * Operator)) (ox oy : Operator)
    (e : RandomWalkEnemy) (g : Game) :
  rw_op e = [] ->
  exists e' g',
    RandomWalkEnemy_updates ((ox, oy) :: draws) e g = Ok (e', g')
    /\ rw_op e' = [ox; oy]
    /\ rw_x e' = rw_x e + step_of ox * INR (S (List.length draws))
    /\ rw_y e' = rw_y e + step_of oy * INR (S (List.length draws))
    /\ player g' = player g.
Proof.
  intros Hop. cbn [RandomWalkEnemy_updates].
  destruct (RandomWalkEnemy_update_run ox oy e g) as (g1 & E1 & Hor).
  { rewrite Hop. cbn. discriminate. }
  rewrite (bind_ok _ _ _ _ _ E1).
  rewrite Hop in *. cbn [List.length Nat.eqb hd nth] in *.
  match goal with
  | |- context [RandomWalkEnemy_updates draws ?e1 g1] =>
      destruct (RandomWalkEnemy_updates_settled draws ox oy e1 g1 eq_refl)
        as (e' & g' & E & Hop' & Hx & Hy & Hp)
  end.
  exists e', g'. split; [exact E|]. split; [exact Hop'|].
  cbn [rw_x rw_y] in Hx, Hy.
  rewrite S_INR, Hx, Hy, !apply_operator_step.
  split; [lra|]. split; [lra|].
  rewrite Hp. destruct Hor as [-> | ->]; reflexivity.
Qed.

Lemma random_walk_keeps_first_direction_witness :
  exists e' g',
    RandomWalkEnemy_updates
      [(OpMinus, OpPlus); (OpPlus, OpPlus); (OpPlus, OpMinus)]
      (walker_at 1 200 20) (game_with_player 800 500 (50, 250)) = Ok (e', g')
    /\ rw_op e' = [OpMinus; OpPlus]
    /\ rw_x e' = 1 + step_of OpMinus * INR 3
    /\ rw_y e' = 200 + step_of OpPlus * INR 3
    /\ player g' = player (game_with_player 800 500 (50, 250)).
Proof.
  apply (random_walk_keeps_first_direction
           [(OpPlus, OpPlus); (OpPlus, OpMinus)] OpMinus OpPlus
           (walker_at 1 200 20) (game_with_player 800 500 (50, 250))).
  reflexivity.
Defined.

(** ** Home and Player *)

Lemma Home_contains_iff h x y :
  Home_contains h x y = true <-> in_home h (x, y).
Proof.
  unfold Home_contains, in_home. cbn [fst snd].
  rewrite !andb_true_iff, !leR_true. tauto.
Qed.

Section PlayerUpdate.
Context `{TurtleLib}.

(** [Player.update] never raises.  It asks to win exactly when the
    player, before moving, is in the closed square of the home (borders
    included), and never asks to lose.  Winning does not end the update:
    with an active waypoint the player still turns to it and advances by
    its speed; the waypoint keeps its place and is deactivated exactly
    when the player is then nearer to it than its speed.  With no active
    waypoint the player does not move.  No list, no projectile and not
    the home is touched. *)
Theorem player_update_wins_in_home (g : Game) :
  let t := pl_turtle (player g) in
  let wp := waypoint g in
  let moved := t_forward (t_setheading t (towards (t_pos t) (wp_x wp, wp_y wp)))
                         (pl_speed (player g)) in
  exists g',
    Player_update g = Ok (tt, g')
    /\ (in_home (home g) (player_pos g) ->
        texts g' = texts g ++ ["You Win"%string] /\ running g' = false)
    /\ (~ in_home (home g) (player_pos g) ->
        texts g' = texts g /\ running g' = running g)
    /\ player g' = mkPlayer (if wp_active wp then moved else t)
                            (pl_speed (player g))
    /\ waypoint g'
       = mkWaypoint (wp_x wp) (wp_y wp)
           (wp_active wp
            && negb (ltR (t_distance moved (wp_x wp, wp_y wp))
                         (pl_speed (player g))))
    /\ elements g' = elements g /\ enemies g' = enemies g
    /\ turtles g' = turtles g /\ home g' = home g.
Proof.
  cbv zeta.
  assert (Hp : forall g0 : Game, player g0
               = mkPlayer (pl_turtle (player g0)) (pl_speed (player g0)))
    by (intros g0; now destruct (player g0)).
  assert (Hw : forall g0 : Game, waypoint g0
               = mkWaypoint (wp_x (waypoint g0)) (wp_y (waypoint g0))
                            (wp_active (waypoint g0)))
    by (intros g0; now destruct (waypoint g0)).
  cbv [Player_update on_player_turtle Waypoint_deactivate game_over_win stop
       create_text bind ret when modify get_game].
  destruct (Home_contains (home g) (player_x g) (player_y g)) eqn:Eh;
    game_fields; cbv beta iota;
    (destruct (wp_active (waypoint g)) eqn:Ea; game_fields; cbv beta iota;
     cbn [pl_turtle pl_speed];
     [destruct (ltR _ _) eqn:Ed; game_fields; cbv beta iota|]);
    (eexists; split; [reflexivity|]); game_fields;
    cbn [pl_turtle pl_speed wp_x wp_y wp_active andb negb];
    rewrite ?Ed; cbn [andb negb];
    (split; [intros Hin; try (split; reflexivity);
             apply Home_contains_iff in Hin; unfold player_pos in *;
             congruence|]);
    (split; [intros Hout; try (split; reflexivity);
             elim Hout; apply Home_contains_iff; exact Eh|]);
    repeat split; try reflexivity;
    try (rewrite (Hp g) at 1; reflexivity);
    try (rewrite (Hw g) at 1; rewrite Ea; reflexivity).
Qed.

End PlayerUpdate.

Lemma player_update_wins_in_home_witness :
  exists g',
    @Player_update ideal_turtle at_home_game = Ok (tt, g')
    /\ texts g' = ["You Win"%string] /\ running g' = false
    /\ player g' = player at_home_game.
Proof.
  destruct (@player_update_wins_in_home ideal_turtle at_home_game)
    as (g' & E & Hin & _ & Hp & _).
  exists g'. split; [exact E|].
  assert (I : in_home (home at_home_game) (player_pos at_home_game)).
  { unfold in_home, player_pos. cbn. lra. }
  destruct (Hin I) as [Ht Hr]. split; [exact Ht|]. split; [exact Hr|].
  exact Hp.
Defined.

(** ** FencingEnemy: off the track, and the set of four *)

Lemma along_top_off e : fe_y e <> 210%Z -> along_top e = e.
Proof. intros Hn. unfold along_top. now rewrite (proj2 (Z.eqb_neq _ _) Hn). Qed.

Lemma along_bottom_off e : fe_y e <> 270%Z -> along_bottom e = e.
Proof. intros Hn. unfold along_bottom. now rewrite (proj2 (Z.eqb_neq _ _) Hn). Qed.

Lemma along_left_off e : fe_x e <> 660%Z -> along_left e = e.
Proof. intros Hn. unfold along_left. now rewrite (proj2 (Z.eqb_neq _ _) Hn). Qed.

Lemma along_right_off e : fe_x e <> 720%Z -> along_right e = e.
Proof. intros Hn. unfold along_right. now rewrite (proj2 (Z.eqb_neq _ _) Hn). Qed.

(** The patrol only tests for exact coordinates: an enemy that is on none
    of the lines x = 660, x = 720, y = 210, y = 270, or whose spawnOpt
    was never set, is not moved by [update], whatever its spawnOpt and
    speed; it stays where it is for good. *)
Theorem fencing_off_track_never_moves (e : FencingEnemy) (g : Game) (n : nat) :
  off_track e \/ spawnOpt e = None ->
  FencingEnemy_move e = e
  /\ exists g', FencingEnemy_updates n e g = Ok (e, g').
Proof.
  intros Hoff.
  assert (M : FencingEnemy_move e = e).
  { destruct Hoff as [(Hx1 & Hx2 & Hy1 & Hy2) | Hnone].
    - unfold FencingEnemy_move.
      repeat match goal with
             | |- context [match ?x with _ => _ end] => destruct x
             end;
        repeat first [ rewrite along_top_off by assumption
                     | rewrite along_right_off by assumption
                     | rewrite along_bottom_off by assumption
                     | rewrite along_left_off by assumption ];
        reflexivity.
    - unfold FencingEnemy_move. now rewrite Hnone. }
  split; [exact M|].
  destruct (FencingEnemy_updates_moves n e g) as (g' & E).
  exists g'. rewrite E. do 2 f_equal.
  clear E. induction n as [|n IH]; cbn [moves]; [reflexivity|].
  now rewrite M.
Qed.

Lemma fencing_off_track_never_moves_witness :
  exists g', FencingEnemy_updates 5 (mkFencing 723 213 10 "red" 7 (Some 1%Z))
               (game_with_player 800 500 (50, 250))
             = Ok (mkFencing 723 213 10 "red" 7 (Some 1%Z), g').
Proof.
  refine (proj2 (fencing_off_track_never_moves
                   (mkFencing 723 213 10 "red" 7 (Some 1%Z))
                   (game_with_player 800 500 (50, 250)) 5 _)).
  left. unfold off_track. cbn. lia.
Defined.

Lemma arc_of_period opt n :
  (0 <= opt <= 3)%Z -> arc_of opt n = arc_of opt (n mod 45).
Proof. intros Hopt. unfold arc_of. now rewrite (patrol_period opt n Hopt). Qed.

(** The four enemies [create_fencing] makes keep their formation: after
    any number of updates they are a quarter of the loop (one edge, 60)
    apart along the fencing bound, in the order 1, 2, 0, 3 of their
    spawnOpt; so no two of them ever meet and each edge carries one. *)
Theorem fencing_set_keeps_formation (n : nat) :
  quarter_apart n = true
  /\ NoDup (map (fun opt => fe_pos (moves n (patrol_start opt)))
                [1; 2; 0; 3]%Z).
Proof.
  assert (Hn : (n mod 45 < 45)%nat) by (apply Nat.mod_upper_bound; lia).
  split.
  - unfold quarter_apart.
    rewrite (arc_of_period 1 n), (arc_of_period 2 n), (arc_of_period 0 n),
      (arc_of_period 3 n) by lia.
    fold (quarter_apart (n mod 45)).
    assert (A : all_below 45 quarter_apart = true) by (vm_compute; reflexivity).
    exact (all_below_spec _ _ A _ Hn).
  - cbn [map].
    rewrite (patrol_period 1 n), (patrol_period 2 n), (patrol_period 0 n),
      (patrol_period 3 n) by lia.
    assert (A : all_below 45
              (fun k =>
                 let p o := fe_pos (moves k (patrol_start o)) in
                 let ne a b := negb (Z.eqb (fst a) (fst b)
                                     && Z.eqb (snd a) (snd b)) in
                 ne (p 1) (p 2) && ne (p 1) (p 0) && ne (p 1) (p 3)
                 && ne (p 2) (p 0) && ne (p 2) (p 3) && ne (p 0) (p 3))%Z
            = true) by (vm_compute; reflexivity).
    pose proof (all_below_spec _ _ A _ Hn) as B. cbv zeta beta in B.
    revert B. generalize (n mod 45)%nat. intros k B.
    repeat (apply andb_prop in B; destruct B as [B ?]).
    assert (D : forall a b : Z * Z,
               negb ((fst a =? fst b)%Z && (snd a =? snd b)%Z) = true -> a <> b).
    { intros a b Hab E. subst b. now rewrite !Z.eqb_refl in Hab. }
    repeat constructor; cbn [In]; intuition (eauto using D);
      match goal with
      | E : fe_pos _ = fe_pos _ |- _ =>
          first [ eapply D; [|exact E]; eassumption
                | eapply D; [|symmetry; exact E]; eassumption ]
      end.
Qed.

(** ** CentipedeEnemy: the body as created *)

Lemma seg_dist_level a b y : seg_dist (a, y) (b, y) = Rabs (a - b).
Proof.
  unfold seg_dist. cbn [fst snd]. rewrite Rminus_diag. apply hypot_x.
Qed.

(** [create] gives a new centipede of size [size >= 0] at [(x, y)] its
    ten segments: the head at [(x, y)] and segment [i] at
    [(x - i * size, y)], each exactly [segment_spacing = size] from the
    one before it, in a row to the left of the head. *)
Theorem centipede_created_in_a_row (x y : R) (size : Z) (color : string) :
  (0 <= size)%Z ->
  let e := CentipedeEnemy_create (ce_set_pos x y (CentipedeEnemy_new size color)) in
  segment_spacing e = size
  /\ List.length (body_segments e) = 10%nat
  /\ (forall i, (i < 10)%nat ->
        exists p, nth_error (body_segments e) i = Some p
                  /\ p = (x - INR i * IZR size, y))
  /\ (forall i p q, nth_error (body_segments e) i = Some p ->
                    nth_error (body_segments e) (S i) = Some q ->
                    seg_dist p q = IZR size)
  /\ chain_within (IZR size) (body_segments e).
Proof.
  intros Hs. apply IZR_le in Hs. cbv zeta.
  unfold CentipedeEnemy_create, CentipedeEnemy_new.
  cbn [body_segments ce_set_body ce_set_pos segment_spacing ce_x ce_y ce_length
       app Nat.sub seq map List.length].
  rewrite Z.mul_1_l.
  split; [reflexivity|]. split; [reflexivity|].
  split.
  { intros i Hi.
    do 10 (destruct i as [|i]; [cbn [nth_error INR]; eexists; split;
                                [reflexivity|f_equal; lra]|]).
    lia. }
  split.
  { intros i p q Hp Hq.
    do 9 (destruct i as [|i];
          [cbn [nth_error] in Hp, Hq; injection Hp as <-; injection Hq as <-;
           rewrite seg_dist_level; cbn [INR];
           match goal with
           | |- Rabs ?a = _ => replace a with (IZR size) by lra
           end;
           now apply Rabs_pos_eq|]).
    cbn [nth_error] in Hq. destruct i; discriminate. }
  cbn [chain_within].
  repeat split;
    rewrite seg_dist_level; cbn [INR];
    match goal with
    | |- Rabs ?a <= _ => replace a with (IZR size) by lra
    end;
    rewrite Rabs_pos_eq by exact Hs; lra.
Qed.

Lemma centipede_created_in_a_row_witness :
  List.length (body_segments (centipede_at 300 200)) = 10%nat
  /\ chain_within 10 (body_segments (centipede_at 300 200)).
Proof.
  destruct (centipede_created_in_a_row 300 200 10 "yellow" ltac:(lia))
    as (_ & L & _ & _ & C).
  split; [exact L|exact C].
Defined.

(** ** What the actions keep *)

Section Preserves.
Variable R : Game -> Game -> Prop.
Hypothesis R_refl : forall g, R g g.
Hypothesis R_trans : forall g1 g2 g3, R g1 g2 -> R g2 g3 -> R g1 g3.

Lemma pres_ret {A} (a : A) : preserves R (ret a).
Proof. intros g a' g' [= _ <-]. apply R_refl. Qed.

Lemma pres_lift {A} (r : Result A) : preserves R (lift r).
Proof.
  intros g a' g'. unfold lift. destruct r; intros [= _ <-]. apply R_refl.
Qed.

Lemma pres_modify (f : Game -> Game) :
  (forall g, R g (f g)) -> preserves R (modify f).
Proof. intros Hf g a' g' [= _ <-]. apply Hf. Qed.

Lemma pres_bind {A B} (m : M A) (k : A -> M B) :
  preserves R m -> (forall a, preserves R (k a)) -> preserves R (bind m k).
Proof.
  intros Hm Hk g b g'. unfold bind.
  destruct (m g) as [[a g1]|e] eqn:E; [|discriminate].
  intros E'. eapply R_trans; [exact (Hm _ _ _ E)|exact (Hk _ _ _ _ E')].
Qed.

Lemma pres_get {A} (k : Game -> M A) :
  (forall g0, preserves R (k g0)) -> preserves R (bind get_game k).
Proof. intros Hk g b g'. unfold bind, get_game. apply Hk. Qed.

Lemma pres_when (c : bool) (m : M unit) :
  preserves R m -> preserves R (when c m).
Proof. intros Hm. destruct c; [exact Hm|apply pres_ret]. Qed.

Lemma pres_for_each {A} (l : list A) (body : A -> M unit) :
  (forall a, preserves R (body a)) -> preserves R (for_each l body).
Proof.
  intros Hb. induction l; cbn [for_each]; [apply pres_ret|].
  apply pres_bind; auto.
Qed.

End Preserves.

(** Take a method apart, the two terminal transitions left whole. *)
Ltac methods_to_over :=
  unfold ChasingEnemy_update, FencingEnemy_update, CentipedeEnemy_update,
    RandomWalkEnemy_update, corner_box_hit, hits_player, on_turtle,
    on_player_turtle, RawTurtle_new, Waypoint_deactivate, add_enemy,
    add_element, create_fencing, create_centipede, create_randomWalkenemy,
    create_ShootingEnemy, create_chasing, ShootingEnemy_update, shoot_ball,
    move_ball, Player_update;
  cbv zeta.

(** [preserving refl trans prim side]: [prim] settles the methods taken
    as a whole, [side] the writes. *)
Ltac preserving refl trans prim side :=
  repeat lazymatch goal with
    | |- preserves _ (ret _) => apply (pres_ret _ refl)
    | |- preserves _ (lift _) => apply (pres_lift _ refl)
    | |- preserves _ (modify _) => apply pres_modify; side
    | |- preserves _ (when _ _) => apply (pres_when _ refl)
    | |- preserves _ (bind get_game _) => apply pres_get; intros
    | |- preserves _ (bind _ _) => apply (pres_bind _ trans); [|intros]
    | |- preserves _ (for_each _ _) =>
        apply (pres_for_each _ refl trans); intros
    | |- preserves _ (match ?x with _ => _ end) => destruct x
    | |- preserves _ _ => first [ prim | progress methods_to_over ]
    end.

Lemma same_frame_refl g : same_frame g g.
Proof. unfold same_frame. auto 10. Qed.

Lemma same_frame_trans g1 g2 g3 :
  same_frame g1 g2 -> same_frame g2 g3 -> same_frame g1 g3.
Proof.
  unfold same_frame. intros (A1 & A2 & A3 & A4 & A5 & A6 & A7 & A8)
    (B1 & B2 & B3 & B4 & B5 & B6 & B7 & B8).
  repeat split; try congruence. auto.
Qed.

Ltac frame_side :=
  intros; unfold same_frame; game_fields; split_matches; game_fields;
  cbn [wp_x wp_y wp_active]; repeat split; auto; discriminate.

Lemma game_over_lose_frame : preserves same_frame game_over_lose.
Proof.
  unfold game_over_lose, stop, create_text.
  preserving same_frame_refl same_frame_trans fail frame_side.
Qed.

Lemma game_over_win_frame : preserves same_frame game_over_win.
Proof.
  unfold game_over_win, stop, create_text.
  preserving same_frame_refl same_frame_trans fail frame_side.
Qed.

Ltac frame_prim :=
  first [ apply game_over_lose_frame | apply game_over_win_frame ].

Lemma fire_frame cb d : preserves same_frame (fire cb d).
Proof.
  destruct cb; cbn [fire];
    preserving same_frame_refl same_frame_trans frame_prim frame_side.
Qed.

Section Frame.
Context `{TurtleLib}.

Lemma update_at_frame inp i : preserves same_frame (update_at inp i).
Proof.
  unfold update_at.
  apply pres_get. intros g0.
  destruct (nth_error (elements g0) i) as [[| | |e]|];
    try apply (pres_ret _ same_frame_refl).
  - preserving same_frame_refl same_frame_trans frame_prim frame_side.
  - apply (pres_bind _ same_frame_trans);
      [|intros; apply pres_modify; frame_side].
    destruct e; cbn [Enemy_update];
      preserving same_frame_refl same_frame_trans frame_prim frame_side.
Qed.

Lemma act_frame a : preserves same_frame (act a).
Proof. destruct a; [apply update_at_frame|apply fire_frame]. Qed.

End Frame.

Lemma same_player_refl g : same_player g g.
Proof. split; reflexivity. Qed.

Lemma same_player_trans g1 g2 g3 :
  same_player g1 g2 -> same_player g2 g3 -> same_player g1 g3.
Proof. unfold same_player. intros [A1 A2] [B1 B2]. split; congruence. Qed.

Ltac player_side :=
  intros; unfold same_player; game_fields; split_matches; game_fields;
  split; reflexivity.

Lemma game_over_lose_player : preserves same_player game_over_lose.
Proof.
  unfold game_over_lose, stop, create_text.
  preserving same_player_refl same_player_trans fail player_side.
Qed.

Ltac player_prim := apply game_over_lose_player.

Lemma fire_player cb d : preserves same_player (fire cb d).
Proof.
  destruct cb; cbn [fire];
    preserving same_player_refl same_player_trans player_prim player_side.
Qed.

Lemma stopped_with_banner_refl g : stopped_with_banner g g.
Proof. left. split; reflexivity. Qed.

Lemma stopped_with_banner_trans g1 g2 g3 :
  stopped_with_banner g1 g2 -> stopped_with_banner g2 g3 ->
  stopped_with_banner g1 g3.
Proof.
  intros [[T1 R1] | (l1 & N1 & T1 & F1 & R1)]
         [[T2 R2] | (l2 & N2 & T2 & F2 & R2)].
  - left. split; congruence.
  - right. exists l2. repeat split; try assumption; congruence.
  - right. exists l1. repeat split; try assumption; congruence.
  - right. exists (l1 ++ l2). repeat split.
    + destruct l1; [congruence|discriminate].
    + rewrite T2, T1. now rewrite app_assoc.
    + now apply Forall_app.
    + exact R2.
Qed.

Ltac banner_side :=
  intros; left; game_fields; split_matches; game_fields; split; reflexivity.

Lemma game_over_lose_banner : preserves stopped_with_banner game_over_lose.
Proof.
  intros g a g' [= _ <-]. right. exists ["You Lose"%string].
  split; [discriminate|]. split; [reflexivity|]. split; [|reflexivity].
  constructor; [now right|constructor].
Qed.

Lemma game_over_win_banner : preserves stopped_with_banner game_over_win.
Proof.
  intros g a g' [= _ <-]. right. exists ["You Win"%string].
  split; [discriminate|]. split; [reflexivity|]. split; [|reflexivity].
  constructor; [now left|constructor].
Qed.

Ltac banner_prim :=
  first [ apply game_over_lose_banner | apply game_over_win_banner ].

Lemma fire_banner cb d : preserves stopped_with_banner (fire cb d).
Proof.
  destruct cb; cbn [fire];
    preserving stopped_with_banner_refl stopped_with_banner_trans
               banner_prim banner_side.
Qed.

Lemma same_class_refl el : same_class el el = true.
Proof. destruct el as [| | |[]]; reflexivity. Qed.

Lemma same_class_trans a b c :
  same_class a b = true -> same_class b c = true -> same_class a c = true.
Proof.
  destruct a as [| | |[]], b as [| | |[]], c as [| | |[]];
    cbn; congruence.
Qed.

Lemma nothing_removed_refl g : nothing_removed g g.
Proof.
  split; [exists []; now rewrite app_nil_r|]. split; [lia|].
  intros i el E. exists el. split; [exact E|apply same_class_refl].
Qed.

Lemma nothing_removed_trans g1 g2 g3 :
  nothing_removed g1 g2 -> nothing_removed g2 g3 -> nothing_removed g1 g3.
Proof.
  intros ((l1 & E1) & L1 & C1) ((l2 & E2) & L2 & C2).
  split; [exists (l1 ++ l2); rewrite E2, E1; now rewrite app_assoc|].
  split; [lia|].
  intros i el E. destruct (C1 i el E) as (el1 & E1' & S1).
  destruct (C2 i el1 E1') as (el2 & E2' & S2).
  exists el2. split; [exact E2'|]. exact (same_class_trans _ _ _ S1 S2).
Qed.

Lemma fire_nothing_removed cb d : preserves nothing_removed (fire cb d).
Proof.
  intros g [] g' E.
  destruct (fire_run cb d g) as (new & g1 & E1 & Hel & _ & _ & Hen & _).
  rewrite E1 in E. injection E as <-.
  split; [|split].
  - rewrite Hen. destruct cb; eauto. exists []. now rewrite app_nil_r.
  - rewrite Hel, length_app. lia.
  - intros i el Ei. exists el. split; [|apply same_class_refl].
    rewrite Hel. rewrite nth_error_app1; [exact Ei|].
    apply nth_error_Some. congruence.
Qed.

Section Kept.
Context `{TurtleLib}.

Lemma Enemy_update_player inp e : preserves same_player (Enemy_update inp e).
Proof.
  destruct e; cbn [Enemy_update];
    preserving same_player_refl same_player_trans player_prim player_side.
Qed.

Lemma update_at_banner inp i : preserves stopped_with_banner (update_at inp i).
Proof.
  unfold update_at.
  apply pres_get. intros g0.
  destruct (nth_error (elements g0) i) as [[| | |e]|];
    try apply (pres_ret _ stopped_with_banner_refl).
  - preserving stopped_with_banner_refl stopped_with_banner_trans
               banner_prim banner_side.
  - apply (pres_bind _ stopped_with_banner_trans);
      [|intros; apply pres_modify; banner_side].
    destruct e; cbn [Enemy_update];
      preserving stopped_with_banner_refl stopped_with_banner_trans
                 banner_prim banner_side.
Qed.

Lemma update_at_nothing_removed inp i :
  preserves nothing_removed (update_at inp i).
Proof.
  intros g [] g'. unfold update_at. unfold bind at 1. unfold get_game at 1.
  destruct (nth_error (elements g) i) as [[| | |e]|] eqn:Ei;
    try (intros [= <-]; apply nothing_removed_refl).
  - intros E. destruct (Player_update_lists _ _ _ E) as [El En].
    unfold nothing_removed. rewrite El, En.
    apply nothing_removed_refl.
  - unfold bind.
    destruct (Enemy_update inp e g) as [[e' g1]|] eqn:E; [|discriminate].
    unfold modify. intros [= <-].
    destruct (Enemy_update_lists _ _ _ _ _ E) as (El & En & Ek).
    unfold nothing_removed. cbn [elements enemies set_elements].
    rewrite El, En, set_nth_length.
    split; [exists []; now rewrite app_nil_r|]. split; [lia|].
    intros j el Ej.
    destruct (Nat.eq_dec i j) as [<-|Hne].
    + rewrite nth_error_set_nth_same
        by (apply nth_error_Some; congruence).
      eexists. split; [reflexivity|].
      rewrite Ei in Ej. injection Ej as <-.
      revert E. clear. destruct e; cbn [Enemy_update]; unfold bind, ret;
        match goal with
        | |- context [match ?m g with _ => _ end] => destruct (m g) as [[a g2]|]
        end; try discriminate; intros [= <- _]; reflexivity.
    + rewrite nth_error_set_nth_other by exact Hne.
      exists el. split; [exact Ej|apply same_class_refl].
Qed.

Lemma acts_preserves (R : Game -> Game -> Prop) :
  (forall g, R g g) ->
  (forall g1 g2 g3, R g1 g2 -> R g2 g3 -> R g1 g3) ->
  (forall a, preserves R (act a)) ->
  forall l, preserves R (acts l).
Proof.
  intros Hrefl Htrans Hact l. unfold acts.
  apply (pres_for_each R Hrefl Htrans). exact Hact.
Qed.

End Kept.

Section KeptByAll.
Context `{TurtleLib}.

(** No update and no callback, in any number and order, writes the
    session's level, its screen size, the home, the schedule or the place
    of the waypoint, and none activates the waypoint. *)
Theorem session_frame_is_kept (l : list Action) (g g' : Game) :
  acts l g = Ok (tt, g') -> same_frame g g'.
Proof.
  apply (acts_preserves same_frame same_frame_refl same_frame_trans act_frame).
Qed.

(** Enemies only read the player: no update of an enemy, of any class,
    and no callback of the generator changes the player or the
    waypoint. *)
Theorem enemies_and_callbacks_leave_player :
  (forall inp e g e' g',
      Enemy_update inp e g = Ok (e', g') -> same_player g g')
  /\ (forall cb d g g', fire cb d g = Ok (tt, g') -> same_player g g').
Proof.
  split.
  - intros inp e g e' g'. apply Enemy_update_player.
  - intros cb d g g'. apply fire_player.
Qed.

(** The session is stopped exactly together with a terminal text: after
    any updates and callbacks, either the texts and the running flag are
    as they were, or texts "You Win" or "You Lose", and nothing else, have
    been added and the session is stopped. *)
Theorem stopping_comes_with_banner (l : list Action) (g g' : Game) :
  acts l g = Ok (tt, g') -> stopped_with_banner g g'.
Proof.
  apply (acts_preserves stopped_with_banner stopped_with_banner_refl
           stopped_with_banner_trans).
  intros [i inp|cb d]; [apply update_at_banner|apply fire_banner].
Qed.

(** Nothing is ever taken out of the game: after any updates and
    callbacks the enemy list is the old one with references appended,
    and every element is still registered at its position, as an object
    of the class it had. *)
Theorem nothing_is_ever_removed (l : list Action) (g g' : Game) :
  acts l g = Ok (tt, g') -> nothing_removed g g'.
Proof.
  apply (acts_preserves nothing_removed nothing_removed_refl
           nothing_removed_trans).
  intros [i inp|cb d];
    [apply update_at_nothing_removed|apply fire_nothing_removed].
Qed.

End KeptByAll.

Lemma acts_sample_run :
  exists g',
    @acts ideal_turtle
      [ActFire Cb_create_fencing (mkDraws 0 0 2 0);
       ActFire Cb_create_randomWalkenemy (mkDraws 300 200 2 0)]
      lost_game = Ok (tt, g').
Proof.
  unfold acts. cbn [for_each act].
  destruct (fire_run Cb_create_fencing (mkDraws 0 0 2 0) lost_game)
    as (new1 & g1 & E1 & _).
  rewrite (bind_ok _ _ _ _ _ E1).
  destruct (fire_run Cb_create_randomWalkenemy (mkDraws 300 200 2 0) g1)
    as (new2 & g2 & E2 & _).
  rewrite (bind_ok _ _ _ _ _ E2).
  exists g2. reflexivity.
Qed.

Lemma session_frame_is_kept_witness :
  exists g',
    @acts ideal_turtle
      [ActFire Cb_create_fencing (mkDraws 0 0 2 0);
       ActFire Cb_create_randomWalkenemy (mkDraws 300 200 2 0)]
      lost_game = Ok (tt, g')
    /\ same_frame lost_game g'.
Proof.
  destruct acts_sample_run as (g' & E).
  exists g'. split; [exact E|].
  exact (@session_frame_is_kept ideal_turtle _ _ _ E).
Defined.

Lemma stopping_comes_with_banner_witness :
  exists g',
    @acts ideal_turtle
      [ActFire Cb_create_fencing (mkDraws 0 0 2 0);
       ActFire Cb_create_randomWalkenemy (mkDraws 300 200 2 0)]
      lost_game = Ok (tt, g')
    /\ stopped_with_banner lost_game g'.
Proof.
  destruct acts_sample_run as (g' & E).
  exists g'. split; [exact E|].
  exact (@stopping_comes_with_banner ideal_turtle _ _ _ E).
Defined.

Lemma nothing_is_ever_removed_witness :
  exists g',
    @acts ideal_turtle
      [ActFire Cb_create_fencing (mkDraws 0 0 2 0);
       ActFire Cb_create_randomWalkenemy (mkDraws 300 200 2 0)]
      lost_game = Ok (tt, g')
    /\ nothing_removed lost_game g'.
Proof.
  destruct acts_sample_run as (g' & E).
  exists g'. split; [exact E|].
  exact (@nothing_is_ever_removed ideal_turtle _ _ _ E).
Defined.

Lemma enemies_and_callbacks_leave_player_witness :
  (exists e' g',
      @Enemy_update ideal_turtle (mkInput 0 OpPlus OpPlus)
        (Fencing (patrol_start 1)) (game_with_player 800 500 (50, 250))
      = Ok (e', g')
      /\ same_player (game_with_player 800 500 (50, 250)) g')
  /\ (exists g',
        fire Cb_create_chasing (mkDraws 10 20 2 0) lost_game = Ok (tt, g')
        /\ same_player lost_game g').
Proof.
  split.
  - destruct (FencingEnemy_update_move (patrol_start 1)
                (game_with_player 800 500 (50, 250))) as (g' & E & _).
    assert (E' : @Enemy_update ideal_turtle (mkInput 0 OpPlus OpPlus)
                   (Fencing (patrol_start 1))
                   (game_with_player 800 500 (50, 250))
                 = Ok (Fencing (FencingEnemy_move (patrol_start 1)), g')).
    { cbn [Enemy_update]. now rewrite (bind_ok _ _ _ _ _ E). }
    eexists; exists g'. split; [exact E'|].
    exact (proj1 (@enemies_and_callbacks_leave_player ideal_turtle)
             _ _ _ _ _ E').
  - destruct (fire_run Cb_create_chasing (mkDraws 10 20 2 0) lost_game)
      as (new & g' & E & _).
    exists g'. split; [exact E|].
    exact (proj2 (@enemies_and_callbacks_leave_player ideal_turtle)
             _ _ _ _ E).
Defined.

(** ** EnemyGenerator: the population *)






(** ** ShootingEnemy: the projectile in flight *)

Section Flight.
Context `{TurtleLib}.

(** Between two shots a shooting enemy is left as it is and only its
    projectile changes: a hidden one stays where it is, and the whole
    session with it; a shown one keeps its heading and advances by
    [ball_speed] along it; it stays shown unless it is then nearer to the
    player than the enemy's size, in which case the session is asked to
    lose and the projectile is hidden.  No other turtle is touched. *)
Theorem projectile_flies_straight (now : R) (e : ShootingEnemy) (g : Game)
    (b : nat) (t : RawTurtle) :
  se_ball e = Some b ->
  nth_error (turtles g) b = Some t ->
  now - last_shot_time e < 1 ->
  let hit := ltR (t_distance (t_forward t (IZR (ball_speed e))) (player_pos g))
                 (IZR (se_size e)) in
  exists g',
    ShootingEnemy_update now e g = Ok (e, g')
    /\ (t_visible t = false -> g' = g)
    /\ (t_visible t = true ->
        nth_error (turtles g') b
        = Some (mkTurtle (forward (t_pos t) (t_heading t) (IZR (ball_speed e)))
                         (t_heading t) (negb hit))
        /\ (hit = true -> lose_requested g g')
        /\ (hit = false -> texts g' = texts g /\ running g' = running g))
    /\ (forall i, i <> b -> nth_error (turtles g') i = nth_error (turtles g) i).
Proof.
  intros Eb Et Hnot. cbv zeta.
  assert (Hb : (b < List.length (turtles g))%nat)
    by (apply nth_error_Some; congruence).
  cbv [ShootingEnemy_update move_ball on_turtle game_over_lose stop
       create_text bind ret when modify get_game].
  rewrite (proj2 (leR_false 1 (now - last_shot_time e))) by exact Hnot.
  rewrite Eb, Et.
  destruct (t_visible t) eqn:Ev.
  2:{ exists g. split; [reflexivity|]. split; [reflexivity|].
      split; [discriminate|reflexivity]. }
  game_fields. rewrite ?Et. game_fields.
  rewrite nth_error_set_nth_same by exact Hb.
  rewrite player_x_set_turtles, player_y_set_turtles.
  fold (player_pos g).
  destruct (ltR (t_distance (t_forward t (IZR (ball_speed e))) (player_pos g))
                (IZR (se_size e))) eqn:Ed; cbn [negb]; game_fields.
  - rewrite nth_error_set_nth_same by exact Hb.
    eexists. split; [reflexivity|]. split; [discriminate|].
    game_fields. split.
    + intros _. split.
      * rewrite nth_error_set_nth_same by (rewrite set_nth_length; exact Hb).
        unfold t_hideturtle, t_forward. cbn [t_pos t_heading t_visible].
        reflexivity.
      * split; [intros _; split; reflexivity|discriminate].
    + intros i Hi. now rewrite !nth_error_set_nth_other by congruence.
  - eexists. split; [reflexivity|]. split; [discriminate|].
    game_fields. split.
    + intros _. split.
      * rewrite nth_error_set_nth_same by exact Hb.
        unfold t_forward. cbn [t_pos t_heading t_visible]. now rewrite Ev.
      * split; [discriminate|intros _; split; reflexivity].
    + intros i Hi. now rewrite nth_error_set_nth_other by congruence.
Qed.

End Flight.

Lemma projectile_flies_straight_witness :
  exists g',
    @ShootingEnemy_update ideal_turtle (1 / 2)
      (se_set_ball (Some 0%nat) (shooter_at 0 300 200))
      (set_turtles [mkTurtle (300, 200) 0 false]
                   (game_with_player 800 500 (50, 250)))
    = Ok (se_set_ball (Some 0%nat) (shooter_at 0 300 200), g')
    /\ g' = set_turtles [mkTurtle (300, 200) 0 false]
                        (game_with_player 800 500 (50, 250)).
Proof.
  destruct (@projectile_flies_straight ideal_turtle (1 / 2)
              (se_set_ball (Some 0%nat) (shooter_at 0 300 200))
              (set_turtles [mkTurtle (300, 200) 0 false]
                           (game_with_player 800 500 (50, 250)))
              0%nat (mkTurtle (300, 200) 0 false))
    as (g' & E & Hid & _).
  - reflexivity.
  - reflexivity.
  - cbn. lra.
  - exists g'. split; [exact E|]. apply Hid. reflexivity.
Defined.

(** ** ChasingEnemy: a step inside the bounds *)

(** A chasing enemy that is not on the player and whose step does not
    leave its bounds moves by its speed straight towards the player: it
    ends at [|d - speed|] from the player, [d] being the distance before
    (beyond the player when [d] is less than its speed). *)
Theorem chasing_step_inside_bounds (e : ChasingEnemy) (g : Game) :
  let d := seg_dist (player_pos g) (ch_pos e) in
  let target := (ch_x e + (player_x g - ch_x e) / d * IZR (ch_speed e),
                 ch_y e + (player_y g - ch_y e) / d * IZR (ch_speed e)) in
  ch_pos e <> player_pos g ->
  in_chasing_bounds (ch_size e) target ->
  exists e' g',
    ChasingEnemy_update e g = Ok (e', g')
    /\ ch_pos e' = target
    /\ seg_dist (ch_pos e') (ch_pos e) = Rabs (IZR (ch_speed e))
    /\ seg_dist (player_pos g) (ch_pos e') = Rabs (d - IZR (ch_speed e)).
Proof.
  cbv zeta. intros Hne [Bx By].
  destruct (ChasingEnemy_update_ok e g Hne) as (g' & E & _).
  assert (Hd : hypot (player_x g - ch_x e) (player_y g - ch_y e) <> 0).
  { intros C. apply hypot_eq_0 in C. destruct C as [C1 C2].
    apply Hne. unfold ch_pos, player_pos. f_equal; lra. }
  destruct (pursuit_step _ _ (IZR (ch_speed e)) Hd) as [P1 P2].
  unfold seg_dist, ch_pos, player_pos in *. cbn [fst snd] in *.
  rewrite !check_bound_id in E by assumption.
  eexists; exists g'. split; [exact E|].
  cbn [ch_x ch_y ch_set_pos]. split; [reflexivity|]. split.
  - rewrite <- P1. f_equal; ring.
  - rewrite <- P2. f_equal; ring.
Qed.

Lemma chasing_step_inside_bounds_witness :
  exists e' g',
    ChasingEnemy_update (mkChasing 600 150 20 "green" 2)
                        (game_with_player 800 500 (50, 150)) = Ok (e', g')
    /\ seg_dist (ch_pos e') (600, 150) = Rabs 2.
Proof.
  assert (D : hypot (50 - 600) (150 - 150) = 550).
  { replace (150 - 150) with 0 by lra. rewrite hypot_x.
    replace (50 - 600) with (-550) by lra. rewrite Rabs_left; lra. }
  destruct (chasing_step_inside_bounds (mkChasing 600 150 20 "green" 2)
              (game_with_player 800 500 (50, 150)))
    as (e' & g' & E & _ & S1 & _).
  - unfold ch_pos, player_pos. cbn. intros C. injection C as C. lra.
  - unfold in_chasing_bounds, seg_dist, player_pos, ch_pos,
      SCREEN_WIDTH, SCREEN_HEIGHT.
    cbn [fst snd ch_x ch_y ch_size ch_speed player_x player_y
         game_with_player set_player player pl_turtle t_goto t_pos].
    rewrite D.
    replace (800 - 20)%Z with 780%Z by reflexivity.
    replace (500 - 20)%Z with 480%Z by reflexivity. lra.
  - exists e', g'. split; [exact E|exact S1].
Defined.

(** ** The start of a session *)



